(** * ZINB-VAE: tree message passing and the importance-sampling estimator

    A shallow embedding of two units of the repository:

    - [scvi/models/treevae.py]: the Gaussian message passing of [TreeVAE]
      ([initialize_messages], [initialize_visit], [perform_message_passing],
      [aggregate_messages_into_leaves_likelihood],
      [posterior_predictive_density], and the message passing likelihood of
      [forward]);
    - [scvi/model/base/_demixin.py]: the index bookkeeping of [DEMixin]
      ([get_population_expression], [filter_cells]) and the normalisation of
      the importance weights in [_inference_loop].

    Numbers.  Python floats and double tensors are read as real numbers
    ([R]); integer quantities ([len], counts, indices) stay in [nat] or [Z].
    Division is the total division of [R]; Python raises
    [ZeroDivisionError] on a zero float divisor, which does not arise from
    messages set by [initialize_messages] (every [nu] is then [>= 0]). *)

From Stdlib Require Import String.
From Stdlib Require Import Reals Lra Lia Bool Arith ZArith List.
Import ListNotations.

Open Scope R_scope.

(** ** Outcomes of a call *)

Inductive exn : Type :=
| NotImplementedError
| TreeError
| IndexError
| ValueError
| ZeroDivisionError
| TypeError.

(** [OutOfFuel] is not a Python outcome: it marks a model run whose
    recursion budget was too small. *)
Inductive result (A : Type) : Type :=
| Ok (a : A)
| Raise (e : exn)
| OutOfFuel.

Arguments Ok {A} a.
Arguments Raise {A} e.
Arguments OutOfFuel {A}.

Definition bind {A B : Type} (r : result A) (k : A -> result B) : result B :=
  match r with
  | Ok a => k a
  | Raise e => Raise e
  | OutOfFuel => OutOfFuel
  end.

Declare Scope result_scope.
Delimit Scope result_scope with result.
Notation "x <- r ;; k" := (bind r (fun x => k))
  (at level 61, r at next level, right associativity) : result_scope.
Notation "' p <- r ;; k" := (bind r (fun p => k))
  (at level 61, p pattern, r at next level, right associativity) : result_scope.

(** ** Lists updated by index *)

Fixpoint upd {A : Type} (i : nat) (v : A) (l : list A) : list A :=
  match l, i with
  | [], _ => []
  | _ :: t, O => v :: t
  | x :: t, S i' => x :: upd i' v t
  end.

(** ** Tensors of shape [(d,)] as lists of reals

    The element-wise operations follow torch on operands of one length, the
    only case that occurs once every [mu] has the latent dimension. *)

Definition vec := list R.

Definition zeros (d : nat) : vec := repeat 0 d.

Fixpoint vadd (a b : vec) : vec :=
  match a, b with
  | x :: a', y :: b' => (x + y) :: vadd a' b'
  | _, _ => []
  end.

Definition vscale (a : vec) (c : R) : vec := map (fun x => x * c) a.

Definition vdiv (a : vec) (c : R) : vec := map (fun x => x / c) a.

Definition sum_R (l : list R) : R := fold_right Rplus 0 l.

(** [torch.sum((a - b) ** 2).item()] *)
Fixpoint sum_sq_diff (a b : vec) : R :=
  match a, b with
  | x :: a', y :: b' => (x - y) * (x - y) + sum_sq_diff a' b'
  | _, _ => 0
  end.

Module TreeVAE.

(** ** Data model

    The ete3 tree is an arena: a node is its position in
    [self.tree.traverse()] (level order, the prior root first), [children]
    and [up] hold positions.  The features that the code attaches to the
    node objects ([visited], [nu], [mu], [log_z]) are kept beside the
    arena, one record per node.  [mu] is a tensor object: the record holds
    its identity and [tensors] its current contents, so that the rebinding
    [root_node.mu = k.mu] shares one tensor between two nodes and the
    in-place [+=] and [*=] act on every node that holds it. *)

Record TreeNode : Type := {
  name : string;
  children : list nat;
  up : option nat
}.

Record features : Type := {
  visited : bool;
  nu : R;
  mu : nat;
  log_z : R
}.

Record annot : Type := {
  feats : list features;
  tensors : list vec
}.

(** The fields of [self] that message passing reads. *)
Record model : Type := {
  tree : list TreeNode;
  root : string;
  prior_root : string;
  barcodes : list string;
  n_latent : nat
}.

Definition no_node : TreeNode := {| name := ""; children := []; up := None |}.

Definition no_features : features :=
  {| visited := false; nu := 0; mu := 0%nat; log_z := 0 |}.

Definition node_at (self : model) (i : nat) : TreeNode := nth i (tree self) no_node.

Definition feat (st : annot) (i : nat) : features := nth i (feats st) no_features.

Definition tensor (st : annot) (r : nat) : vec := nth r (tensors st) [].

Definition upd_feat (i : nat) (g : features -> features) (st : annot) : annot :=
  {| feats := upd i (g (feat st i)) (feats st); tensors := tensors st |}.

Definition set_visited (b : bool) (f : features) : features :=
  {| visited := b; nu := nu f; mu := mu f; log_z := log_z f |}.

Definition set_nu (x : R) (f : features) : features :=
  {| visited := visited f; nu := x; mu := mu f; log_z := log_z f |}.

Definition set_mu (r : nat) (f : features) : features :=
  {| visited := visited f; nu := nu f; mu := r; log_z := log_z f |}.

Definition set_log_z (x : R) (f : features) : features :=
  {| visited := visited f; nu := nu f; mu := mu f; log_z := x |}.

Definition set_tensor (r : nat) (v : vec) (st : annot) : annot :=
  {| feats := feats st; tensors := upd r v (tensors st) |}.

(** [tree & value]: the first node of the traversal that bears the name,
    [TreeError] when there is none. *)
Fixpoint search_from (i : nat) (l : list TreeNode) (value : string) : option nat :=
  match l with
  | [] => None
  | n :: l' => if String.eqb (name n) value then Some i
               else search_from (S i) l' value
  end.

Definition search (self : model) (value : string) : result nat :=
  match search_from 0 (tree self) value with
  | Some i => Ok i
  | None => Raise TreeError
  end.

(** ** [initialize_visit] *)

Definition initialize_visit (self : model) (st : annot) : annot :=
  {| feats := map (fun i => set_visited false (feat st i))
                  (seq 0 (length (tree self)));
     tensors := tensors st |}.

(** ** [initialize_messages]

    [dic_mu] is an association list, the latest binding of a key first.
    [dic_nu] and [dic_log_z] bind the same keys, all to 0.  The tensors live
    in a fresh store: the rows of [evidence] (row [i] at identity [i]; the
    rows are views, and [.type(torch.DoubleTensor)] returns a double tensor
    itself), then the zero vector bound to the prior root, then one zero
    vector per node for the [else] branch.  Every node's [mu] is rebound, so
    no tensor of the earlier store stays reachable from the tree. *)

Definition dict := list (string * nat).

Fixpoint dict_get (dic : dict) (key : string) : option nat :=
  match dic with
  | [] => None
  | (k, v) :: dic' => if String.eqb k key then Some v else dict_get dic' key
  end.

Fixpoint fill_dic (dic : dict) (i : nat) (rows : list vec) (barcodes : list string)
  : result dict :=
  match rows with
  | [] => Ok dic
  | _ :: rows' =>
      match barcodes with
      | [] => Raise IndexError
      | b :: barcodes' => fill_dic ((b, i) :: dic) (S i) rows' barcodes'
      end
  end.

Definition initialize_messages (self : model) (evidence : list vec)
    (barcodes : list string) (d : nat) (st : annot) : result annot :=
  (dic_mu <- fill_dic [] 0 evidence barcodes ;;
   let m := length evidence in
   let dic_mu := (prior_root self, m) :: dic_mu in
   let init (i : nat) : features :=
     match dict_get dic_mu (name (node_at self i)) with
     | Some r => {| visited := visited (feat st i); nu := 0; mu := r; log_z := 0 |}
     | None => {| visited := visited (feat st i); nu := 0;
                  mu := (S m + i)%nat; log_z := 0 |}
     end in
   Ok {| feats := map init (seq 0 (length (tree self)));
         tensors := evidence ++ zeros d :: map (fun _ => zeros d) (tree self) |})%result.

(** ** [perform_message_passing] *)

Definition enumerate {A : Type} (L : list A) : list (nat * A) :=
  combine (seq 0 (length L)) L.

(** The local function [product_without]. *)
Definition product_without (L : list R) (exclude : list nat) : R :=
  fold_left
    (fun prod ix => if existsb (Nat.eqb (fst ix)) exclude then prod
                    else prod * snd ix)
    (enumerate L) 1.

(** Lines 190-197, one iteration of [for i in range(n)]. *)
Definition merge_step (root_node : nat) (incoming_messages : list nat)
    (acc : annot * list R * list vec) (i : nat) : annot * list R * list vec :=
  let '(st, children_nu, children_mu) := acc in
  let k := nth i incoming_messages 0%nat in
  let children_nu := upd i (nu (feat st k) + 1) children_nu in
  let st := upd_feat root_node
              (fun f => set_nu (nu f + 1 / nth i children_nu 0) f) st in
  let children_mu :=
    upd i (vdiv (tensor st (mu (feat st k))) (nth i children_nu 0)) children_mu in
  let r := mu (feat st root_node) in
  let st := set_tensor r (vadd (tensor st r) (nth i children_mu [])) st in
  (st, children_nu, children_mu).

(** Lines 219-223: [t]. *)
Definition find_t (children_nu : list R) (n : nat) : R :=
  fold_left (fun t excluded_idx => t + product_without children_nu [excluded_idx])
            (seq 0 n) 0.

(** Lines 233-237, one iteration of [for h in range(n)]; the accumulator
    holds the local variables [h] and [prod_2]. *)
Definition Z3_inner (children_nu : list R) (j : nat) (acc : nat * R) (h : nat)
  : nat * R :=
  if (h =? j)%nat then (h, snd acc)
  else (h, product_without children_nu [j; h]).

(** Lines 232-240, one iteration of [for j in range(n)]: the inner loop,
    then the three statements that follow it at the indentation of the
    outer loop.  [sq_dist h j] stands for
    [torch.sum((incoming_messages[h].mu - incoming_messages[j].mu) ** 2).item()]. *)
Definition Z3_outer (sq_dist : nat -> nat -> R) (children_nu : list R) (n : nat)
    (acc : nat * R * R) (j : nat) : nat * R * R :=
  let '(h, prod_2, Z_3) := acc in
  let '(h, prod_2) := fold_left (Z3_inner children_nu j) (seq 0 n) (h, prod_2) in
  (h, prod_2, Z_3 + prod_2 * sq_dist h j).

(** Lines 228-240.  [h] and [prod_2] are unbound before the first inner
    iteration; the 0 they start from is never read, since [n >= 2] makes
    every inner loop assign both. *)
Definition Z3_loop (sq_dist : nat -> nat -> R) (children_nu : list R) (n : nat) : R :=
  snd (fold_left (Z3_outer sq_dist children_nu n) (seq 0 n) (0%nat, 0, 0)).

(** The squared distance between the [mu] of two incoming messages, read
    from the store. *)
Definition mu_sq_dist (st : annot) (incoming_messages : list nat) (h j : nat) : R :=
  let k := nth h incoming_messages 0%nat in
  let l := nth j incoming_messages 0%nat in
  sum_sq_diff (tensor st (mu (feat st k))) (tensor st (mu (feat st l))).

(** Lines 183-244, the branch [n >= 2]. *)
Definition merge_messages (root_node : nat) (d : nat)
    (incoming_messages : list nat) (st : annot) : annot :=
  let n := length incoming_messages in
  let '(st, children_nu, children_mu) :=
    fold_left (merge_step root_node incoming_messages) (seq 0 n)
              (st, repeat 0 n, repeat [] n) in
  let st := upd_feat root_node (fun f => set_nu (1 / nu f) f) st in
  let r := mu (feat st root_node) in
  let st := set_tensor r (vscale (tensor st r) (nu (feat st root_node))) st in
  let t := find_t children_nu n in
  let Z_1 := -0.5 * (INR n - 1) * INR d * ln (2 * PI) in
  let Z_2 := -0.5 * INR d * ln t in
  let Z_3 := Z3_loop (mu_sq_dist st incoming_messages) children_nu n in
  let Z_3 := Z_3 * (-0.5 / t) in
  upd_feat root_node (set_log_z (Z_1 + Z_2 + Z_3)) st.

(** Lines 170-248: the classification of [n = len(incoming_messages)]. *)
Definition combine_messages (root_node : nat) (d : nat)
    (incoming_messages : list nat) (st : annot) : result annot :=
  let n := length incoming_messages in
  if (n =? 0)%nat then Ok st
  else if (n =? 1)%nat then
    let k := nth 0 incoming_messages 0%nat in
    let st := upd_feat root_node (set_nu (nu (feat st k) + 1)) st in
    let st := upd_feat root_node (set_mu (mu (feat st k))) st in
    Ok (upd_feat root_node (set_log_z 0) st)
  else if (2 <=? n)%nat then Ok (merge_messages root_node d incoming_messages st)
  else Raise NotImplementedError.

(** Lines 163-168: the loop over [incident_nodes]; [visit] is the recursive
    call. *)
Fixpoint collect_messages (visit : nat -> annot -> result annot)
    (prior_node : nat) (include_prior : bool) (incident_nodes : list nat)
    (st : annot) (incoming_messages : list nat) : result (annot * list nat) :=
  match incident_nodes with
  | [] => Ok (st, incoming_messages)
  | node :: rest =>
      if negb (visited (feat st node))
         && (negb (node =? prior_node)%nat
             || ((node =? prior_node)%nat && include_prior))
      then
        (st' <- visit node st ;;
         collect_messages visit prior_node include_prior rest st'
                          (incoming_messages ++ [node]))%result
      else collect_messages visit prior_node include_prior rest st
                            incoming_messages
  end.

Definition incident (self : model) (root_node : nat) : list nat :=
  children (node_at self root_node)
  ++ match up (node_at self root_node) with
     | None => []
     | Some p => [p]
     end.

(** The recursion of the source is bounded by the number of unvisited
    nodes; [fuel] bounds its depth in the model. *)
Fixpoint perform_message_passing (fuel : nat) (self : model) (root_node : nat)
    (d : nat) (include_prior : bool) (st : annot) : result annot :=
  match fuel with
  | O => OutOfFuel
  | S fuel' =>
      (prior_node <- search self (prior_root self) ;;
       let st := upd_feat root_node (set_visited true) st in
       ' (st, incoming_messages) <-
         collect_messages
           (fun node st => perform_message_passing fuel' self node d include_prior st)
           prior_node include_prior (incident self root_node) st [] ;;
       combine_messages root_node d incoming_messages st)%result
  end.

(** A budget that always suffices: one call per node. *)
Definition budget (self : model) : nat := S (length (tree self)).

(** ** [forward], lines 375-382: the pass that training runs *)

Definition forward_messages (self : model) (z : list vec) (d : nat) (st : annot)
  : result annot :=
  (let st := initialize_visit self st in
   st <- initialize_messages self z (barcodes self) (n_latent self) st ;;
   r <- search self (root self) ;;
   perform_message_passing (budget self) self r d false st)%result.

(** ** [posterior_predictive_density] *)

Definition posterior_predictive_density (self : model) (query_node : string)
    (evidence : option (list vec)) (st : annot) : result ((vec * R) * annot) :=
  (root_node <- search self (root self) ;;
   let st := initialize_visit self st in
   st <- match evidence with
         | Some e => initialize_messages self e (barcodes self) (n_latent self) st
         | None => Ok st
         end ;;
   q <- search self query_node ;;
   let d := length (tensor st (mu (feat st root_node))) in
   st <- perform_message_passing (budget self) self q d true st ;;
   Ok ((tensor st (mu (feat st q)), nu (feat st q)), st))%result.

(** ** Frame lemmas for the feature store *)

(** [modifies x st st']: going from [st] to [st'] wrote only to the
    features of node [x], other than [visited], and to the contents of the
    tensor that [x] held as [mu]. *)
Definition modifies (x : nat) (st st' : annot) : Prop :=
  length (feats st') = length (feats st)
  /\ (forall j, j <> x -> feat st' j = feat st j)
  /\ visited (feat st' x) = visited (feat st x)
  /\ (forall r, r <> mu (feat st x) -> tensor st' r = tensor st r).

(** The same, and [x] still holds the same tensor. *)
Definition modifies_in_place (x : nat) (st st' : annot) : Prop :=
  modifies x st st' /\ mu (feat st' x) = mu (feat st x).

(** ** Well-formed trees

    [self.tree] is [inf_tree], whose own name is [self.prior_root], so the
    search for the prior root stops at the first node of the traversal.
    Parents come before their children in the traversal, and the prior root
    is the only node without a parent. *)

Record wf_model (self : model) : Prop := {
  wf_prior : search_from 0 (tree self) (prior_root self) = Some 0%nat;
  wf_children : forall i c,
    In c (children (node_at self i)) -> (c < length (tree self))%nat;
  wf_up : forall i p, up (node_at self i) = Some p -> (p < i)%nat;
  wf_top : forall i,
    (i < length (tree self))%nat -> up (node_at self i) = None -> i = 0%nat
}.

Definition size (self : model) : nat := length (tree self).

Definition vis (st : annot) (i : nat) : bool := visited (feat st i).

Definition mark (i : nat) (st : annot) : annot := upd_feat i (set_visited true) st.

Definition not_visited (f : features) : bool := negb (visited f).

Definition unvisited (st : annot) : nat :=
  length (filter not_visited (feats st)).

(** ** The traversal *)

(** The guard of line 164. *)
Definition admitted (prior_node : nat) (include_prior : bool) (st : annot)
    (node : nat) : bool :=
  negb (visited (feat st node))
  && (negb (node =? prior_node)%nat || ((node =? prior_node)%nat && include_prior)).

(** Flags are only ever raised, and the store keeps its length. *)
Definition grows (st st' : annot) : Prop :=
  length (feats st') = length (feats st)
  /\ (forall i, vis st i = true -> vis st' i = true).

(** *** The prior root under [include_prior = False] *)

(** No node other than [p] holds the [mu] tensor of [p]. *)
Definition unshared (p : nat) (st : annot) : Prop :=
  forall i, (i < length (feats st))%nat -> i <> p ->
            mu (feat st i) <> mu (feat st p).

(** The features of [p] and the contents of its [mu] are those of [st]. *)
Definition kept (p : nat) (st st' : annot) : Prop :=
  feat st' p = feat st p
  /\ tensor st' (mu (feat st p)) = tensor st (mu (feat st p)).

Definition spares (self : model) (p : nat) (st st' : annot) : Prop :=
  length (feats st) = size self ->
  length (feats st') = size self
  /\ (unshared p st -> kept p st st' /\ unshared p st').

(** *** The prior root under [include_prior = True] *)

(** Every visited node outside [stack] has a visited parent. *)
Definition closed (self : model) (stack : list nat) (st : annot) : Prop :=
  forall x, (x < size self)%nat -> vis st x = true ->
    In x stack
    \/ match up (node_at self x) with
       | None => True
       | Some q => vis st q = true
       end.

Definition keeps_closed (self : model) (stack : list nat) (st st' : annot) : Prop :=
  length (feats st) = size self ->
  length (feats st') = size self /\ (closed self stack st -> closed self stack st').

(** ** Reference values *)

(** The log-partition value of the product of two isotropic Gaussians in
    dimension [d] with variances [s1], [s2] and means [mu1], [mu2]:
    the log-density of [N(mu2, (s1 + s2) I)] at [mu1]. *)
Definition two_gaussian_log_partition (d : nat) (s1 s2 : R) (mu1 mu2 : vec) : R :=
  - (INR d / 2) * ln (2 * PI * (s1 + s2)) - sum_sq_diff mu1 mu2 / (2 * (s1 + s2)).

(** [log_z] as the specification words it: [Z1 + Z2 + Z3] with [t] the sum
    of the leave-one-out products and [Z3] summed over all ordered pairs
    [(j, h)], [j <> h]. *)
Definition log_z_claimed (d : nat) (children_nu : list R) (mus : list vec) : R :=
  let n := length children_nu in
  let t := sum_R (map (fun k => product_without children_nu [k]) (seq 0 n)) in
  let Z_1 := -0.5 * (INR n - 1) * INR d * ln (2 * PI) in
  let Z_2 := -0.5 * INR d * ln t in
  let pair (j h : nat) : R :=
    if (h =? j)%nat then 0
    else product_without children_nu [j; h]
         * sum_sq_diff (nth j mus []) (nth h mus []) in
  let Z_3 := -0.5 / t
             * sum_R (map (fun j => sum_R (map (pair j) (seq 0 n))) (seq 0 n)) in
  Z_1 + Z_2 + Z_3.

(** The outcome without the final store. *)
Definition belief {A B : Type} (r : result (A * B)) : result A :=
  match r with
  | Ok (b, _) => Ok b
  | Raise e => Raise e
  | OutOfFuel => OutOfFuel
  end.

(** ** Small trees *)

(** [prior_root -> R -> (A, B)] *)
Definition cherry : model :=
  {| tree := [ {| name := "prior_root"; children := [1%nat]; up := None |};
               {| name := "R"; children := [2%nat; 3%nat]; up := Some 0%nat |};
               {| name := "A"; children := []; up := Some 1%nat |};
               {| name := "B"; children := []; up := Some 1%nat |} ];
     root := "R"; prior_root := "prior_root";
     barcodes := ["A"; "B"]%string; n_latent := 2 |}.

(** [prior_root -> R -> (A, B, C)] *)
Definition star : model :=
  {| tree := [ {| name := "prior_root"; children := [1%nat]; up := None |};
               {| name := "R"; children := [2%nat; 3%nat; 4%nat]; up := Some 0%nat |};
               {| name := "A"; children := []; up := Some 1%nat |};
               {| name := "B"; children := []; up := Some 1%nat |};
               {| name := "C"; children := []; up := Some 1%nat |} ];
     root := "R"; prior_root := "prior_root";
     barcodes := ["A"; "B"; "C"]%string; n_latent := 1 |}.

(** A store of [n] nodes before any initialisation. *)
Definition blank (n : nat) : annot :=
  {| feats := repeat no_features n; tensors := [] |}.

(** The cherry right after [initialize_visit] and [initialize_messages] on
    the evidence [A = (0, 0)], [B = (1, 1)]. *)
Definition cherry_fresh : annot :=
  {| feats := [ {| visited := false; nu := 0; mu := 2%nat; log_z := 0 |};
                {| visited := false; nu := 0; mu := 4%nat; log_z := 0 |};
                {| visited := false; nu := 0; mu := 0%nat; log_z := 0 |};
                {| visited := false; nu := 0; mu := 1%nat; log_z := 0 |} ];
     tensors := [[0; 0]; [1; 1]; [0; 0]; [0; 0]; [0; 0]; [0; 0]; [0; 0]] |}.

(** The cherry after the pass of [forward] on the same evidence. *)
Definition cherry_used : annot :=
  match forward_messages cherry [[0; 0]; [1; 1]] 2 (blank 4) with
  | Ok st => st
  | _ => blank 4
  end.

(** [prior_root -> R -> D -> E -> (x, y)] *)
Definition chain : model :=
  {| tree := [ {| name := "prior_root"; children := [1%nat]; up := None |};
               {| name := "R"; children := [2%nat]; up := Some 0%nat |};
               {| name := "D"; children := [3%nat]; up := Some 1%nat |};
               {| name := "E"; children := [4%nat; 5%nat]; up := Some 2%nat |};
               {| name := "x"; children := []; up := Some 3%nat |};
               {| name := "y"; children := []; up := Some 3%nat |} ];
     root := "R"; prior_root := "prior_root";
     barcodes := ["x"; "y"]%string; n_latent := 1 |}.

(** The chain after [posterior_predictive_density] for [x] on the evidence
    [x = 1], [y = 1], with the flags reset again.  [R] and [D] each had one
    incoming message in that pass, so [R.mu = prior_root.mu] and
    [D.mu = R.mu] made both hold the tensor of the prior root. *)
Definition chain_shared : annot :=
  match posterior_predictive_density chain "x" (Some [[1]; [1]]) (blank 6) with
  | Ok (_, st) => initialize_visit chain st
  | _ => blank 6
  end.

(** [prior_root -> R -> (P -> A, Q -> B)] *)
Definition long_cherry : model :=
  {| tree := [ {| name := "prior_root"; children := [1%nat]; up := None |};
               {| name := "R"; children := [2%nat; 3%nat]; up := Some 0%nat |};
               {| name := "P"; children := [4%nat]; up := Some 1%nat |};
               {| name := "Q"; children := [5%nat]; up := Some 1%nat |};
               {| name := "A"; children := []; up := Some 2%nat |};
               {| name := "B"; children := []; up := Some 3%nat |} ];
     root := "R"; prior_root := "prior_root";
     barcodes := ["A"; "B"]%string; n_latent := 2 |}.

(** The long cherry right after [initialize_visit] and
    [initialize_messages] on the evidence [A = (0, 0)], [B = (1, 1)]. *)
Definition long_cherry_fresh : annot :=
  {| feats := [ {| visited := false; nu := 0; mu := 2%nat; log_z := 0 |};
                {| visited := false; nu := 0; mu := 4%nat; log_z := 0 |};
                {| visited := false; nu := 0; mu := 5%nat; log_z := 0 |};
                {| visited := false; nu := 0; mu := 6%nat; log_z := 0 |};
                {| visited := false; nu := 0; mu := 0%nat; log_z := 0 |};
                {| visited := false; nu := 0; mu := 1%nat; log_z := 0 |} ];
     tensors := [[0; 0]; [1; 1]; [0; 0];
                 [0; 0]; [0; 0]; [0; 0]; [0; 0]; [0; 0]; [0; 0]] |}.

(** [prior_root -> R -> D -> E -> y] *)
Definition path : model :=
  {| tree := [ {| name := "prior_root"; children := [1%nat]; up := None |};
               {| name := "R"; children := [2%nat]; up := Some 0%nat |};
               {| name := "D"; children := [3%nat]; up := Some 1%nat |};
               {| name := "E"; children := [4%nat]; up := Some 2%nat |};
               {| name := "y"; children := []; up := Some 3%nat |} ];
     root := "R"; prior_root := "prior_root";
     barcodes := ["y"]%string; n_latent := 2 |}.

(** The path after [posterior_predictive_density] for [E] on the evidence
    [y = (1, 1)].  [R] and [D] each had one incoming message in that pass,
    so [R.mu = prior_root.mu] and [D.mu = R.mu] made both hold the tensor
    of the prior root. *)
Definition path_shared : annot :=
  match posterior_predictive_density path "E" (Some [[1; 1]]) (blank 5) with
  | Ok (_, st) => st
  | _ => blank 5
  end.

(** *** The features of the prior root under [include_prior = False] *)

Definition same_features (p : nat) (st st' : annot) : Prop :=
  feat st' p = feat st p.

(** ** The claims on message passing *)

Ltac run := cbv -[ln PI Rplus Rmult Rminus Rdiv Rinv Ropp IZR INR].

Ltac ln_sum v :=
  match goal with
  | |- context [ln (?a + ?b)] => replace (a + b) with v by lra
  end.

Ltac inr_numerals :=
  repeat match goal with
         | |- context [INR ?n] =>
             let x := eval cbv in (Z.of_nat n) in
             replace (INR n) with (IZR x) by (simpl; lra)
         end.

(** Two messages of variances 1 and 3 for node 0, means [(0, 0)] and
    [(2, 2)]. *)
Definition uneven_store : annot :=
  {| feats := [ {| visited := true; nu := 0; mu := 0%nat; log_z := 0 |};
                {| visited := true; nu := 1; mu := 1%nat; log_z := 0 |};
                {| visited := true; nu := 3; mu := 2%nat; log_z := 0 |} ];
     tensors := [[0; 0]; [0; 0]; [2; 2]] |}.

(** The star right after [initialize_visit] and [initialize_messages] on
    the evidence [A = 0], [B = 1], [C = 3]. *)
Definition star_fresh : annot :=
  {| feats := [ {| visited := false; nu := 0; mu := 3%nat; log_z := 0 |};
                {| visited := false; nu := 0; mu := 5%nat; log_z := 0 |};
                {| visited := false; nu := 0; mu := 0%nat; log_z := 0 |};
                {| visited := false; nu := 0; mu := 1%nat; log_z := 0 |};
                {| visited := false; nu := 0; mu := 2%nat; log_z := 0 |} ];
     tensors := [[0]; [1]; [3]; [0]; [0]; [0]; [0]; [0]; [0]] |}.

(** ** The belief that the branch [n >= 2] leaves *)

(** The precision [1 / (nu + 1)] and the mean over [nu + 1] that the message
    of [k] adds to the node in the loop of lines 190-197. *)
Definition message_precision (st : annot) (k : nat) : R := 1 / (nu (feat st k) + 1).

Definition message_mean (st : annot) (k : nat) : vec :=
  vdiv (tensor st (mu (feat st k))) (nu (feat st k) + 1).

(** ** Variances stay non-negative *)

(** Every [nu] on the tree is a variance: it is not negative. *)
Definition variances (st : annot) : Prop := forall i, 0 <= nu (feat st i).

(** ** The nodes that a pass visits *)

(** [up] and [children] agree: a node is among the children of its parent. *)
Definition wf_links (self : model) : Prop :=
  forall x q, (x < size self)%nat -> up (node_at self x) = Some q ->
              In x (children (node_at self q)).

(** Every visited node outside [stack] has all its neighbours visited, but
    for the prior root when it is left out. *)
Definition saturated (self : model) (p : nat) (include_prior : bool)
    (stack : list nat) (st : annot) : Prop :=
  forall x, (x < size self)%nat -> vis st x = true ->
    In x stack
    \/ forall y, In y (incident self x) ->
                 vis st y = true \/ (include_prior = false /\ y = p).

Definition keeps_saturated (self : model) (p : nat) (include_prior : bool)
    (stack : list nat) (st st' : annot) : Prop :=
  length (feats st) = size self ->
  length (feats st') = size self
  /\ (saturated self p include_prior stack st ->
      saturated self p include_prior stack st').

(** ** What [initialize_messages] assigns *)

(** [torch.sum(a ** 2).item()] *)
Definition sum_sq (a : vec) : R := sum_R (map (fun x => x * x) a).

(** ** [aggregate_messages_into_leaves_likelihood] *)

Definition aggregate_messages_into_leaves_likelihood (self : model) (d : nat)
    (add_prior : bool) (st : annot) : result R :=
  (root_node <- search self (root self) ;;
   let res := fold_left (fun res i => res + log_z (feat st i))
                        (seq 0 (length (tree self))) 0 in
   if add_prior then
     let nu_inc := 1 + nu (feat st root_node) in
     Ok (res + (-0.5 * sum_sq (tensor st (mu (feat st root_node))) / nu_inc
                - INR d * 0.5 * ln (2 * PI * nu_inc)))
   else Ok res)%result.

(** [forward], lines 375-385: the message passing likelihood [mp_lik] of the
    latent codes [z], with [d = z.shape[1]]. *)
Definition forward_mp_lik (self : model) (z : list vec) (d : nat) (st : annot)
  : result (R * annot) :=
  (st <- forward_messages self z d st ;;
   mp_lik <- aggregate_messages_into_leaves_likelihood self d true st ;;
   Ok (mp_lik, st))%result.

(** The log-density of two leaves [a], [b] in dimension [d] that hang by unit
    edges from a node that hangs by a unit edge from the origin: a centred
    Gaussian with, in every coordinate, variances 2 and covariance 1. *)
Definition cherry_log_marginal (d : nat) (a b : vec) : R :=
  - INR d * ln (2 * PI) - INR d / 2 * ln 3
  - (sum_sq a - sum_R (map (fun p => fst p * snd p) (combine a b)) + sum_sq b) / 3.

(** ** The evidence is not overwritten *)

(** The tensors below [m] in the store are the rows of the evidence. *)
Definition holds_evidence (evidence : list vec) (st : annot) : Prop :=
  forall i, (i < length evidence)%nat -> tensor st i = nth i evidence [].

(** The nodes of [stack] are visited, and a node with two neighbours or
    more that is unvisited or in [stack] (its messages are still to be
    merged) holds none of the first [m] tensors. *)
Definition junctions_clear (self : model) (m : nat) (stack : list nat)
    (st : annot) : Prop :=
  (forall x, In x stack -> vis st x = true)
  /\ forall x, (x < size self)%nat -> (2 <= length (incident self x))%nat ->
               vis st x = false \/ In x stack -> (m <= mu (feat st x))%nat.

Definition keeps_evidence (self : model) (evidence : list vec) (stack : list nat)
    (st st' : annot) : Prop :=
  length (feats st) = size self ->
  junctions_clear self (length evidence) stack st -> holds_evidence evidence st ->
  length (feats st') = size self
  /\ junctions_clear self (length evidence) stack st'
  /\ holds_evidence evidence st'.

(** ** The belief at a leaf leaves out the evidence at that leaf *)

(** The outcome with tensor [i] of the final store replaced by [v]. *)
Definition with_tensor (i : nat) (v : vec) (r : result annot) : result annot :=
  match r with
  | Ok st => Ok (set_tensor i v st)
  | Raise e => Raise e
  | OutOfFuel => OutOfFuel
  end.

(** Node [q] is visited, the store has [n] feature records, and no node
    below [n] other than [q] holds tensor [i]. *)
Definition only_holder (q i n : nat) (st : annot) : Prop :=
  vis st q = true /\ length (feats st) = n
  /\ forall y, (y < n)%nat -> y <> q -> mu (feat st y) <> i.

End TreeVAE.

Module DEMixin.

(** ** Effects

    [get_population_expression] and [filter_cells] call collaborators that
    are not part of this unit (the trained module, scikit-learn, numpy's
    global random generator, the logger).  A computation takes the state of
    the random generator and returns its outcome, the new generator state
    and the calls it made, in order. *)

Inductive event : Type :=
| LatentRepresentation (indices : list Z)
| FitPredict
| Warning
| Seed (s : Z)
| Shuffle (indices : list Z)
| InferenceLoop (chunk : list Z) (n_samples : Z)
| Choice (population : nat) (size : Z).

Definition rng : Type := Z.

Definition M (A : Type) : Type := rng -> result A * rng * list event.

Definition ret {A : Type} (a : A) : M A := fun g => (Ok a, g, []).

Definition raise {A : Type} (e : exn) : M A := fun g => (Raise e, g, []).

Definition emit (e : event) : M unit := fun g => (Ok tt, g, [e]).

Definition lift {A : Type} (r : result A) : M A := fun g => (r, g, []).

Definition mbind {A B : Type} (m : M A) (k : A -> M B) : M B :=
  fun g =>
    match m g with
    | (Ok a, g1, t1) => let '(r, g2, t2) := k a g1 in (r, g2, t1 ++ t2)
    | (Raise e, g1, t1) => (Raise e, g1, t1)
    | (OutOfFuel, g1, t1) => (OutOfFuel, g1, t1)
    end.

Declare Scope effect_scope.
Delimit Scope effect_scope with effect.
Notation "x <- m ;; k" := (mbind m (fun x => k))
  (at level 61, m at next level, right associativity) : effect_scope.
Notation "m ;;; k" := (mbind m (fun _ => k))
  (at level 61, right associativity) : effect_scope.

Definition outcome {A : Type} (x : result A * rng * list event) : result A :=
  fst (fst x).

Definition calls {A : Type} (x : result A * rng * list event) : list event :=
  snd x.

(** ** Data *)

(** [qz_m]: what [filter_cells] reads of it is [ndim] and [shape[0]]. *)
Record ndarray : Type := {
  ndim : nat;
  shape0 : nat;
  values : list vec
}.

(** An array of shape [(len rows, n_cols)]. *)
Record matrix : Type := {
  rows : list vec;
  n_cols : nat
}.

(** The collaborators: [adata] and the trained module ([n_vars],
    [observed_batches] for [adata[indices].obs[adata_key].values],
    [batch_code] for [_get_batch_code_from_category(adata, .)[0]],
    [get_latent_representation], [inference_loop] for
    [_inference_loop(...)["hs_weighted"].numpy()]), scikit-learn
    ([fit_predict] of [EllipticEnvelope], which may raise) and numpy's random
    generator ([shuffle], [choice]). *)
Record collaborators : Type := {
  n_vars : nat;
  observed_batches : list Z -> list Z;
  batch_code : Z -> Z;
  get_latent_representation : list Z -> ndarray;
  fit_predict : ndarray -> result (list Z);
  inference_loop : list Z -> Z -> rng -> matrix * rng;
  shuffle : rng -> list Z -> list Z * rng;
  choice : rng -> nat -> Z -> result (list nat) * rng
}.

(** Indexing by a boolean mask: [a[mask]]. *)
Definition mask_index (a : list Z) (mask : list bool) : result (list Z) :=
  if (length a =? length mask)%nat
  then Ok (map fst (filter snd (combine a mask)))
  else Raise IndexError.

Definition count_true (mask : list bool) : nat :=
  length (filter (fun b => b) mask).

Definition ones (n : nat) : list bool := repeat true n.

(** ** [filter_cells] *)

Definition filter_cells (env : collaborators) (indices : list Z) : M (list Z) :=
  (emit (LatentRepresentation indices) ;;;
   let qz_m := get_latent_representation env indices in
   if negb (ndim qz_m =? 2)%nat || negb (shape0 qz_m =? length indices)%nat
   then raise ValueError
   else
     idx_filt <-
       (emit FitPredict ;;;
        match fit_predict env qz_m with
        | Ok labels => ret (map (Z.eqb 1) labels)
        | Raise ValueError => emit Warning ;;; ret (ones (shape0 qz_m))
        | Raise e => raise e
        | OutOfFuel => lift OutOfFuel
        end) ;;
     let idx_filt :=
       if (count_true idx_filt <=? 1)%nat then ones (shape0 qz_m) else idx_filt in
     lift (mask_index indices idx_filt))%effect.

(** ** [get_population_expression] *)

(** Step 1, lines 187-199: the effective indices. *)
Definition effective_indices (env : collaborators) (indices : list Z)
    (transform_batch : option Z) : result (list Z) :=
  match transform_batch with
  | Some tb =>
      let observed := observed_batches env indices in
      let transform_batch_val := batch_code env tb in
      if negb (length indices =? length observed)%nat then Raise ValueError
      else mask_index indices (map (Z.eqb transform_batch_val) observed)
  | None => Ok indices
  end.

(** [int(np.ceil(a / b))] for integers [a], [b]; the quotient is exact below
    2^53, far above any array length. *)
Definition ceil_div (a b : Z) : result Z :=
  if (b =? 0)%Z then Raise ZeroDivisionError else Ok (- ((- a) / b))%Z.

Fixpoint take_sections {A : Type} (sizes : list nat) (l : list A) : list (list A) :=
  match sizes with
  | [] => []
  | s :: sizes' => firstn s l :: take_sections sizes' (skipn s l)
  end.

(** [np.array_split(ary, sections)]: the first [len % sections] parts have
    [len // sections + 1] elements, the others [len // sections]. *)
Definition array_split {A : Type} (ary : list A) (sections : Z)
  : result (list (list A)) :=
  if (sections <=? 0)%Z then Raise ValueError
  else
    let n := Z.to_nat sections in
    let Neach_section := (length ary / n)%nat in
    let extras := (length ary mod n)%nat in
    Ok (take_sections
          (repeat (S Neach_section) extras ++ repeat Neach_section (n - extras))
          ary).

(** The slice [l[:stop]]. *)
Definition slice_to {A : Type} (stop : option Z) (l : list A) : list A :=
  match stop with
  | None => l
  | Some m =>
      if (0 <=? m)%Z then firstn (Z.to_nat m) l
      else firstn (Z.to_nat (Z.of_nat (length l) + m)) l
  end.

(** Step 2, lines 215-221.  The count of chunks is taken before the
    shuffle, which permutes [indices_] in place. *)
Definition cell_chunks (env : collaborators) (indices_ : list Z)
    (n_cells_per_chunk : option Z) (max_chunks : option Z) : M (list (list Z)) :=
  (let n_cells := Z.of_nat (length indices_) in
   k <- match n_cells_per_chunk with
        | Some k => ret k
        | None => raise TypeError
        end ;;
   n_cell_chunks <- lift (ceil_div n_cells k) ;;
   emit (Seed 0) ;;;
   indices_ <- (fun _ => let '(l, g) := shuffle env 0%Z indices_ in
                         (Ok l, g, [Shuffle indices_])) ;;
   chunks <- lift (array_split indices_ n_cell_chunks) ;;
   ret (slice_to max_chunks chunks))%effect.

(** Lines 223-229: the number of samples per cell and overall.
    [np.concatenate] refuses an empty list of chunks. *)
Definition samples_per_cell (n_samples : Z) (n_samples_overall : option Z)
    (chunks : list (list Z)) : result (Z * Z) :=
  match chunks with
  | [] => Raise ValueError
  | _ =>
      let n_cells_used := Z.of_nat (length (concat chunks)) in
      (' (n_samples_per_cell, n_samples_overall) <-
         match n_samples_overall with
         | Some overall =>
             (c <- ceil_div overall n_cells_used ;; Ok ((1 + c)%Z, overall))%result
         | None => Ok (n_samples, (n_samples * n_cells_used)%Z)
         end ;;
       Ok (Z.min n_samples_per_cell 100, n_samples_overall))%result
  end.

(** Lines 232-246, the loop over the chunks. *)
Fixpoint inference_loops (env : collaborators) (n_samples : Z)
    (chunks : list (list Z)) : M (list matrix) :=
  match chunks with
  | [] => ret []
  | chunk :: chunks' =>
      (h <- (fun g => let '(h, g') := inference_loop env chunk n_samples g in
                      (Ok h, g', [InferenceLoop chunk n_samples])) ;;
       hs <- inference_loops env n_samples chunks' ;;
       ret (h :: hs))%effect
  end.

(** [np.concatenate(res, 0)] *)
Definition concatenate (res : list matrix) : result matrix :=
  match res with
  | [] => Raise ValueError
  | m :: _ =>
      if forallb (fun m' => (n_cols m' =? n_cols m)%nat) res
      then Ok {| rows := concat (map rows res); n_cols := n_cols m |}
      else Raise ValueError
  end.

(** Not modelled: the arguments that are only handed on to the collaborators
    ([adata], [batch_size], [marginal_n_samples_per_pass], [n_mc_samples_px],
    [normalized_expression_key], [return_numpy]). *)
Definition get_population_expression (env : collaborators) (indices : list Z)
    (n_samples : Z) (n_samples_overall : option Z) (filter_cells_flag : bool)
    (transform_batch : option Z) (n_cells_per_chunk : option Z)
    (max_chunks : option Z) : M matrix :=
  (indices_ <- lift (effective_indices env indices transform_batch) ;;
   if (length indices_ =? 0)%nat
   then ret {| rows := []; n_cols := n_vars env |}
   else
     indices_ <- (if filter_cells_flag then filter_cells env indices_
                  else ret indices_) ;;
     chunks <- cell_chunks env indices_ n_cells_per_chunk max_chunks ;;
     ns <- lift (samples_per_cell n_samples n_samples_overall chunks) ;;
     res <- inference_loops env (fst ns) chunks ;;
     res <- lift (concatenate res) ;;
     idx <- (fun g => let '(r, g') := choice env g (length (rows res)) (snd ns) in
                      (r, g', [Choice (length (rows res)) (snd ns)])) ;;
     ret {| rows := map (fun i => nth i (rows res) []) idx;
            n_cols := n_cols res |})%effect.

(** ** [_inference_loop], lines 351-360: the importance weights

    The densities come from the module; the arithmetic on them is modelled
    over the reals.  [log_pz] has one entry per sample, [log_px_zs] and
    [log_qz] one row per sample and one column per cell, [log_px] one entry
    per cell. *)

(** [torch.logsumexp] along the only axis of a vector. *)
Definition logsumexp (l : list R) : R := ln (sum_R (map exp l)).

Fixpoint map2 {A B C : Type} (f : A -> B -> C) (a : list A) (b : list B) : list C :=
  match a, b with
  | x :: a', y :: b' => f x y :: map2 f a' b'
  | _, _ => []
  end.

Definition importance_weight (log_pz : list R) (log_px_zs : list (list R))
    (log_px : list R) (log_qz : list (list R)) : list R :=
  map2 (fun pz row =>
          logsumexp (map2 (fun px_z px => pz + px_z - px - logsumexp (snd row))
                          (fst row) log_px))
       log_pz (combine log_px_zs log_qz).

Definition log_probs (importance_weight : list R) : list R :=
  map (fun w => w - logsumexp importance_weight) importance_weight.

(** [ws = log_probs.exp()] *)
Definition probs (importance_weight : list R) : list R :=
  map exp (log_probs importance_weight).

(** ** A toy set of collaborators *)

Definition toy : collaborators :=
  {| n_vars := 3;
     observed_batches := map (fun _ => 0%Z);
     batch_code := fun b => b;
     get_latent_representation :=
       fun indices => {| ndim := 2; shape0 := length indices;
                         values := map (fun _ => [0]) indices |};
     fit_predict := fun _ => Raise ValueError;
     inference_loop := fun chunk n g => ({| rows := [[0; 0; 0]]; n_cols := 3 |}, g);
     shuffle := fun g l => (rev l, g);
     choice := fun g n size => (Ok (repeat 0%nat (Z.to_nat size)), g) |}.

(** ** The calls of a computation *)

Definition is_inference (e : event) : bool :=
  match e with
  | InferenceLoop _ _ => true
  | _ => false
  end.

Ltac few_calls H :=
  cbv [calls mbind emit ret raise lift snd] in H; simpl in H;
  repeat (destruct H as [<-|H]; [reflexivity|]); try destruct H.

(** ** Importance weights *)

(** The toy collaborators with a fit that labels the first cell an outlier. *)
Definition outlier_toy : collaborators :=
  {| n_vars := n_vars toy;
     observed_batches := observed_batches toy;
     batch_code := batch_code toy;
     get_latent_representation := get_latent_representation toy;
     fit_predict := fun qz_m => Ok ((-1)%Z :: repeat 1%Z (shape0 qz_m - 1));
     inference_loop := inference_loop toy;
     shuffle := shuffle toy;
     choice := choice toy |}.

(** The toy collaborators with latent means of one dimension. *)
Definition flat_toy : collaborators :=
  {| n_vars := n_vars toy;
     observed_batches := observed_batches toy;
     batch_code := batch_code toy;
     get_latent_representation :=
       fun indices => {| ndim := 1; shape0 := length indices; values := [] |};
     fit_predict := fit_predict toy;
     inference_loop := inference_loop toy;
     shuffle := shuffle toy;
     choice := choice toy |}.

(** ** The cells that [filter_cells] keeps *)

(** The cells that the fit labels as inliers, in the order of [indices]. *)
Definition inliers (indices labels : list Z) : list Z :=
  map fst (filter (fun p => (1 =? snd p)%Z) (combine indices labels)).

(** ** The steps of [get_population_expression] *)

(** What the estimator relies on from [np.random.choice(idx, size, replace=True)]
    on a non-empty [idx]: [size] positions of [idx]. *)
Definition choice_draws (env : collaborators) : Prop :=
  forall g n size, (0 < n)%nat -> (0 <= size)%Z ->
    exists l g', choice env g n size = (Ok l, g')
                 /\ length l = Z.to_nat size
                 /\ Forall (fun i => (i < n)%nat) l.

(** What it relies on from [_inference_loop(...)["hs_weighted"]]: a
    non-empty array with one column per gene. *)
Definition inference_shape (env : collaborators) : Prop :=
  forall chunk n g,
    n_cols (fst (inference_loop env chunk n g)) = n_vars env
    /\ rows (fst (inference_loop env chunk n g)) <> [].

(** The step of line 203. *)
Definition filter_step (env : collaborators) (flag : bool) (indices_ : list Z)
  : M (list Z) :=
  if flag then filter_cells env indices_ else ret indices_.

End DEMixin.

(** ** Lists updated by index *)

Lemma upd_length {A : Type} (i : nat) (v : A) (l : list A) :
  length (upd i v l) = length l.
Proof.
  revert i; induction l as [|x t IH]; intros [|i]; simpl; auto.
Qed.

Lemma nth_upd_same {A : Type} (i : nat) (v d : A) (l : list A) :
  (i < length l)%nat -> nth i (upd i v l) d = v.
Proof.
  revert i; induction l as [|x t IH]; intros [|i] H; simpl in *;
    try lia; auto.
  apply IH; lia.
Qed.

Lemma nth_upd_other {A : Type} (i j : nat) (v d : A) (l : list A) :
  i <> j -> nth j (upd i v l) d = nth j l d.
Proof.
  revert i j; induction l as [|x t IH]; intros [|i] [|j] H; simpl;
    try congruence; auto.
Qed.

Lemma upd_out {A : Type} (i : nat) (v : A) (l : list A) :
  (length l <= i)%nat -> upd i v l = l.
Proof.
  revert i; induction l as [|x t IH]; intros [|i] H; simpl in *;
    try lia; auto.
  f_equal; apply IH; lia.
Qed.

Module TreeVAEFacts.

Import TreeVAE.

(** ** Frame lemmas for the feature store *)

Lemma feats_upd_feat_length i g st :
  length (feats (upd_feat i g st)) = length (feats st).
Proof. apply upd_length. Qed.

Lemma feat_upd_feat_same i g st :
  (i < length (feats st))%nat -> feat (upd_feat i g st) i = g (feat st i).
Proof. intros H; unfold feat, upd_feat; simpl; now apply nth_upd_same. Qed.

Lemma feat_upd_feat_other i j g st :
  i <> j -> feat (upd_feat i g st) j = feat st j.
Proof. intros H; unfold feat, upd_feat; simpl; now apply nth_upd_other. Qed.

Lemma upd_feat_out i g st :
  (length (feats st) <= i)%nat -> upd_feat i g st = st.
Proof.
  intros H; unfold upd_feat; rewrite upd_out by exact H; now destruct st.
Qed.

Lemma feat_upd_feat_proj {A : Type} (proj : features -> A) i j g st :
  (forall f, proj (g f) = proj f) ->
  proj (feat (upd_feat i g st) j) = proj (feat st j).
Proof.
  intros Hg.
  destruct (Nat.eq_dec i j) as [->|Hne].
  - destruct (Nat.lt_ge_cases j (length (feats st))) as [Hlt|Hge].
    + rewrite feat_upd_feat_same by exact Hlt; apply Hg.
    + now rewrite upd_feat_out.
  - now rewrite feat_upd_feat_other.
Qed.

Lemma tensor_upd_feat i g st r : tensor (upd_feat i g st) r = tensor st r.
Proof. reflexivity. Qed.

Lemma feat_set_tensor r v st i : feat (set_tensor r v st) i = feat st i.
Proof. reflexivity. Qed.

Lemma tensor_set_tensor_other r r' v st :
  r <> r' -> tensor (set_tensor r v st) r' = tensor st r'.
Proof. intros H; unfold tensor, set_tensor; simpl; now apply nth_upd_other. Qed.

Lemma tensor_set_tensor_same r v st :
  (r < length (tensors st))%nat -> tensor (set_tensor r v st) r = v.
Proof. intros H; unfold tensor, set_tensor; simpl; now apply nth_upd_same. Qed.

Lemma modifies_in_place_refl x st : modifies_in_place x st st.
Proof. repeat split; auto. Qed.

Lemma modifies_in_place_trans x st1 st2 st3 :
  modifies_in_place x st1 st2 -> modifies_in_place x st2 st3 ->
  modifies_in_place x st1 st3.
Proof.
  intros [(L1 & O1 & V1 & T1) M1] [(L2 & O2 & V2 & T2) M2].
  repeat split; try congruence.
  - intros j Hj; rewrite O2, O1; auto.
  - intros r Hr; rewrite T2, T1; congruence.
Qed.

Lemma modifies_upd_feat x g st :
  (forall f, visited (g f) = visited f) -> (forall f, mu (g f) = mu f) ->
  modifies_in_place x st (upd_feat x g st).
Proof.
  intros Hv Hm; repeat split.
  - apply feats_upd_feat_length.
  - intros j Hj; apply feat_upd_feat_other; congruence.
  - now apply (feat_upd_feat_proj visited).
  - now apply (feat_upd_feat_proj mu).
Qed.

Lemma modifies_set_tensor x v st :
  modifies_in_place x st (set_tensor (mu (feat st x)) v st).
Proof.
  repeat split; auto.
  intros r Hr; apply tensor_set_tensor_other; congruence.
Qed.

Lemma modifies_then_upd_feat x g st st1 :
  (forall f, visited (g f) = visited f) -> (forall f, mu (g f) = mu f) ->
  modifies_in_place x st st1 -> modifies_in_place x st (upd_feat x g st1).
Proof.
  intros Hv Hm H; eapply modifies_in_place_trans; [exact H|].
  now apply modifies_upd_feat.
Qed.

Lemma modifies_then_set_tensor x v st st1 :
  modifies_in_place x st st1 ->
  modifies_in_place x st (set_tensor (mu (feat st1 x)) v st1).
Proof.
  intros H; eapply modifies_in_place_trans; [exact H|].
  apply modifies_set_tensor.
Qed.

Lemma merge_step_modifies root_node incoming acc i :
  modifies_in_place root_node (fst (fst acc))
                    (fst (fst (merge_step root_node incoming acc i))).
Proof.
  destruct acc as [[st cnu] cmu]; unfold merge_step; simpl.
  apply modifies_then_set_tensor.
  apply modifies_then_upd_feat; try reflexivity.
  apply modifies_in_place_refl.
Qed.

Lemma merge_loop_modifies root_node incoming l acc :
  modifies_in_place root_node (fst (fst acc))
    (fst (fst (fold_left (merge_step root_node incoming) l acc))).
Proof.
  revert acc; induction l as [|i l IH]; intros acc; simpl.
  - apply modifies_in_place_refl.
  - eapply modifies_in_place_trans; [apply merge_step_modifies | apply IH].
Qed.

Lemma merge_messages_modifies root_node d incoming st :
  modifies_in_place root_node st (merge_messages root_node d incoming st).
Proof.
  unfold merge_messages.
  pose proof (merge_loop_modifies root_node incoming
                (seq 0 (length incoming))
                (st, repeat 0 (length incoming), repeat [] (length incoming))) as H.
  destruct (fold_left (merge_step root_node incoming) _ _) as [[st1 cnu] cmu].
  simpl in H.
  apply modifies_then_upd_feat; try reflexivity.
  apply modifies_then_set_tensor.
  apply modifies_then_upd_feat; try reflexivity.
  exact H.
Qed.

Lemma combine_messages_modifies root_node d incoming st st' :
  combine_messages root_node d incoming st = Ok st' ->
  modifies root_node st st'
  /\ (mu (feat st' root_node) = mu (feat st root_node)
      \/ exists k, incoming = [k] /\ mu (feat st' root_node) = mu (feat st k)).
Proof.
  unfold combine_messages.
  destruct incoming as [|k [|k' rest]]; simpl; intros H; inversion H; subst; clear H.
  - split; [apply modifies_in_place_refl | now left].
  - split.
    + repeat split.
      * now rewrite !feats_upd_feat_length.
      * intros j Hj; rewrite !feat_upd_feat_other by congruence; reflexivity.
      * rewrite (feat_upd_feat_proj visited) by reflexivity.
        rewrite (feat_upd_feat_proj visited) by reflexivity.
        now rewrite (feat_upd_feat_proj visited) by reflexivity.
    + destruct (Nat.lt_ge_cases root_node (length (feats st))) as [Hlt|Hge].
      * right; exists k; split; auto.
        rewrite (feat_upd_feat_proj mu) by reflexivity.
        rewrite feat_upd_feat_same by (now rewrite feats_upd_feat_length).
        simpl.
        destruct (Nat.eq_dec root_node k) as [->|Hne].
        -- now rewrite (feat_upd_feat_proj mu) by reflexivity.
        -- now rewrite feat_upd_feat_other.
      * left.
        repeat (rewrite upd_feat_out by (rewrite ?feats_upd_feat_length; exact Hge)).
        reflexivity.
  - destruct (merge_messages_modifies root_node d (k :: k' :: rest) st) as [Hm He].
    split; [exact Hm | now left].
Qed.

Lemma incident_in_range self i y :
  wf_model self -> (i < size self)%nat -> In y (incident self i) ->
  (y < size self)%nat.
Proof.
  intros W Hi Hy; unfold incident in Hy; apply in_app_or in Hy.
  destruct Hy as [Hy|Hy].
  - eapply wf_children; eauto.
  - destruct (up (node_at self i)) as [p|] eqn:E; simpl in Hy; [|tauto].
    destruct Hy as [<-|[]]. apply (wf_up _ W) in E. unfold size in *; lia.
Qed.

Lemma search_prior self :
  wf_model self -> search self (prior_root self) = Ok 0%nat.
Proof. intros W; unfold search; now rewrite (wf_prior _ W). Qed.

(** *** Counting the unvisited nodes *)

Lemma count_mark_le (l : list features) i :
  (length (filter not_visited (upd i (set_visited true (nth i l no_features)) l))
   <= length (filter not_visited l))%nat.
Proof.
  revert i; induction l as [|x t IH]; intros [|i]; simpl; auto.
  - destruct (not_visited x); simpl; lia.
  - specialize (IH i). destruct (not_visited x); simpl; lia.
Qed.

Lemma count_mark_lt (l : list features) i :
  (i < length l)%nat -> visited (nth i l no_features) = false ->
  (length (filter not_visited (upd i (set_visited true (nth i l no_features)) l))
   < length (filter not_visited l))%nat.
Proof.
  revert i; induction l as [|x t IH]; intros [|i] Hi Hv; simpl in *; try lia.
  - unfold not_visited at 2; rewrite Hv; simpl; lia.
  - specialize (IH i ltac:(lia) Hv). destruct (not_visited x); simpl; lia.
Qed.

Lemma count_same_flags (l l' : list features) :
  length l = length l' ->
  (forall j, visited (nth j l no_features) = visited (nth j l' no_features)) ->
  length (filter not_visited l) = length (filter not_visited l').
Proof.
  revert l'; induction l as [|x t IH]; intros [|x' t'] Hl Hv; simpl in *;
    try discriminate; auto.
  pose proof (Hv 0%nat) as H0; simpl in H0.
  assert (E : length (filter not_visited t) = length (filter not_visited t')).
  { apply IH; [lia|]. intros j; apply (Hv (S j)). }
  assert (E0 : not_visited x = not_visited x') by (unfold not_visited; now rewrite H0).
  rewrite E0; destruct (not_visited x'); simpl; lia.
Qed.

Lemma unvisited_mark_le i st : (unvisited (mark i st) <= unvisited st)%nat.
Proof. apply count_mark_le. Qed.

Lemma unvisited_mark_lt i st :
  (i < length (feats st))%nat -> vis st i = false ->
  (unvisited (mark i st) < unvisited st)%nat.
Proof. apply count_mark_lt. Qed.

Lemma vis_mark_same i st : (i < length (feats st))%nat -> vis (mark i st) i = true.
Proof. intros H; unfold vis, mark; now rewrite feat_upd_feat_same. Qed.

Lemma vis_mark_mono i j st : vis st j = true -> vis (mark i st) j = true.
Proof.
  intros H; unfold vis, mark.
  destruct (Nat.eq_dec i j) as [->|Hne].
  - destruct (Nat.lt_ge_cases j (length (feats st))).
    + now rewrite feat_upd_feat_same.
    + now rewrite upd_feat_out.
  - now rewrite feat_upd_feat_other.
Qed.

Lemma vis_modifies x st st' i : modifies x st st' -> vis st' i = vis st i.
Proof.
  intros (L & O & V & T); unfold vis.
  destruct (Nat.eq_dec i x) as [->|Hne]; [exact V | now rewrite O].
Qed.

Lemma unvisited_modifies x st st' : modifies x st st' -> unvisited st' = unvisited st.
Proof.
  intros H; apply count_same_flags; [apply H|].
  intros j; apply (vis_modifies x st st' j H).
Qed.

(** ** The traversal *)

Lemma admitted_true prior_node include_prior st node :
  admitted prior_node include_prior st node = true ->
  vis st node = false /\ (node <> prior_node \/ include_prior = true).
Proof.
  unfold admitted, vis; intros H.
  apply andb_true_iff in H; destruct H as [Hv Hp].
  apply negb_true_iff in Hv; split; [exact Hv|].
  destruct (Nat.eqb_spec node prior_node); simpl in Hp; auto.
Qed.

(** A relation that every recursive call respects is respected by the loop;
    the nodes appended to [incoming_messages] are incident nodes that passed
    the guard. *)
Lemma collect_messages_rel (Rel : annot -> annot -> Prop) (Q : nat -> Prop)
    visit prior_node include_prior :
  (forall s, Rel s s) ->
  (forall a b c, Rel a b -> Rel b c -> Rel a c) ->
  (forall node s s', Q node -> vis s node = false ->
     (node <> prior_node \/ include_prior = true) ->
     visit node s = Ok s' -> Rel s s') ->
  forall incident_nodes s inc s' inc',
    Forall Q incident_nodes ->
    collect_messages visit prior_node include_prior incident_nodes s inc
      = Ok (s', inc') ->
    Rel s s'
    /\ exists new, inc' = inc ++ new
         /\ Forall (fun y => In y incident_nodes
                             /\ (y <> prior_node \/ include_prior = true)) new.
Proof.
  intros Hrefl Htrans Hvisit.
  induction incident_nodes as [|node rest IH]; intros s inc s' inc' HQ H; simpl in H.
  - inversion H; subst; split; [apply Hrefl|].
    exists []; split; [now rewrite app_nil_r | constructor].
  - inversion HQ as [|? ? HQn HQr]; subst.
    fold (admitted prior_node include_prior s node) in H.
    destruct (admitted prior_node include_prior s node) eqn:G.
    + apply admitted_true in G; destruct G as [Gv Gp].
      destruct (visit node s) as [s1| |] eqn:E; simpl in H; try discriminate.
      destruct (IH _ _ _ _ HQr H) as (R1 & new & -> & Hnew).
      split; [eapply Htrans; [eapply Hvisit; eauto | exact R1]|].
      exists (node :: new); split; [now rewrite <- app_assoc|].
      constructor; [split; [now left | exact Gp]|].
      eapply Forall_impl; [|exact Hnew]. intros y [Hy Hp]; split; [now right | exact Hp].
    + destruct (IH _ _ _ _ HQr H) as (R1 & new & -> & Hnew).
      split; [exact R1|]. exists new; split; [reflexivity|].
      eapply Forall_impl; [|exact Hnew]. intros y [Hy Hp]; split; [now right | exact Hp].
Qed.

Lemma grows_refl st : grows st st.
Proof. split; auto. Qed.

Lemma grows_trans a b c : grows a b -> grows b c -> grows a c.
Proof. intros [L1 V1] [L2 V2]; split; [congruence | auto]. Qed.

Lemma grows_mark i st : grows st (mark i st).
Proof. split; [apply feats_upd_feat_length | intros j; apply vis_mark_mono]. Qed.

Lemma grows_modifies x st st' : modifies x st st' -> grows st st'.
Proof.
  intros H; split; [apply H|].
  intros i Hi; now rewrite (vis_modifies x st st' i H).
Qed.

Lemma perform_message_passing_grows fuel self root_node d include_prior st st' :
  perform_message_passing fuel self root_node d include_prior st = Ok st' ->
  grows st st'.
Proof.
  revert root_node st st'; induction fuel as [|fuel IH]; intros root_node st st' H;
    simpl in H; [discriminate|].
  destruct (search self (prior_root self)) as [prior_node| |]; simpl in H;
    try discriminate.
  destruct (collect_messages _ _ _ _ _ _) as [[s1 inc]| |] eqn:E; simpl in H;
    try discriminate.
  apply (collect_messages_rel grows (fun _ => True)) in E.
  - destruct E as [G _].
    apply combine_messages_modifies in H; destruct H as [H _].
    eapply grows_trans; [apply grows_mark|].
    eapply grows_trans; [exact G | eapply grows_modifies; exact H].
  - apply grows_refl.
  - apply grows_trans.
  - intros node s s' _ _ _ Hv; eapply IH; exact Hv.
  - apply Forall_forall; auto.
Qed.

(** *** Termination: one unit of fuel per unvisited node is enough *)

Lemma collect_messages_runs self visit prior_node include_prior F :
  (forall node s, (node < size self)%nat -> length (feats s) = size self ->
     vis s node = false -> (unvisited s <= F)%nat ->
     exists s', visit node s = Ok s' /\ grows s s'
                /\ (unvisited s' <= unvisited s)%nat) ->
  forall incident_nodes s inc,
    Forall (fun y => (y < size self)%nat) incident_nodes ->
    length (feats s) = size self -> (unvisited s <= F)%nat ->
    exists s' inc',
      collect_messages visit prior_node include_prior incident_nodes s inc
        = Ok (s', inc')
      /\ grows s s' /\ (unvisited s' <= unvisited s)%nat.
Proof.
  intros Hvisit.
  induction incident_nodes as [|node rest IH]; intros s inc HQ HL HU; simpl.
  - exists s, inc; repeat split; auto.
  - inversion HQ as [|? ? HQn HQr]; subst.
    fold (admitted prior_node include_prior s node).
    destruct (admitted prior_node include_prior s node) eqn:G.
    + apply admitted_true in G; destruct G as [Gv _].
      destruct (Hvisit node s HQn HL Gv HU) as (s1 & E1 & G1 & U1).
      rewrite E1; simpl.
      destruct (IH s1 (inc ++ [node]) HQr) as (s2 & inc2 & E2 & G2 & U2).
      * destruct G1 as [L1 _]; congruence.
      * lia.
      * exists s2, inc2; repeat split; auto; try lia.
        -- destruct G1, G2; congruence.
        -- intros i Hi; apply G2, G1, Hi.
    + apply IH; auto.
Qed.

Lemma combine_messages_runs root_node d incoming st :
  exists st', combine_messages root_node d incoming st = Ok st'.
Proof.
  unfold combine_messages.
  destruct incoming as [|k [|k' rest]]; simpl; eauto.
Qed.

Lemma perform_message_passing_runs self d include_prior :
  wf_model self ->
  forall fuel root_node st,
    (root_node < size self)%nat -> length (feats st) = size self ->
    (unvisited (mark root_node st) < fuel)%nat ->
    exists st',
      perform_message_passing fuel self root_node d include_prior st = Ok st'
      /\ (unvisited st' <= unvisited (mark root_node st))%nat.
Proof.
  intros W; induction fuel as [|fuel IH]; intros root_node st Hr HL HU; [lia|].
  simpl. rewrite (search_prior self W); simpl.
  destruct (collect_messages_runs self
              (fun node st => perform_message_passing fuel self node d include_prior st)
              0%nat include_prior (unvisited (mark root_node st)))
    with (incident_nodes := incident self root_node) (s := mark root_node st)
         (inc := @nil nat)
    as (s1 & inc1 & E1 & G1 & U1).
  - intros node s Hn HLs Hv HUs.
    destruct (IH node s Hn HLs) as (s' & E' & U').
    + pose proof (unvisited_mark_lt node s ltac:(lia) Hv). lia.
    + exists s'; split; [exact E'|]. split.
      * eapply perform_message_passing_grows; exact E'.
      * pose proof (unvisited_mark_le node s). lia.
  - apply Forall_forall; intros y Hy; eapply incident_in_range; eauto.
  - unfold mark; now rewrite feats_upd_feat_length.
  - lia.
  - fold (mark root_node st). rewrite E1; simpl.
    destruct (combine_messages_runs root_node d inc1 s1) as [st' E'].
    exists st'; split; [exact E'|].
    apply combine_messages_modifies in E'; destruct E' as [M _].
    rewrite (unvisited_modifies _ _ _ M). exact U1.
Qed.

Lemma unvisited_le_length st : (unvisited st <= length (feats st))%nat.
Proof. apply filter_length_le. Qed.

(** With the budget of one call per node a pass always returns. *)
Lemma perform_message_passing_budget self root_node d include_prior st :
  wf_model self -> (root_node < size self)%nat -> length (feats st) = size self ->
  exists st',
    perform_message_passing (budget self) self root_node d include_prior st = Ok st'.
Proof.
  intros W Hr HL.
  destruct (perform_message_passing_runs self d include_prior W (budget self)
              root_node st Hr HL) as (st' & E & _).
  - pose proof (unvisited_le_length (mark root_node st)) as H.
    assert (L : length (feats (mark root_node st)) = length (feats st))
      by apply feats_upd_feat_length.
    unfold budget, size in *; lia.
  - eauto.
Qed.

(** *** The fatal branch *)

Lemma combine_messages_classified root_node d incoming st :
  combine_messages root_node d incoming st <> Raise NotImplementedError.
Proof.
  unfold combine_messages.
  destruct incoming as [|k [|k' rest]]; simpl; discriminate.
Qed.

Lemma collect_messages_not_fatal visit prior_node include_prior :
  (forall node s, visit node s <> Raise NotImplementedError) ->
  forall incident_nodes s inc,
    collect_messages visit prior_node include_prior incident_nodes s inc
      <> Raise NotImplementedError.
Proof.
  intros Hvisit; induction incident_nodes as [|node rest IH]; intros s inc; simpl.
  - discriminate.
  - destruct (_ && _); [|apply IH].
    specialize (Hvisit node s).
    destruct (visit node s) as [s1|e|]; simpl; try discriminate; [apply IH|].
    intros H; apply Hvisit; congruence.
Qed.

Lemma spares_refl self p st : spares self p st st.
Proof. intros L; repeat split; auto. Qed.

Lemma spares_trans self p a b c :
  spares self p a b -> spares self p b c -> spares self p a c.
Proof.
  intros Hab Hbc La.
  destruct (Hab La) as [Lb Ub]. destruct (Hbc Lb) as [Lc Uc].
  split; [exact Lc|]. intros Ua.
  destruct (Ub Ua) as [[F1 T1] U1]. destruct (Uc U1) as [[F2 T2] U2].
  split; [|exact U2]. split; [congruence|].
  rewrite <- T1. rewrite <- F1. exact T2.
Qed.

Lemma spares_mark self p x st : x <> p -> spares self p st (mark x st).
Proof.
  intros Hx L. unfold mark. split; [now rewrite feats_upd_feat_length|].
  intros U. split; [split|].
  - now apply feat_upd_feat_other.
  - reflexivity.
  - intros i Hi Hne. rewrite feats_upd_feat_length in Hi.
    rewrite (feat_upd_feat_proj mu) by reflexivity.
    rewrite (feat_upd_feat_proj mu) by reflexivity.
    now apply U.
Qed.

Lemma spares_combine self p root_node d incoming st st' :
  root_node <> p -> (root_node < size self)%nat ->
  Forall (fun k => (k < size self)%nat /\ k <> p) incoming ->
  combine_messages root_node d incoming st = Ok st' ->
  spares self p st st'.
Proof.
  intros Hr Hs Hin H L.
  apply combine_messages_modifies in H.
  destruct H as [(Lm & Om & Vm & Tm) Hmu].
  split; [congruence|]. intros U.
  assert (Fp : feat st' p = feat st p) by (apply Om; congruence).
  split; [split; [exact Fp|]|].
  - apply Tm. intros E. apply (U root_node); [lia | exact Hr | now symmetry].
  - intros i Hi Hne. rewrite Fp. rewrite Lm in Hi.
    destruct (Nat.eq_dec i root_node) as [->|Hir].
    + destruct Hmu as [E|(k & -> & E)]; rewrite E.
      * now apply U.
      * inversion Hin as [|? ? [Hk Hkp] _]; subst. apply U; [lia | exact Hkp].
    + rewrite Om by exact Hir. now apply U.
Qed.

Lemma perform_message_passing_spares self d p :
  wf_model self -> search self (prior_root self) = Ok p ->
  forall fuel root_node st st',
    root_node <> p -> (root_node < size self)%nat ->
    perform_message_passing fuel self root_node d false st = Ok st' ->
    spares self p st st'.
Proof.
  intros W Hp; induction fuel as [|fuel IH]; intros root_node st st' Hr Hs H;
    simpl in H; [discriminate|].
  rewrite Hp in H; simpl in H.
  destruct (collect_messages _ _ _ _ _ _) as [[s1 inc]| |] eqn:E; simpl in H;
    try discriminate.
  apply (collect_messages_rel (spares self p) (fun y => (y < size self)%nat)) in E.
  - destruct E as [S1 (new & -> & Hnew)]. simpl in H.
    eapply spares_trans; [apply spares_mark; exact Hr|].
    eapply spares_trans; [exact S1|].
    apply (spares_combine self p root_node d new s1 st' Hr Hs); [|exact H].
    eapply Forall_impl; [|exact Hnew]. intros k [Hk Hg]; split.
    + eapply incident_in_range; eauto.
    + destruct Hg as [Hg|Hg]; [exact Hg | discriminate].
  - apply spares_refl.
  - apply spares_trans.
  - intros node s s' Hn _ Hg Hv.
    apply (IH node s s'); [destruct Hg as [Hg|Hg]; [exact Hg | discriminate]
                          | exact Hn | exact Hv].
  - apply Forall_forall; intros y Hy; eapply incident_in_range; eauto.
Qed.

Lemma closed_grows_step self stack st st' :
  (forall i, vis st' i = vis st i) -> closed self stack st -> closed self stack st'.
Proof.
  intros E C x Hx Hv. rewrite E in Hv. destruct (C x Hx Hv) as [H|H]; [now left|].
  right. destruct (up (node_at self x)); [now rewrite E | exact H].
Qed.

Lemma perform_message_passing_marks fuel self root_node d include_prior st st' :
  (root_node < length (feats st))%nat ->
  perform_message_passing fuel self root_node d include_prior st = Ok st' ->
  vis st' root_node = true.
Proof.
  intros Hr H. destruct fuel as [|fuel]; simpl in H; [discriminate|].
  destruct (search self (prior_root self)) as [prior_node| |]; simpl in H;
    try discriminate.
  destruct (collect_messages _ _ _ _ _ _) as [[s1 inc]| |] eqn:E; simpl in H;
    try discriminate.
  apply (collect_messages_rel grows (fun _ => True)) in E.
  - destruct E as [[_ G] _].
    apply combine_messages_modifies in H; destruct H as [H _].
    rewrite (vis_modifies _ _ _ root_node H). apply G.
    now apply vis_mark_same.
  - apply grows_refl.
  - apply grows_trans.
  - intros node s s' _ _ _ Hv; eapply perform_message_passing_grows; exact Hv.
  - apply Forall_forall; auto.
Qed.

(** With the prior included, the loop leaves every incident node visited. *)
Lemma collect_messages_visits_all visit prior_node :
  (forall node s s', visit node s = Ok s' ->
     (node < length (feats s))%nat -> grows s s' /\ vis s' node = true) ->
  forall incident_nodes s inc s' inc',
    Forall (fun y => (y < length (feats s))%nat) incident_nodes ->
    collect_messages visit prior_node true incident_nodes s inc = Ok (s', inc') ->
    grows s s' /\ Forall (fun y => vis s' y = true) incident_nodes.
Proof.
  intros Hvisit.
  induction incident_nodes as [|node rest IH]; intros s inc s' inc' HQ H; simpl in H.
  - inversion H; subst; split; [apply grows_refl | constructor].
  - inversion HQ as [|? ? HQn HQr]; subst.
    destruct (visited (feat s node)) eqn:V; simpl in H.
    + destruct (IH _ _ _ _ HQr H) as [G A]. split; [exact G|].
      constructor; [apply G; exact V | exact A].
    + assert (B : (negb (node =? prior_node)%nat
                   || ((node =? prior_node)%nat && true)) = true)
        by (destruct (node =? prior_node)%nat; reflexivity).
      rewrite B in H.
      destruct (visit node s) as [s1| |] eqn:E; simpl in H; try discriminate.
      destruct (Hvisit _ _ _ E HQn) as [G1 V1].
      assert (HQr' : Forall (fun y => (y < length (feats s1))%nat) rest).
      { destruct G1 as [L1 _]. rewrite L1. exact HQr. }
      destruct (IH _ _ _ _ HQr' H) as [G A].
      split; [eapply grows_trans; eauto|].
      constructor; [apply G; exact V1 | exact A].
Qed.

Lemma perform_message_passing_closed self d :
  wf_model self ->
  forall fuel root_node stack st st',
    (root_node < size self)%nat ->
    perform_message_passing fuel self root_node d true st = Ok st' ->
    keeps_closed self stack st st'.
Proof.
  intros W; induction fuel as [|fuel IH]; intros root_node stack st st' Hr H L;
    simpl in H; [discriminate|].
  destruct (search self (prior_root self)) as [prior_node| |]; simpl in H;
    try discriminate.
  fold (mark root_node st) in H.
  destruct (collect_messages _ _ _ _ _ _) as [[s1 inc]| |] eqn:E; simpl in H;
    try discriminate.
  assert (Lm : length (feats (mark root_node st)) = size self)
    by (unfold mark; now rewrite feats_upd_feat_length).
  assert (Hinc : Forall (fun y => (y < size self)%nat) (incident self root_node))
    by (apply Forall_forall; intros y Hy; eapply incident_in_range; eauto).
  pose proof E as E2.
  apply (collect_messages_rel (keeps_closed self (root_node :: stack))
           (fun y => (y < size self)%nat)) in E;
    [ | intros s Ls; split; auto
      | intros a b c Hab Hbc La; destruct (Hab La) as [Lb Cb];
        destruct (Hbc Lb) as [Lc Cc]; split; auto
      | intros node s s' Hn _ _ Hv; eapply IH; eauto
      | exact Hinc ].
  destruct E as [K1 _]. destruct (K1 Lm) as [L1 C1].
  apply collect_messages_visits_all in E2.
  - destruct E2 as [G1 A1].
    apply combine_messages_modifies in H; destruct H as [M _].
    split; [destruct M as [LM _]; congruence|]. intros C.
    apply (closed_grows_step self stack s1);
      [intros i; apply (vis_modifies _ _ _ i M)|].
    assert (Cm : closed self (root_node :: stack) (mark root_node st)).
    { intros x Hx Hv. destruct (Nat.eq_dec x root_node) as [->|Hne]; [left; now left|].
      unfold vis, mark in Hv. rewrite feat_upd_feat_other in Hv by congruence.
      destruct (C x Hx Hv) as [Hin|Hup]; [left; now right|]. right.
      destruct (up (node_at self x)) as [q|]; [|exact I].
      now apply vis_mark_mono. }
    specialize (C1 Cm). intros x Hx Hv.
    destruct (C1 x Hx Hv) as [[<-|Hin]|Hup]; [|now left|now right].
    right. destruct (up (node_at self root_node)) as [q|] eqn:U; [|exact I].
    rewrite Forall_forall in A1. apply A1. unfold incident. rewrite U.
    apply in_or_app; right; now left.
  - intros node s s' Hv Hn. split.
    + eapply perform_message_passing_grows; exact Hv.
    + eapply perform_message_passing_marks; eauto.
  - rewrite Lm. exact Hinc.
Qed.

(** From a closed set of visited nodes the flags climb to the prior root. *)
Lemma closed_reaches_top self st :
  wf_model self -> closed self [] st ->
  forall x, (x < size self)%nat -> vis st x = true -> vis st 0%nat = true.
Proof.
  intros W C x. induction x as [x IH] using lt_wf_ind. intros Hx Hv.
  destruct (C x Hx Hv) as [[]|Hup].
  destruct (up (node_at self x)) as [q|] eqn:U.
  - pose proof (wf_up _ W _ _ U) as Hq. apply (IH q Hq); [lia | exact Hup].
  - rewrite (wf_top _ W x Hx U) in Hv. exact Hv.
Qed.

(** ** What the branch [n >= 2] computes *)

Lemma merge_loop_children_nu root_node incoming st0 :
  ~ In root_node incoming ->
  forall m i st cnu cmu,
    modifies_in_place root_node st0 st ->
    (i + m <= length incoming)%nat -> length cnu = length incoming ->
    let cnu' := snd (fst (fold_left (merge_step root_node incoming) (seq i m)
                                    (st, cnu, cmu))) in
    length cnu' = length incoming
    /\ forall x,
      nth x cnu' 0
      = if ((i <=? x) && (x <? i + m))%nat
        then nu (feat st0 (nth x incoming 0%nat)) + 1
        else nth x cnu 0.
Proof.
  intros Hnot; induction m as [|m IH]; intros i st cnu cmu M Hi HL; cbv zeta.
  - simpl. split; [exact HL|]. intros x.
    destruct (i <=? x)%nat eqn:A; simpl; auto.
    destruct (Nat.ltb_spec x (i + 0)); auto. apply Nat.leb_le in A; lia.
  - cbn [seq fold_left].
    pose proof (merge_step_modifies root_node incoming (st, cnu, cmu) i) as M1.
    destruct (merge_step root_node incoming (st, cnu, cmu) i) as [[st1 cnu1] cmu1] eqn:E.
    simpl in M1.
    assert (E1 : cnu1 = upd i (nu (feat st (nth i incoming 0%nat)) + 1) cnu)
      by (unfold merge_step in E; now inversion E).
    destruct (IH (S i) st1 cnu1 cmu1) as [L1 N1];
      [eapply modifies_in_place_trans; eauto | lia
       | subst cnu1; now rewrite upd_length |].
    split; [exact L1|]. intros x. rewrite N1. subst cnu1.
    assert (Hk : nth i incoming 0%nat <> root_node).
    { intros Hk. apply Hnot. rewrite <- Hk. apply nth_In. lia. }
    destruct M as [(_ & O & _) _].
    destruct (Nat.eq_dec x i) as [->|Hx].
    + replace ((S i <=? i) && (i <? S i + m))%nat with false
        by (symmetry; apply andb_false_iff; left; apply Nat.leb_gt; lia).
      replace ((i <=? i) && (i <? i + S m))%nat with true
        by (symmetry; apply andb_true_iff; split;
            [apply Nat.leb_le | apply Nat.ltb_lt]; lia).
      rewrite nth_upd_same by lia. now rewrite O.
    + rewrite nth_upd_other by congruence.
      destruct (Nat.leb_spec (S i) x), (Nat.leb_spec i x),
               (Nat.ltb_spec x (S i + m)), (Nat.ltb_spec x (i + S m));
        simpl; try lia; reflexivity.
Qed.

Lemma merge_loop_result root_node incoming st :
  ~ In root_node incoming ->
  snd (fst (fold_left (merge_step root_node incoming) (seq 0 (length incoming))
              (st, repeat 0 (length incoming), repeat [] (length incoming))))
  = map (fun k => nu (feat st k) + 1) incoming.
Proof.
  intros Hnot.
  destruct (merge_loop_children_nu root_node incoming st Hnot (length incoming)
              0%nat st (repeat 0 (length incoming)) (repeat [] (length incoming)))
    as [L N].
  - apply modifies_in_place_refl.
  - lia.
  - apply repeat_length.
  - apply (nth_ext _ _ 0 (nu (feat st 0%nat) + 1)); [now rewrite length_map|].
    intros x Hx.
    assert (Hx' : (x < length incoming)%nat) by (rewrite <- L; exact Hx).
    rewrite N.
    replace ((0 <=? x) && (x <? 0 + length incoming))%nat with true
      by (symmetry; apply andb_true_iff; split;
          [apply Nat.leb_le | apply Nat.ltb_lt]; lia).
    symmetry; apply (map_nth (fun k => nu (feat st k) + 1)).
Qed.

Lemma Z3_inner_h children_nu j n acc :
  fst (fold_left (Z3_inner children_nu j) (seq 0 (S n)) acc) = n.
Proof.
  rewrite seq_S, fold_left_app; simpl.
  unfold Z3_inner at 1. now destruct (n =? j)%nat.
Qed.

Lemma Z3_loop_ext (f g : nat -> nat -> R) children_nu n :
  (forall h j, (h < n)%nat -> (j < n)%nat -> f h j = g h j) ->
  Z3_loop f children_nu n = Z3_loop g children_nu n.
Proof.
  intros E. unfold Z3_loop.
  assert (G : forall l acc, Forall (fun j => (j < n)%nat) l ->
            fold_left (Z3_outer f children_nu n) l acc
            = fold_left (Z3_outer g children_nu n) l acc).
  { induction l as [|j l IH]; intros acc Hl; simpl; [reflexivity|].
    inversion Hl as [|? ? Hj Hl']; subst. rewrite <- IH by exact Hl'. f_equal.
    destruct acc as [[h p] Z]. unfold Z3_outer.
    destruct n as [|n']; [lia|].
    pose proof (Z3_inner_h children_nu j n' (h, p)) as Hh.
    destruct (fold_left (Z3_inner children_nu j) (seq 0 (S n')) (h, p)) as [h' p'].
    simpl in Hh; subst h'. rewrite E by lia. reflexivity. }
  rewrite G; [reflexivity|].
  apply Forall_forall; intros j Hj; apply in_seq in Hj; lia.
Qed.

(** *** The sum that the loop of [Z_3] computes *)

(** After the inner loop [h] is [n - 1], and [prod_2] leaves out [j] and the
    last index other than [j]. *)
Lemma Z3_inner_result children_nu j n acc :
  (2 <= n)%nat ->
  fold_left (Z3_inner children_nu j) (seq 0 n) acc
  = ((n - 1)%nat,
     product_without children_nu
       [j; if (j =? n - 1)%nat then (n - 2)%nat else (n - 1)%nat]).
Proof.
  intros H. destruct n as [|[|m]]; try lia.
  rewrite seq_S, fold_left_app, seq_S, fold_left_app. simpl.
  replace (m - 0)%nat with m by lia.
  set (a := fold_left (Z3_inner children_nu j) (seq 0 m) acc).
  unfold Z3_inner at 2.
  destruct (Nat.eqb_spec m j) as [->|Hm].
  - unfold Z3_inner. destruct (Nat.eqb_spec (S j) j); [lia|].
    destruct (Nat.eqb_spec j (S j)); [lia | reflexivity].
  - unfold Z3_inner. simpl snd.
    destruct (Nat.eqb_spec (S m) j) as [<-|Hs].
    + now rewrite Nat.eqb_refl.
    + destruct (Nat.eqb_spec j (S m)); [lia | reflexivity].
Qed.

(** The locals [h], [prod_2] and [Z_3] after the outer loop over [l]. *)
Lemma Z3_outer_sum sq_dist children_nu n l acc :
  (2 <= n)%nat ->
  snd (fold_left (Z3_outer sq_dist children_nu n) l acc)
  = snd acc
    + sum_R (map (fun j =>
                    product_without children_nu
                      [j; if (j =? n - 1)%nat then (n - 2)%nat else (n - 1)%nat]
                    * sq_dist (n - 1)%nat j) l).
Proof.
  intros H. revert acc; induction l as [|j l IH]; intros [[h p] Z]; simpl.
  - ring.
  - rewrite IH. unfold Z3_outer.
    rewrite (Z3_inner_result children_nu j n (h, p) H). simpl. ring.
Qed.

(** For [n >= 2] the loop adds one term per [j], all with [h = n - 1]. *)
Lemma Z3_loop_closed_form sq_dist children_nu n :
  (2 <= n)%nat ->
  Z3_loop sq_dist children_nu n
  = sum_R (map (fun j =>
                  product_without children_nu
                    [j; if (j =? n - 1)%nat then (n - 2)%nat else (n - 1)%nat]
                  * sq_dist (n - 1)%nat j) (seq 0 n)).
Proof.
  intros H. unfold Z3_loop. rewrite Z3_outer_sum by exact H. simpl. ring.
Qed.

Lemma modifies_in_place_reads x st st' k :
  modifies_in_place x st st' -> k <> x -> mu (feat st k) <> mu (feat st x) ->
  tensor st' (mu (feat st' k)) = tensor st (mu (feat st k)).
Proof.
  intros [(L & O & V & T) M] Hk Hmu. rewrite (O _ Hk). now apply T.
Qed.

Lemma merge_messages_log_z root_node d incoming st :
  (root_node < length (feats st))%nat ->
  ~ In root_node incoming ->
  (forall k, In k incoming -> mu (feat st k) <> mu (feat st root_node)) ->
  let n := length incoming in
  let children_nu := map (fun k => nu (feat st k) + 1) incoming in
  let mus := map (fun k => tensor st (mu (feat st k))) incoming in
  let t := find_t children_nu n in
  log_z (feat (merge_messages root_node d incoming st) root_node)
  = -0.5 * (INR n - 1) * INR d * ln (2 * PI)
    + -0.5 * INR d * ln t
    + Z3_loop (fun h j => sum_sq_diff (nth h mus []) (nth j mus [])) children_nu n
      * (-0.5 / t).
Proof.
  intros Hr Hnot Hmu n children_nu mus t.
  unfold merge_messages.
  pose proof (merge_loop_result root_node incoming st Hnot) as C.
  pose proof (merge_loop_modifies root_node incoming (seq 0 (length incoming))
                (st, repeat 0 (length incoming), repeat [] (length incoming))) as M.
  destruct (fold_left (merge_step root_node incoming) _ _) as [[st1 cnu] cmu].
  simpl in C, M. subst cnu.
  set (st1' := upd_feat root_node (fun f => set_nu (1 / nu f) f) st1).
  set (st2 := set_tensor (mu (feat st1' root_node)) _ st1').
  assert (M2 : modifies_in_place root_node st st2).
  { apply modifies_then_set_tensor.
    apply modifies_then_upd_feat; try reflexivity. exact M. }
  rewrite feat_upd_feat_same by (destruct M2 as [[L _] _]; lia).
  simpl. fold n children_nu t. f_equal. f_equal.
  apply Z3_loop_ext. intros h j Hh Hj. unfold mu_sq_dist, mus.
  assert (K : forall x, (x < n)%nat ->
            tensor st2 (mu (feat st2 (nth x incoming 0%nat)))
            = nth x (map (fun k => tensor st (mu (feat st k))) incoming) []).
  { intros x Hx.
    assert (Hin : In (nth x incoming 0%nat) incoming) by (apply nth_In; exact Hx).
    rewrite (modifies_in_place_reads root_node st st2 _ M2).
    - rewrite (nth_indep _ [] (tensor st (mu (feat st 0%nat))))
        by (rewrite length_map; exact Hx).
      symmetry. apply (map_nth (fun k => tensor st (mu (feat st k)))).
    - intros E; apply Hnot; now rewrite <- E.
    - now apply Hmu. }
  now rewrite !K.
Qed.

(** What the branch [n >= 2] stores as [log_z], with the loops summed up:
    the third term pairs every [j] with [h = n - 1] only. *)
Lemma merge_messages_log_z_sum root_node d incoming st :
  (root_node < length (feats st))%nat ->
  ~ In root_node incoming ->
  (forall k, In k incoming -> mu (feat st k) <> mu (feat st root_node)) ->
  (2 <= length incoming)%nat ->
  let n := length incoming in
  let children_nu := map (fun k => nu (feat st k) + 1) incoming in
  let mus := map (fun k => tensor st (mu (feat st k))) incoming in
  let t := find_t children_nu n in
  log_z (feat (merge_messages root_node d incoming st) root_node)
  = -0.5 * (INR n - 1) * INR d * ln (2 * PI)
    + -0.5 * INR d * ln t
    + sum_R (map (fun j =>
                    product_without children_nu
                      [j; if (j =? n - 1)%nat then (n - 2)%nat else (n - 1)%nat]
                    * sum_sq_diff (nth (n - 1) mus []) (nth j mus []))
                 (seq 0 n))
      * (-0.5 / t).
Proof.
  intros Hr Hnot Hmu Hn n children_nu mus t.
  rewrite merge_messages_log_z by assumption.
  fold n children_nu mus t. now rewrite Z3_loop_closed_form by exact Hn.
Qed.

(** ** Initialisation *)

Lemma feat_map_seq (g : nat -> features) n (tn : list vec) i :
  (i < n)%nat -> feat {| feats := map g (seq 0 n); tensors := tn |} i = g i.
Proof.
  intros H; unfold feat; simpl.
  rewrite (nth_indep _ no_features (g 0%nat)) by (now rewrite length_map, length_seq).
  rewrite (map_nth g), seq_nth by exact H. reflexivity.
Qed.

Lemma initialize_visit_length self st :
  length (feats (initialize_visit self st)) = size self.
Proof. unfold initialize_visit; simpl. now rewrite length_map, length_seq. Qed.

Lemma initialize_visit_feat self st i :
  (i < size self)%nat ->
  feat (initialize_visit self st) i = set_visited false (feat st i).
Proof. intros Hi. unfold initialize_visit. now rewrite feat_map_seq. Qed.

Lemma initialize_visit_unvisited self st i : vis (initialize_visit self st) i = false.
Proof.
  unfold vis. destruct (Nat.lt_ge_cases i (size self)) as [H|H].
  - unfold initialize_visit. now rewrite feat_map_seq.
  - unfold feat. rewrite nth_overflow; [reflexivity|].
    now rewrite initialize_visit_length.
Qed.

Lemma fill_dic_runs dic i rows barcodes :
  (length rows <= length barcodes)%nat ->
  exists dic', fill_dic dic i rows barcodes = Ok dic'.
Proof.
  revert dic i barcodes; induction rows as [|r rows IH]; intros dic i [|b bs] H;
    simpl in *; eauto; try lia.
  apply IH; lia.
Qed.

Lemma fill_dic_range dic i rows barcodes dic' :
  fill_dic dic i rows barcodes = Ok dic' ->
  forall key r, dict_get dic' key = Some r ->
    (r < i + length rows)%nat \/ dict_get dic key = Some r.
Proof.
  revert dic i barcodes dic'; induction rows as [|row rows IH];
    intros dic i [|b bs] dic' H key r G; simpl in H; try discriminate.
  - inversion H; subst; now right.
  - inversion H; subst; now right.
  - destruct (IH _ _ _ _ H key r G) as [Hr|Hr]; [left; simpl; lia|].
    simpl in Hr. destruct (String.eqb b key).
    + inversion Hr; subst; left; simpl; lia.
    + now right.
Qed.

Lemma initialize_messages_runs self evidence d st :
  (length evidence <= length (barcodes self))%nat ->
  exists st', initialize_messages self evidence (barcodes self) d st = Ok st'
    /\ length (feats st') = size self
    /\ forall i, vis st' i = vis st i \/ (size self <= i)%nat.
Proof.
  intros H. unfold initialize_messages.
  destruct (fill_dic_runs [] 0 evidence (barcodes self) H) as [dic E].
  rewrite E; simpl. eexists; split; [reflexivity|]. split.
  - simpl. now rewrite length_map, length_seq.
  - intros i. destruct (Nat.lt_ge_cases i (size self)) as [Hi|Hi]; [left | now right].
    unfold vis. rewrite feat_map_seq by exact Hi.
    destruct (String.eqb _ _); [reflexivity|]. now destruct (dict_get _ _).
Qed.

Lemma search_from_range l value i j :
  search_from i l value = Some j -> (i <= j < i + length l)%nat.
Proof.
  revert i; induction l as [|n l IH]; intros i H; simpl in H; [discriminate|].
  destruct (String.eqb (name n) value).
  - inversion H; subst; simpl; lia.
  - apply IH in H; simpl; lia.
Qed.

Lemma wf_prior_name self :
  wf_model self -> String.eqb (name (node_at self 0)) (prior_root self) = true.
Proof.
  intros W. pose proof (wf_prior _ W) as H. unfold node_at.
  destruct (tree self) as [|n0 l]; simpl in *; [discriminate|].
  destruct (String.eqb (name n0) (prior_root self)) eqn:E; [reflexivity|].
  apply search_from_range in H. lia.
Qed.

(** After [initialize_messages] the zero vector of the prior root is held
    by the prior root alone, provided no other node bears its name. *)
Lemma initialize_messages_unshared self evidence d st st' :
  wf_model self ->
  (forall i, (0 < i < size self)%nat ->
             String.eqb (name (node_at self i)) (prior_root self) = false) ->
  initialize_messages self evidence (barcodes self) d st = Ok st' ->
  unshared 0 st'.
Proof.
  intros W Hname H. unfold initialize_messages in H.
  destruct (fill_dic [] 0 evidence (barcodes self)) as [dic| |] eqn:E;
    simpl in H; try discriminate.
  inversion H; subst st'; clear H.
  intros i Hi Hne. simpl in Hi. rewrite length_map, length_seq in Hi.
  rewrite !feat_map_seq by (unfold size in *; lia).
  simpl.
  rewrite (String.eqb_sym (prior_root self) (name (node_at self 0))),
    (wf_prior_name self W).
  rewrite (String.eqb_sym (prior_root self) (name (node_at self i))),
    Hname by (unfold size; lia).
  destruct (dict_get dic (name (node_at self i))) as [r|] eqn:G; simpl.
  - destruct (fill_dic_range _ _ _ _ _ E _ _ G) as [Hr|Hr]; [lia | discriminate].
  - lia.
Qed.

Lemma search_range self value j : search self value = Ok j -> (j < size self)%nat.
Proof.
  unfold search. destruct (search_from 0 (tree self) value) eqn:E; intros H;
    inversion H; subst. apply search_from_range in E. unfold size; lia.
Qed.

(** A pass with the prior included, started anywhere on an unvisited tree,
    returns and leaves the prior root visited. *)
Lemma pass_with_prior_visits self d start st :
  wf_model self -> (start < size self)%nat -> length (feats st) = size self ->
  (forall i, vis st i = false) ->
  exists st',
    perform_message_passing (budget self) self start d true st = Ok st'
    /\ vis st' 0%nat = true.
Proof.
  intros W Hs HL Hv.
  destruct (perform_message_passing_budget self start d true st W Hs HL) as [st' E].
  exists st'; split; [exact E|].
  destruct (perform_message_passing_closed self d W _ _ [] _ _ Hs E HL) as [_ C].
  apply (closed_reaches_top self st' W) with (x := start).
  - apply C. intros x _ Hx. rewrite Hv in Hx. discriminate.
  - exact Hs.
  - eapply perform_message_passing_marks; [|exact E]. lia.
Qed.

(** ** Small trees *)

Lemma perform_message_passing_same_features self d p :
  search self (prior_root self) = Ok p ->
  forall fuel root_node st st',
    root_node <> p ->
    perform_message_passing fuel self root_node d false st = Ok st' ->
    feat st' p = feat st p.
Proof.
  intros Hp; induction fuel as [|fuel IH]; intros root_node st st' Hr H;
    simpl in H; [discriminate|].
  rewrite Hp in H; simpl in H.
  destruct (collect_messages _ _ _ _ _ _) as [[s1 inc]| |] eqn:E; simpl in H;
    try discriminate.
  apply (collect_messages_rel (same_features p) (fun _ => True)) in E.
  - destruct E as [S1 _]. unfold same_features in S1.
    apply combine_messages_modifies in H. destruct H as [(_ & O & _) _].
    rewrite O by congruence. rewrite S1.
    apply feat_upd_feat_other. exact Hr.
  - intros s; reflexivity.
  - intros a b c Hab Hbc; unfold same_features in *; congruence.
  - intros node s s' _ _ Hg Hv. apply (IH node s s'); [|exact Hv].
    destruct Hg as [Hg|Hg]; [exact Hg | discriminate].
  - apply Forall_forall; auto.
Qed.

(** ** The claims on message passing *)

Lemma cherry_fresh_initialised :
  initialize_messages cherry [[0; 0]; [1; 1]] (barcodes cherry) (n_latent cherry)
    (initialize_visit cherry (blank 4)) = Ok cherry_fresh.
Proof. reflexivity. Qed.

Lemma cherry_wf : wf_model cherry.
Proof.
  split.
  - reflexivity.
  - intros [|[|[|[|i]]]] c; simpl; intros H;
      repeat (destruct H as [<-|H]; [lia|]); try destruct H;
      destruct i; simpl in *; tauto.
  - intros [|[|[|[|i]]]] p; simpl; intros H; inversion H; subst; try lia;
      destruct i; discriminate.
  - intros [|[|[|[|i]]]]; simpl; intros Hi H; try discriminate; auto; lia.
Qed.

Lemma sum_sq_diff_sym a b : sum_sq_diff a b = sum_sq_diff b a.
Proof.
  revert b; induction a as [|x a IH]; intros [|y b]; simpl; auto.
  rewrite IH; ring.
Qed.

Lemma sum_sq_diff_same a : sum_sq_diff a a = 0.
Proof. induction a as [|x a IH]; simpl; [reflexivity|]. rewrite IH; ring. Qed.

(** C1.  On the star with leaves at 0, 1, 0 (d = 1) the pass of [forward]
    gives the root, which has three incoming messages, a [log_z] whose
    third term is -1/6: the statement that adds to [Z_3] stands after the
    inner loop, so one term per [j] is added, with [h = n - 1].  The sum
    over all ordered pairs that the claim states gives -2/3 there. *)
Theorem log_z_three_children :
  exists st', forward_messages star [[0]; [1]; [0]] 1 (blank 5) = Ok st'
    /\ log_z (feat st' 1) = - ln (2 * PI) - / 2 * ln 3 - 1 / 6
    /\ log_z_claimed 1 [1; 1; 1] [[0]; [1]; [0]]
       = - ln (2 * PI) - / 2 * ln 3 - 2 / 3.
Proof.
  eexists; split; [reflexivity|].
  split; run; inr_numerals; ln_sum 3; lra.
Qed.

Lemma long_cherry_fresh_initialised :
  initialize_messages long_cherry [[0; 0]; [1; 1]] (barcodes long_cherry)
    (n_latent long_cherry) (initialize_visit long_cherry (blank 6))
  = Ok long_cherry_fresh.
Proof. reflexivity. Qed.

Lemma two_messages_log_z root_node d k1 k2 st v :
  0 <= v ->
  nu (feat st k1) = v -> nu (feat st k2) = v ->
  (root_node < length (feats st))%nat ->
  mu (feat st k1) <> mu (feat st root_node) ->
  mu (feat st k2) <> mu (feat st root_node) ->
  log_z (feat (merge_messages root_node d [k1; k2] st) root_node)
  = two_gaussian_log_partition d (v + 1) (v + 1)
      (tensor st (mu (feat st k1))) (tensor st (mu (feat st k2))).
Proof.
  intros Hv N1 N2 Hr M1 M2.
  rewrite merge_messages_log_z.
  - simpl map. rewrite N1, N2. simpl length.
    unfold find_t, Z3_loop, two_gaussian_log_partition.
    cbv [seq fold_left Z3_outer Z3_inner product_without enumerate combine length
         existsb fst snd Nat.eqb orb nth].
    rewrite sum_sq_diff_same.
    rewrite (sum_sq_diff_sym (tensor st (mu (feat st k2)))).
    replace (0 + 1 * (v + 1) + 1 * (v + 1)) with (v + 1 + (v + 1)) by ring.
    rewrite (ln_mult (2 * PI) (v + 1 + (v + 1))) by (pose proof PI_RGT_0; lra).
    replace (INR 2) with 2 by (simpl; lra).
    replace (-0.5) with (- / 2) by lra.
    field. lra.
  - exact Hr.
  - simpl; intros [E|[E|[]]]; congruence.
  - simpl; intros k [<-|[<-|[]]]; assumption.
Qed.

(** C2, as stated, fails.  On the path, after
    [posterior_predictive_density] for [E] with the evidence [y = (1, 1)],
    the call for [D] without evidence gives [D] exactly two incoming
    messages, from [E] and from [R], both of [nu = 1], with means [(1, 1)]
    and [(0, 0)]: the numeric case of the claim.  The message of [R] is the
    tensor that [D] holds itself, so the in-place update of [D.mu] changes
    it before [Z_3] reads it, and [log_z] ends with -9/64 where the
    two-Gaussian value has -1/4. *)
Lemma shared_message_misses_closed_form :
  match collect_messages
          (fun node st => perform_message_passing (size path) path node 2 true st)
          0 true (incident path 2) (mark 2 (initialize_visit path path_shared)) []
  with
  | Ok (st1, incoming_messages) =>
      incoming_messages = [3; 1]%nat
      /\ nu (feat st1 3) = 1 /\ nu (feat st1 1) = 1
      /\ tensor st1 (mu (feat st1 3)) = [1; 1]
      /\ tensor st1 (mu (feat st1 1)) = [0; 0]
      /\ mu (feat st1 1) = mu (feat st1 2)
  | _ => False
  end
  /\ match posterior_predictive_density path "D" None path_shared with
     | Ok (_, st') =>
         log_z (feat st' 2) = - ln (2 * PI) - ln 4 - 9 / 64
         /\ log_z (feat st' 2)
            <> two_gaussian_log_partition 2 (1 + 1) (1 + 1) [1; 1] [0; 0]
     | _ => False
     end
  /\ two_gaussian_log_partition 2 (1 + 1) (1 + 1) [1; 1] [0; 0]
     = - ln (2 * PI) - ln 4 - 0.25.
Proof.
  assert (L : ln (2 * PI * 4) = ln (2 * PI) + ln 4)
    by (apply ln_mult; pose proof PI_RGT_0; lra).
  split; [|split].
  - run. repeat split; try reflexivity; lra.
  - run. inr_numerals. ln_sum 4.
    replace (2 * PI * (1 + 1 + (1 + 1))) with (2 * PI * 4) by lra.
    rewrite L. split; lra.
  - run. inr_numerals.
    replace (2 * PI * (1 + 1 + (1 + 1))) with (2 * PI * 4) by lra.
    rewrite L. lra.
Qed.

(** C2, amended.  Take a call of [perform_message_passing] on a node whose
    loop over the incident nodes returns exactly two incoming messages
    [k1], [k2], of equal [nu = v] and held in tensors other than the one
    the node holds itself.  The call returns, and the node's [log_z] is the
    log-partition value of the product of the two Gaussians, of variances
    [v + 1] after the unit edge and of the means that the two messages
    had when they were collected. *)
Theorem two_child_closed_form fuel self root_node d include_prior p st st1 k1 k2 v :
  search self (prior_root self) = Ok p ->
  collect_messages
    (fun node st => perform_message_passing fuel self node d include_prior st)
    p include_prior (incident self root_node) (mark root_node st) []
  = Ok (st1, [k1; k2]) ->
  0 <= v ->
  nu (feat st1 k1) = v -> nu (feat st1 k2) = v ->
  (root_node < length (feats st1))%nat ->
  mu (feat st1 k1) <> mu (feat st1 root_node) ->
  mu (feat st1 k2) <> mu (feat st1 root_node) ->
  exists st',
    perform_message_passing (S fuel) self root_node d include_prior st = Ok st'
    /\ log_z (feat st' root_node)
       = two_gaussian_log_partition d (v + 1) (v + 1)
           (tensor st1 (mu (feat st1 k1))) (tensor st1 (mu (feat st1 k2))).
Proof.
  intros Hp C Hv N1 N2 Hr M1 M2.
  exists (merge_messages root_node d [k1; k2] st1). split.
  - simpl. rewrite Hp. cbn [bind]. fold (mark root_node st). rewrite C. reflexivity.
  - now apply two_messages_log_z.
Qed.

(** The numeric case of C2 in the pass of [forward] on the long cherry,
    with the evidence [A = (0, 0)], [B = (1, 1)]: [R] receives the messages
    of [P] and [Q], both of [nu = 1], and [d = 2]. *)
Lemma two_child_numeric_case :
  exists st', forward_messages long_cherry [[0; 0]; [1; 1]] 2 (blank 6) = Ok st'
    /\ log_z (feat st' 1) = - ln (2 * PI) - ln 4 - 0.25.
Proof.
  pose proof (fun st1 => two_child_closed_form 6 long_cherry 1 2 false 0
                           long_cherry_fresh st1 2 3 1 eq_refl) as T.
  edestruct T as (st' & E & L).
  - reflexivity.
  - lra.
  - run. lra.
  - run. lra.
  - simpl; lia.
  - simpl; lia.
  - simpl; lia.
  - exists st'. split; [exact E|]. rewrite L.
    unfold two_gaussian_log_partition. run. inr_numerals.
    replace (1 + 1 + (1 + 1)) with 4 by lra.
    rewrite (ln_mult (2 * PI) 4) by (pose proof PI_RGT_0; lra).
    lra.
Defined.

(** C9.  The classification of [n = len(incoming_messages)] raises
    [NotImplementedError] exactly when [n] is none of 0, 1 and [>= 2]; no
    natural number is, and no pass raises it, whatever the tree, the store
    and the recursion budget. *)
Theorem fatal_branch_unreachable :
  (forall root_node d incoming st,
      combine_messages root_node d incoming st = Raise NotImplementedError
      <-> ~ (length incoming = 0 \/ length incoming = 1 \/ 2 <= length incoming)%nat)
  /\ (forall fuel self root_node d include_prior st,
        perform_message_passing fuel self root_node d include_prior st
        <> Raise NotImplementedError).
Proof.
  split.
  - intros root_node d incoming st; split.
    + intros H; exfalso; eapply combine_messages_classified; exact H.
    + intros H; exfalso; apply H; lia.
  - induction fuel as [|fuel IH]; intros self root_node d include_prior st; simpl.
    + discriminate.
    + destruct (search self (prior_root self)) as [p|e|] eqn:S; simpl;
        try discriminate.
      * pose proof (collect_messages_not_fatal
                      (fun node st => perform_message_passing fuel self node d
                                        include_prior st)
                      p include_prior (fun node s => IH self node d include_prior s)
                      (incident self root_node)
                      (upd_feat root_node (set_visited true) st) []) as C.
        destruct (collect_messages _ _ _ _ _ _) as [[s1 inc]|e|]; simpl;
          try discriminate.
        -- apply combine_messages_classified.
        -- intros H; apply C; congruence.
      * unfold search in S. destruct (search_from _ _ _); inversion S; subst.
        discriminate.
Qed.

(** C8, amended.  Take a well-formed tree with one feature record per node
    and a start node other than the prior root [p].  With
    [include_prior = False] the pass returns and the prior root keeps its
    features: its [visited] flag, its [nu], its [mu] tensor and its
    [log_z]; the contents of that tensor are kept too when no other node
    holds it, as is the case after [initialize_messages].  With
    [include_prior = True], on flags reset by [initialize_visit], the pass
    returns and the prior root is visited. *)
Theorem prior_root_excluded_or_included self d start p st :
  wf_model self -> search self (prior_root self) = Ok p ->
  (start < size self)%nat -> start <> p -> length (feats st) = size self ->
  (exists st',
      perform_message_passing (budget self) self start d false st = Ok st'
      /\ feat st' p = feat st p
      /\ (unshared p st ->
          tensor st' (mu (feat st p)) = tensor st (mu (feat st p))))
  /\ ((forall i, vis st i = false) ->
      exists st',
        perform_message_passing (budget self) self start d true st = Ok st'
        /\ vis st' p = true).
Proof.
  intros W Hp Hs Hne HL.
  assert (p = 0%nat) by (rewrite (search_prior self W) in Hp; now inversion Hp).
  subst p. split.
  - destruct (perform_message_passing_budget self start d false st W Hs HL)
      as [st' E].
    exists st'; split; [exact E|]. split.
    + eapply perform_message_passing_same_features; eauto.
    + intros U.
      destruct (perform_message_passing_spares self d 0 W Hp _ _ _ _ Hne Hs E HL)
        as [_ K].
      destruct (K U) as [[F T] _]. exact T.
  - intros Hv. now apply pass_with_prior_visits.
Qed.

Lemma cherry_fresh_unshared : unshared 0 cherry_fresh.
Proof.
  intros [|[|[|[|i]]]]; simpl; intros Hi Hne; try lia; discriminate.
Qed.

(** The amended C8 on the cherry, started at [R] right after the
    initialisation. *)
Lemma prior_root_on_cherry :
  (exists st',
      perform_message_passing (budget cherry) cherry 1 2 false cherry_fresh = Ok st'
      /\ feat st' 0 = feat cherry_fresh 0
      /\ tensor st' (mu (feat cherry_fresh 0))
         = tensor cherry_fresh (mu (feat cherry_fresh 0)))
  /\ (exists st',
         perform_message_passing (budget cherry) cherry 1 2 true cherry_fresh = Ok st'
         /\ vis st' 0 = true).
Proof.
  destruct (prior_root_excluded_or_included cherry 2 1 0 cherry_fresh cherry_wf
              eq_refl ltac:(unfold size; simpl; lia) ltac:(lia) eq_refl)
    as [(st' & E & F & T) B].
  split.
  - exists st'. repeat split; [exact E | exact F |].
    apply T. exact cherry_fresh_unshared.
  - apply B. intros [|[|[|[|[|i]]]]]; reflexivity.
Defined.

(** C8, as stated, fails.  On [chain_shared], the chain after
    [posterior_predictive_density] for [x] and [initialize_visit], the
    prior root shares its [mu] tensor with [R] and [D].  The pass from [D]
    with [include_prior = False] leaves the features of the prior root
    alone and yet changes the contents of its [mu], through the in-place
    update of [D.mu]. *)
Lemma shared_prior_tensor_overwritten :
  ~ unshared 0 chain_shared
  /\ tensor chain_shared (mu (feat chain_shared 0)) = [0]
  /\ match perform_message_passing (budget chain) chain 2 1 false chain_shared with
     | Ok st' =>
         feat st' 0 = feat chain_shared 0
         /\ tensor st' (mu (feat chain_shared 0)) <> [0]
     | _ => False
     end.
Proof.
  split; [|split].
  - intros U. specialize (U 1%nat). revert U. run. intros U.
    apply U; [lia | discriminate | reflexivity].
  - run. reflexivity.
  - run. split; [reflexivity|].
    intros E. inversion E as [E1]. clear E. revert E1. lra.
Qed.

Lemma initialize_twice_fresh self evidence d st1 st2 :
  initialize_messages self evidence (barcodes self) d (initialize_visit self st1)
  = initialize_messages self evidence (barcodes self) d (initialize_visit self st2).
Proof.
  unfold initialize_messages.
  destruct (fill_dic [] 0 evidence (barcodes self)) as [dic| |]; simpl; auto.
  do 2 f_equal. apply map_ext. intros i.
  pose proof (initialize_visit_unvisited self st1 i) as V1.
  pose proof (initialize_visit_unvisited self st2 i) as V2.
  unfold vis in V1, V2. rewrite V1, V2. reflexivity.
Qed.

(** The belief for [A] without evidence on the freshly initialised cherry. *)
Lemma belief_on_fresh_cherry :
  belief (posterior_predictive_density cherry "A" None cherry_fresh)
  = Ok ([1 / 2; 1 / 2], 3 / 2).
Proof.
  run. f_equal. apply f_equal2; [|lra].
  apply f_equal2; [lra|]. apply f_equal2; [lra | reflexivity].
Qed.

(** The same call on the cherry as the pass of [forward] left it. *)
Lemma belief_on_used_cherry :
  belief (posterior_predictive_density cherry "A" None cherry_used)
  = Ok ([3 / 5; 3 / 5], 7 / 5).
Proof.
  run. f_equal. apply f_equal2; [|lra].
  apply f_equal2; [lra|]. apply f_equal2; [lra | reflexivity].
Qed.

(** C3, as stated, fails: called without evidence (the default) on the
    cherry, the belief returned for [A] differs between the freshly
    initialised tree and the tree as the pass of [forward] left it. *)
Lemma leftover_messages_reach_belief :
  belief (posterior_predictive_density cherry "A" None cherry_fresh)
  <> belief (posterior_predictive_density cherry "A" None cherry_used).
Proof.
  run. intros H. inversion H as [[H1 H2 H3]]. lra.
Qed.

(** C3, amended.  With evidence supplied, the outcome is the same from
    every prior store.  On a well-formed tree that has the root and the
    query node [q], and with no more evidence rows than barcodes, the call
    is the pass rooted at [q] with the prior included, run on the store
    [st0] that [initialize_visit] and then [initialize_messages] made, in
    which no node is visited; the pass returns, has visited the prior root,
    and the result is [q]'s [(mu, nu)] in the store it leaves.  Without
    evidence the same pass runs on the prior store with only the flags
    reset: every node keeps its [nu], [mu] and [log_z], and every tensor
    its contents. *)
Theorem posterior_runs_pass_from_query self query_node :
  (forall evidence st1 st2,
      posterior_predictive_density self query_node (Some evidence) st1
      = posterior_predictive_density self query_node (Some evidence) st2)
  /\ (forall evidence r q st,
         wf_model self ->
         search self (root self) = Ok r -> search self query_node = Ok q ->
         (length evidence <= length (barcodes self))%nat ->
         exists st0 st',
           initialize_messages self evidence (barcodes self) (n_latent self)
             (initialize_visit self st) = Ok st0
           /\ (forall i, vis st0 i = false)
           /\ perform_message_passing (budget self) self q
                (length (tensor st0 (mu (feat st0 r)))) true st0 = Ok st'
           /\ posterior_predictive_density self query_node (Some evidence) st
              = Ok ((tensor st' (mu (feat st' q)), nu (feat st' q)), st')
           /\ vis st' 0 = true)
  /\ (forall r q st,
         wf_model self ->
         search self (root self) = Ok r -> search self query_node = Ok q ->
         (forall i, (i < size self)%nat ->
                    feat (initialize_visit self st) i = set_visited false (feat st i))
         /\ tensors (initialize_visit self st) = tensors st
         /\ exists st',
              perform_message_passing (budget self) self q
                (length (tensor st (mu (feat st r)))) true (initialize_visit self st)
              = Ok st'
              /\ posterior_predictive_density self query_node None st
                 = Ok ((tensor st' (mu (feat st' q)), nu (feat st' q)), st')
              /\ vis st' 0 = true).
Proof.
  split; [|split].
  - intros evidence st1 st2. unfold posterior_predictive_density.
    now rewrite (initialize_twice_fresh self evidence (n_latent self) st1 st2).
  - intros evidence r q st W Hr Hq He. unfold posterior_predictive_density.
    rewrite Hr; cbn [bind].
    destruct (initialize_messages_runs self evidence (n_latent self)
                (initialize_visit self st) He) as (s1 & E1 & L1 & V1).
    assert (V : forall i, vis s1 i = false).
    { intros i. destruct (V1 i) as [Hi|Hi].
      - rewrite Hi. apply initialize_visit_unvisited.
      - unfold vis, feat. rewrite nth_overflow; [reflexivity | lia]. }
    rewrite E1; cbn [bind]. rewrite Hq; cbn [bind].
    destruct (pass_with_prior_visits self
                (length (tensor s1 (mu (feat s1 r)))) q s1 W
                (search_range self _ _ Hq) L1 V) as (st' & E' & V').
    exists s1, st'. rewrite E'; cbn [bind]. repeat split; auto.
  - intros r q st W Hr Hq.
    split; [intros i Hi; now apply initialize_visit_feat|].
    split; [reflexivity|].
    assert (D : tensor (initialize_visit self st)
                  (mu (feat (initialize_visit self st) r))
                = tensor st (mu (feat st r))).
    { rewrite initialize_visit_feat by (eapply search_range; eauto). reflexivity. }
    destruct (pass_with_prior_visits self
                (length (tensor st (mu (feat st r)))) q (initialize_visit self st) W
                (search_range self _ _ Hq) (initialize_visit_length self st)
                (initialize_visit_unvisited self st)) as (st' & E' & V').
    exists st'. split; [exact E'|]. split; [|exact V'].
    unfold posterior_predictive_density. rewrite Hr; cbn [bind].
    rewrite Hq; cbn [bind]. rewrite D, E'. reflexivity.
Qed.

(** The amended C3 on the cherry, query node [A]: with the evidence
    [A = (0, 0)], [B = (1, 1)], and without evidence on the store that the
    pass of [forward] left. *)
Lemma posterior_on_cherry :
  (exists st0 st',
      initialize_messages cherry [[0; 0]; [1; 1]] (barcodes cherry) (n_latent cherry)
        (initialize_visit cherry (blank 4)) = Ok st0
      /\ (forall i, vis st0 i = false)
      /\ perform_message_passing (budget cherry) cherry 2
           (length (tensor st0 (mu (feat st0 1)))) true st0 = Ok st'
      /\ posterior_predictive_density cherry "A" (Some [[0; 0]; [1; 1]]) (blank 4)
         = Ok ((tensor st' (mu (feat st' 2)), nu (feat st' 2)), st')
      /\ vis st' 0 = true)
  /\ (exists st',
         perform_message_passing (budget cherry) cherry 2
           (length (tensor cherry_used (mu (feat cherry_used 1)))) true
           (initialize_visit cherry cherry_used) = Ok st'
         /\ posterior_predictive_density cherry "A" None cherry_used
            = Ok ((tensor st' (mu (feat st' 2)), nu (feat st' 2)), st')
         /\ vis st' 0 = true).
Proof.
  destruct (posterior_runs_pass_from_query cherry "A") as (_ & S & N).
  split.
  - apply (S [[0; 0]; [1; 1]] 1%nat 2%nat (blank 4) cherry_wf eq_refl eq_refl).
    simpl; lia.
  - apply (N 1%nat 2%nat cherry_used cherry_wf eq_refl eq_refl).
Defined.

Lemma star_fresh_initialised :
  initialize_messages star [[0]; [1]; [3]] (barcodes star) (n_latent star)
    (initialize_visit star (blank 5)) = Ok star_fresh.
Proof. reflexivity. Qed.

Lemma cherry_links : wf_links cherry.
Proof.
  intros [|[|[|[|x]]]] q Hx U; simpl in U; try discriminate;
    try (injection U as <-; simpl; auto).
  unfold size in Hx; simpl in Hx; lia.
Qed.

Lemma cherry_fresh_variances : variances cherry_fresh.
Proof. intros [|[|[|[|[|i]]]]]; simpl; lra. Qed.

Lemma cherry_leaves x i :
  (x < size cherry)%nat -> (i < 2)%nat ->
  nth i (barcodes cherry) ""%string = name (node_at cherry x) ->
  (length (incident cherry x) <= 1)%nat.
Proof.
  intros Hx Hi. unfold size in Hx. simpl in Hx.
  destruct x as [|[|[|[|x]]]]; try lia;
    destruct i as [|[|i]]; try lia; simpl; intros E; try discriminate; lia.
Qed.

(** ** Calls that find no unvisited neighbour *)

Lemma collect_messages_none visit prior_node include_prior incident_nodes st inc :
  Forall (fun y => admitted prior_node include_prior st y = false) incident_nodes ->
  collect_messages visit prior_node include_prior incident_nodes st inc = Ok (st, inc).
Proof.
  induction 1 as [|y l Hy _ IH]; simpl; [reflexivity|].
  unfold admitted in Hy. now rewrite Hy.
Qed.

Lemma upd_nth_same {A : Type} (i : nat) (d : A) (l : list A) :
  upd i (nth i l d) l = l.
Proof.
  revert i; induction l as [|x l IH]; intros [|i]; simpl; auto. now rewrite IH.
Qed.

Lemma mark_visited i st : vis st i = true -> mark i st = st.
Proof.
  intros H. unfold mark, upd_feat, vis in *. destruct st as [fs ts]. simpl in *.
  f_equal. unfold feat in *. simpl in *.
  replace (set_visited true (nth i fs no_features)) with (nth i fs no_features).
  - apply upd_nth_same.
  - destruct (nth i fs no_features); simpl in *. now subst.
Qed.

(** X1.  A call on a node whose neighbours are all visited already, or are the
    prior root when that is left out, only raises the node's [visited]
    flag: this is what happens at a leaf reached from its parent.  When the
    node itself is visited already the store is left as it is. *)
Theorem pass_without_unvisited_neighbour fuel self root_node d include_prior st p :
  search self (prior_root self) = Ok p ->
  (forall y, In y (incident self root_node) ->
             vis st y = true \/ (y = p /\ include_prior = false)) ->
  perform_message_passing (S fuel) self root_node d include_prior st
  = Ok (mark root_node st)
  /\ (vis st root_node = true ->
      perform_message_passing (S fuel) self root_node d include_prior st = Ok st).
Proof.
  intros Hp H.
  assert (E : perform_message_passing (S fuel) self root_node d include_prior st
              = Ok (mark root_node st)).
  { simpl. rewrite Hp. cbn [bind]. fold (mark root_node st).
    rewrite collect_messages_none; [reflexivity|].
    apply Forall_forall. intros y Hy. unfold admitted.
    destruct (H y Hy) as [V|[-> ->]].
    - apply (vis_mark_mono root_node) in V. unfold vis in V. now rewrite V.
    - rewrite Nat.eqb_refl. simpl. apply andb_false_r. }
  split; [exact E|]. intros V. rewrite E. now rewrite mark_visited.
Qed.

(** X1 at an instance.  A leaf of the cherry called after its parent. *)
Lemma leaf_call_on_cherry :
  perform_message_passing 1 cherry 2 2 false (mark 1 cherry_fresh)
  = Ok (mark 2 (mark 1 cherry_fresh))
  /\ (vis (mark 1 cherry_fresh) 2 = true ->
      perform_message_passing 1 cherry 2 2 false (mark 1 cherry_fresh)
      = Ok (mark 1 cherry_fresh)).
Proof.
  apply (pass_without_unvisited_neighbour 0 cherry 2 2 false (mark 1 cherry_fresh) 0).
  - reflexivity.
  - intros y [<-|[]]. left. reflexivity.
Defined.

(** ** The belief that the branch [n >= 2] leaves *)

Lemma map_nth_seq {A B : Type} (f : A -> B) (l : list A) (d : A) :
  map (fun x => f (nth x l d)) (seq 0 (length l)) = map f l.
Proof.
  induction l as [|a l IH]; simpl; [reflexivity|].
  f_equal. rewrite <- seq_shift, map_map. exact IH.
Qed.

Lemma merge_loop_state root_node incoming st0 :
  ~ In root_node incoming ->
  (root_node < length (feats st0))%nat ->
  (forall k, In k incoming -> mu (feat st0 k) <> mu (feat st0 root_node)) ->
  forall m i st cnu cmu,
    modifies_in_place root_node st0 st ->
    length (tensors st) = length (tensors st0) ->
    (i + m <= length incoming)%nat ->
    length cnu = length incoming -> length cmu = length incoming ->
    let st' := fst (fst (fold_left (merge_step root_node incoming) (seq i m)
                                   (st, cnu, cmu))) in
    let r := mu (feat st0 root_node) in
    length (tensors st') = length (tensors st0)
    /\ nu (feat st' root_node)
       = fold_left Rplus
           (map (fun x => message_precision st0 (nth x incoming 0%nat)) (seq i m))
           (nu (feat st root_node))
    /\ ((r < length (tensors st0))%nat ->
        tensor st' r
        = fold_left vadd
            (map (fun x => message_mean st0 (nth x incoming 0%nat)) (seq i m))
            (tensor st r)).
Proof.
  intros Hnot Hr Hmu; induction m as [|m IH]; intros i st cnu cmu M LT Hi Lnu Lmu;
    cbv zeta.
  - simpl. auto.
  - cbn [seq fold_left map].
    pose proof (merge_step_modifies root_node incoming (st, cnu, cmu) i) as M1.
    destruct (merge_step root_node incoming (st, cnu, cmu) i) as [[st1 cnu1] cmu1] eqn:E.
    simpl in M1.
    assert (Hk : nth i incoming 0%nat <> root_node).
    { intros Hk. apply Hnot. rewrite <- Hk. apply nth_In. lia. }
    assert (Hin : In (nth i incoming 0%nat) incoming) by (apply nth_In; lia).
    pose proof M as [(LF & O & _ & T) Mr].
    assert (Hroot : (root_node < length (feats st))%nat) by lia.
    unfold merge_step in E. cbv zeta in E. injection E as E1 E2 E3.
    symmetry in E1, E2, E3.
    set (k := nth i incoming 0%nat) in *.
    set (c := nu (feat st k) + 1) in *.
    assert (Hc : nth i (upd i c cnu) 0 = c) by (apply nth_upd_same; lia).
    rewrite Hc in *.
    set (sta := upd_feat root_node (fun f => set_nu (nu f + 1 / c) f) st) in *.
    assert (Hmua : mu (feat sta root_node) = mu (feat st0 root_node)).
    { unfold sta. rewrite feat_upd_feat_same by exact Hroot. simpl. exact Mr. }
    assert (Hka : feat sta k = feat st0 k).
    { unfold sta. rewrite feat_upd_feat_other by congruence. now apply O. }
    assert (Hta : tensor sta (mu (feat sta k)) = tensor st0 (mu (feat st0 k))).
    { rewrite Hka. unfold sta. rewrite tensor_upd_feat. apply T. now apply Hmu. }
    assert (Hcm : nth i (upd i (vdiv (tensor sta (mu (feat sta k))) c) cmu) []
                  = message_mean st0 k).
    { rewrite nth_upd_same by lia. rewrite Hta. unfold message_mean, c.
      now rewrite (O k Hk). }
    rewrite Hcm, Hmua in E1.
    assert (Hc' : 1 / c = message_precision st0 k).
    { unfold message_precision, c. now rewrite (O k Hk). }
    destruct (IH (S i) st1 cnu1 cmu1) as (LT1 & N1 & T1).
    + eapply modifies_in_place_trans; eauto.
    + subst st1. unfold set_tensor; simpl. now rewrite upd_length.
    + lia.
    + subst cnu1. now rewrite upd_length.
    + subst cmu1. now rewrite upd_length.
    + split; [exact LT1|]. split.
      * rewrite N1. f_equal. subst st1. rewrite feat_set_tensor. unfold sta.
        rewrite feat_upd_feat_same by exact Hroot. simpl. now rewrite Hc'.
      * intros Hlt. rewrite (T1 Hlt). f_equal. subst st1.
        rewrite tensor_set_tensor_same by (unfold sta; simpl; lia).
        reflexivity.
Qed.

Lemma fold_left_Rplus l a : fold_left Rplus l a = a + sum_R l.
Proof.
  revert a; induction l as [|x l IH]; intros a; simpl; [ring|]. rewrite IH. ring.
Qed.

(** X2.  The belief that the branch [n >= 2] leaves on the node: the new [nu] is
    the inverse of the node's former [nu] plus the precisions of the
    messages, and the [mu] tensor, updated in place, is the former [mu]
    plus the scaled means of the messages, times the new [nu].  The node's
    former values enter both: they are 0 right after [initialize_messages].
    No message is the node itself or shares its tensor. *)
Theorem merge_messages_belief root_node d incoming st :
  (root_node < length (feats st))%nat ->
  (mu (feat st root_node) < length (tensors st))%nat ->
  ~ In root_node incoming ->
  (forall k, In k incoming -> mu (feat st k) <> mu (feat st root_node)) ->
  let st' := merge_messages root_node d incoming st in
  let nu' := 1 / (nu (feat st root_node)
                  + sum_R (map (message_precision st) incoming)) in
  mu (feat st' root_node) = mu (feat st root_node)
  /\ nu (feat st' root_node) = nu'
  /\ tensor st' (mu (feat st root_node))
     = vscale (fold_left vadd (map (message_mean st) incoming)
                         (tensor st (mu (feat st root_node))))
              nu'.
Proof.
  intros Hr Hlt Hnot Hmu. cbv zeta.
  unfold merge_messages.
  destruct (merge_loop_state root_node incoming st Hnot Hr Hmu (length incoming)
              0%nat st (repeat 0 (length incoming)) (repeat [] (length incoming)))
    as (LT & N & T);
    [apply modifies_in_place_refl | reflexivity | lia
     | apply repeat_length | apply repeat_length |].
  specialize (T Hlt).
  pose proof (merge_loop_modifies root_node incoming (seq 0 (length incoming))
                (st, repeat 0 (length incoming), repeat [] (length incoming))) as M.
  destruct (fold_left (merge_step root_node incoming) _ _) as [[st1 cnu] cmu].
  simpl in LT, N, T, M.
  rewrite (map_nth_seq (message_precision st)) in N.
  rewrite (map_nth_seq (message_mean st)) in T.
  rewrite fold_left_Rplus in N.
  destruct M as [(LF & O & _ & _) Mr].
  assert (Hr1 : (root_node < length (feats st1))%nat) by lia.
  set (st1' := upd_feat root_node (fun f => set_nu (1 / nu f) f) st1).
  assert (F1 : feat st1' root_node = set_nu (1 / nu (feat st1 root_node)) (feat st1 root_node)).
  { unfold st1'. now rewrite feat_upd_feat_same. }
  set (st2 := set_tensor (mu (feat st1' root_node)) _ st1').
  assert (F2 : feat st2 root_node = feat st1' root_node) by reflexivity.
  rewrite feat_upd_feat_same by (unfold st2, st1'; simpl; rewrite upd_length; exact Hr1).
  simpl. rewrite F2, F1. simpl. rewrite Mr, N.
  split; [reflexivity|]. split; [reflexivity|].
  rewrite tensor_upd_feat. unfold st2. rewrite F1. simpl. rewrite Mr.
  rewrite tensor_set_tensor_same by (unfold st1'; simpl; lia).
  unfold st1'. rewrite tensor_upd_feat, T, N. reflexivity.
Qed.

(** X2 at an instance.  The belief on the store of two uneven messages. *)
Lemma merge_belief_on_uneven_store :
  mu (feat (merge_messages 0 2 [1; 2]%nat uneven_store) 0) = mu (feat uneven_store 0)
  /\ nu (feat (merge_messages 0 2 [1; 2]%nat uneven_store) 0)
     = 1 / (nu (feat uneven_store 0)
            + sum_R (map (message_precision uneven_store) [1; 2]%nat))
  /\ tensor (merge_messages 0 2 [1; 2]%nat uneven_store) (mu (feat uneven_store 0))
     = vscale (fold_left vadd (map (message_mean uneven_store) [1; 2]%nat)
                         (tensor uneven_store (mu (feat uneven_store 0))))
              (1 / (nu (feat uneven_store 0)
                    + sum_R (map (message_precision uneven_store) [1; 2]%nat))).
Proof.
  apply (merge_messages_belief 0 2 [1; 2]%nat uneven_store).
  - simpl; lia.
  - simpl; lia.
  - simpl; intros [E|[E|[]]]; discriminate.
  - simpl; intros k [<-|[<-|[]]]; simpl; lia.
Defined.

(** ** [log_z] in closed form *)

(** X3.  With two incoming messages of any variances [v1], [v2 >= 0], [log_z] is
    the log-partition value of the product of the two Gaussians after the
    unit edges: for two messages the loop of [Z_3] is right. *)
Theorem two_child_any_variances root_node d k1 k2 st st' v1 v2 :
  0 <= v1 -> 0 <= v2 ->
  nu (feat st k1) = v1 -> nu (feat st k2) = v2 ->
  (root_node < length (feats st))%nat ->
  root_node <> k1 -> root_node <> k2 ->
  mu (feat st k1) <> mu (feat st root_node) ->
  mu (feat st k2) <> mu (feat st root_node) ->
  combine_messages root_node d [k1; k2] st = Ok st' ->
  log_z (feat st' root_node)
  = two_gaussian_log_partition d (v1 + 1) (v2 + 1)
      (tensor st (mu (feat st k1))) (tensor st (mu (feat st k2))).
Proof.
  intros Hv1 Hv2 N1 N2 Hr R1 R2 M1 M2 H.
  unfold combine_messages in H; simpl in H. inversion H; subst st'; clear H.
  rewrite merge_messages_log_z.
  - simpl map. rewrite N1, N2. simpl length.
    unfold find_t, Z3_loop, two_gaussian_log_partition.
    cbv [seq fold_left Z3_outer Z3_inner product_without enumerate combine length
         existsb fst snd Nat.eqb orb nth].
    rewrite sum_sq_diff_same.
    rewrite (sum_sq_diff_sym (tensor st (mu (feat st k2)))).
    replace (0 + 1 * (v2 + 1) + 1 * (v1 + 1)) with (v1 + 1 + (v2 + 1)) by ring.
    rewrite (ln_mult (2 * PI) (v1 + 1 + (v2 + 1))) by (pose proof PI_RGT_0; lra).
    replace (INR 2) with 2 by (simpl; lra).
    replace (-0.5) with (- / 2) by lra.
    field. lra.
  - exact Hr.
  - simpl; intros [E|[E|[]]]; congruence.
  - simpl; intros k [<-|[<-|[]]]; assumption.
Qed.

(** X3 at an instance.  Variances 1 and 3, means [(0, 0)] and [(2, 2)]. *)
Lemma two_child_on_uneven_store :
  log_z (feat (merge_messages 0 2 [1; 2]%nat uneven_store) 0)
  = two_gaussian_log_partition 2 (1 + 1) (3 + 1) [0; 0] [2; 2].
Proof.
  apply (two_child_any_variances 0 2 1 2 uneven_store
           (merge_messages 0 2 [1; 2]%nat uneven_store) 1 3);
    try reflexivity; try lra; simpl; lia.
Defined.

Lemma sum_R_map_ext {A : Type} (f g : A -> R) (l : list A) :
  (forall x, In x l -> f x = g x) -> sum_R (map f l) = sum_R (map g l).
Proof.
  induction l as [|a l IH]; intros H; simpl; [reflexivity|].
  rewrite (H a) by now left. rewrite IH; [reflexivity|].
  intros x Hx. apply H. now right.
Qed.

(** X4.  For [n >= 2] incoming messages, the third term of [log_z] holds one
    squared distance per message other than the last: the distance to the
    last message, weighted by the product of the other [children_nu].  No
    other pair of messages enters.  No message is the node itself or shares
    its tensor. *)
Theorem log_z_pairs_with_last_message root_node d incoming st st' :
  (root_node < length (feats st))%nat ->
  ~ In root_node incoming ->
  (forall k, In k incoming -> mu (feat st k) <> mu (feat st root_node)) ->
  (2 <= length incoming)%nat ->
  combine_messages root_node d incoming st = Ok st' ->
  let n := length incoming in
  let children_nu := map (fun k => nu (feat st k) + 1) incoming in
  let mus := map (fun k => tensor st (mu (feat st k))) incoming in
  let t := find_t children_nu n in
  log_z (feat st' root_node)
  = -0.5 * (INR n - 1) * INR d * ln (2 * PI)
    + -0.5 * INR d * ln t
    + sum_R (map (fun j =>
                    product_without children_nu [j; (n - 1)%nat]
                    * sum_sq_diff (nth (n - 1) mus []) (nth j mus []))
                 (seq 0 (n - 1)))
      * (-0.5 / t).
Proof.
  intros Hr Hnot Hmu Hn H n children_nu mus t.
  unfold combine_messages in H. fold n in H.
  destruct (Nat.eqb_spec n 0); [lia|]. destruct (Nat.eqb_spec n 1); [lia|].
  destruct (Nat.leb_spec 2 n); [|lia]. inversion H; subst st'; clear H.
  rewrite merge_messages_log_z_sum by assumption.
  fold n children_nu mus t. do 2 f_equal.
  assert (En : seq 0 n = seq 0 (n - 1) ++ [(n - 1)%nat]).
  { replace n with (S (n - 1)) at 1 by lia. now rewrite seq_S. }
  rewrite En, map_app. simpl.
  rewrite Nat.eqb_refl, sum_sq_diff_same.
  assert (E : forall l, sum_R (l ++ [product_without children_nu
                                       [(n - 1)%nat; (n - 2)%nat] * 0])
                        = sum_R l).
  { induction l as [|x l IH]; simpl; [ring | now rewrite IH]. }
  rewrite E. apply sum_R_map_ext. intros j Hj. apply in_seq in Hj.
  destruct (Nat.eqb_spec j (n - 1)); [lia | reflexivity].
Qed.

(** X4 at an instance.  The root of the star on the evidence 0, 1, 3. *)
Lemma log_z_on_star :
  log_z (feat (merge_messages 1 1 [2; 3; 4]%nat star_fresh) 1)
  = -0.5 * (INR 3 - 1) * INR 1 * ln (2 * PI)
    + -0.5 * INR 1 * ln (find_t [0 + 1; 0 + 1; 0 + 1] 3)
    + sum_R (map (fun j =>
                    product_without [0 + 1; 0 + 1; 0 + 1] [j; 2%nat]
                    * sum_sq_diff (nth 2 [[0]; [1]; [3]] []) (nth j [[0]; [1]; [3]] []))
                 [0; 1]%nat)
      * (-0.5 / find_t [0 + 1; 0 + 1; 0 + 1] 3).
Proof.
  apply (log_z_pairs_with_last_message 1 1 [2; 3; 4]%nat star_fresh
           (merge_messages 1 1 [2; 3; 4]%nat star_fresh)).
  - simpl; lia.
  - simpl; intros [E|[E|[E|[]]]]; discriminate.
  - simpl; intros k [<-|[<-|[<-|[]]]]; simpl; lia.
  - simpl; lia.
  - reflexivity.
Defined.

(** ** Variances stay non-negative *)

Lemma feat_upd_feat_cases i j g st :
  feat (upd_feat i g st) j = feat st j
  \/ (j = i /\ feat (upd_feat i g st) j = g (feat st i)).
Proof.
  destruct (Nat.eq_dec i j) as [->|H].
  - destruct (Nat.lt_ge_cases j (length (feats st))) as [L|L].
    + right. split; [reflexivity | now apply feat_upd_feat_same].
    + left. now rewrite upd_feat_out.
  - left. now apply feat_upd_feat_other.
Qed.

Lemma variances_upd_feat i g st :
  variances st -> 0 <= nu (g (feat st i)) -> variances (upd_feat i g st).
Proof.
  intros V H j. destruct (feat_upd_feat_cases i j g st) as [->|[_ ->]]; auto.
Qed.

Lemma inv_nonneg x : 0 < x -> 0 <= 1 / x.
Proof.
  intros H. unfold Rdiv. rewrite Rmult_1_l. left. now apply Rinv_0_lt_compat.
Qed.

Lemma merge_loop_variances root_node incoming :
  forall l st cnu cmu,
    variances st -> length cnu = length incoming ->
    Forall (fun i => (i < length incoming)%nat) l ->
    let acc := fold_left (merge_step root_node incoming) l (st, cnu, cmu) in
    variances (fst (fst acc))
    /\ nu (feat st root_node) <= nu (feat (fst (fst acc)) root_node)
    /\ (l <> [] -> (root_node < length (feats st))%nat ->
        nu (feat st root_node) < nu (feat (fst (fst acc)) root_node)).
Proof.
  induction l as [|i l IH]; intros st cnu cmu V L F; cbv zeta.
  - simpl. split; [exact V|]. split; [lra | congruence].
  - cbn [fold_left].
    inversion F as [|? ? Hi F']; subst.
    destruct (merge_step root_node incoming (st, cnu, cmu) i) as [[st1 cnu1] cmu1] eqn:E.
    unfold merge_step in E. cbv zeta in E. injection E as E1 E2 E3.
    symmetry in E1, E2, E3.
    set (k := nth i incoming 0%nat) in *.
    set (c := nu (feat st k) + 1) in *.
    assert (Hc : nth i (upd i c cnu) 0 = c) by (apply nth_upd_same; lia).
    rewrite Hc in *.
    assert (Hc0 : 0 < c) by (unfold c; pose proof (V k); lra).
    assert (Hp : 0 < 1 / c).
    { unfold Rdiv. rewrite Rmult_1_l. now apply Rinv_0_lt_compat. }
    set (sta := upd_feat root_node (fun f => set_nu (nu f + 1 / c) f) st) in *.
    assert (Va : variances sta).
    { apply variances_upd_feat; [exact V|]. simpl. pose proof (V root_node). lra. }
    assert (V1 : variances st1) by (subst st1; exact Va).
    assert (Hn1 : nu (feat st root_node) <= nu (feat st1 root_node)
                  /\ ((root_node < length (feats st))%nat ->
                      nu (feat st root_node) < nu (feat st1 root_node))).
    { subst st1. rewrite feat_set_tensor. unfold sta.
      destruct (Nat.lt_ge_cases root_node (length (feats st))) as [Hlt|Hge].
      - rewrite feat_upd_feat_same by exact Hlt. simpl. split; [lra | intros _; lra].
      - rewrite upd_feat_out by exact Hge. split; [lra | intros Hlt; lia]. }
    destruct (IH st1 cnu1 cmu1 V1) as (V2 & N2 & _);
      [subst cnu1; now rewrite upd_length | exact F' |].
    split; [exact V2|]. destruct Hn1 as [Hle Hlt]. split; [lra|].
    intros _ Hroot. specialize (Hlt Hroot). lra.
Qed.

Lemma variances_merge_messages root_node d incoming st :
  variances st -> incoming <> [] -> (root_node < length (feats st))%nat ->
  variances (merge_messages root_node d incoming st).
Proof.
  intros V Hne Hr. unfold merge_messages.
  destruct (merge_loop_variances root_node incoming (seq 0 (length incoming)) st
              (repeat 0 (length incoming)) (repeat [] (length incoming)) V)
    as (V1 & N1 & P1);
    [apply repeat_length | apply Forall_forall; intros i Hi; apply in_seq in Hi; lia |].
  assert (Hseq : seq 0 (length incoming) <> [])
    by (destruct incoming; [congruence | discriminate]).
  specialize (P1 Hseq Hr).
  destruct (fold_left (merge_step root_node incoming) _ _) as [[st1 cnu] cmu].
  simpl in V1, N1, P1.
  apply variances_upd_feat; [|simpl].
  - intros j. rewrite feat_set_tensor. revert j.
    apply variances_upd_feat; [exact V1|]. simpl.
    apply inv_nonneg. pose proof (V root_node). lra.
  - rewrite feat_set_tensor.
    assert (V1' : variances (upd_feat root_node (fun f => set_nu (1 / nu f) f) st1)).
    { apply variances_upd_feat; [exact V1|]. simpl.
      apply inv_nonneg. pose proof (V root_node). lra. }
    apply V1'.
Qed.

Lemma variances_combine root_node d incoming st st' :
  variances st -> (root_node < length (feats st))%nat ->
  combine_messages root_node d incoming st = Ok st' -> variances st'.
Proof.
  intros V Hr H. unfold combine_messages in H.
  destruct (length incoming =? 0)%nat eqn:E0; [now inversion H; subst|].
  destruct (length incoming =? 1)%nat eqn:E1.
  - inversion H; subst st'; clear H.
    apply variances_upd_feat; [|simpl].
    + apply variances_upd_feat; [|simpl].
      * apply variances_upd_feat; [exact V|]. simpl.
        pose proof (V (nth 0 incoming 0%nat)). lra.
      * assert (V1 : variances (upd_feat root_node
                      (set_nu (nu (feat st (nth 0 incoming 0%nat)) + 1)) st)).
        { apply variances_upd_feat; [exact V|]. simpl.
          pose proof (V (nth 0 incoming 0%nat)). lra. }
        apply V1.
    + set (s2 := upd_feat root_node _ (upd_feat root_node _ st)).
      assert (V2 : variances s2).
      { unfold s2. apply variances_upd_feat.
        - apply variances_upd_feat; [exact V|]. simpl.
          pose proof (V (nth 0 incoming 0%nat)). lra.
        - simpl.
          assert (V1 : variances (upd_feat root_node
                        (set_nu (nu (feat st (nth 0 incoming 0%nat)) + 1)) st)).
          { apply variances_upd_feat; [exact V|]. simpl.
            pose proof (V (nth 0 incoming 0%nat)). lra. }
          apply V1. }
      apply V2.
  - destruct (2 <=? length incoming)%nat; [|discriminate].
    inversion H; subst st'. apply variances_merge_messages; auto.
    destruct incoming; [discriminate | congruence].
Qed.

(** X5.  The pass keeps every [nu] non-negative: started on a store of
    variances, as [initialize_messages] leaves one, it ends on a store of
    variances. *)
Theorem pass_keeps_variances self d include_prior :
  wf_model self ->
  forall fuel root_node st st',
    (root_node < size self)%nat -> length (feats st) = size self ->
    variances st ->
    perform_message_passing fuel self root_node d include_prior st = Ok st' ->
    variances st'.
Proof.
  intros W; induction fuel as [|fuel IH]; intros root_node st st' Hr L V H;
    simpl in H; [discriminate|].
  destruct (search self (prior_root self)) as [p| |]; simpl in H; try discriminate.
  destruct (collect_messages _ _ _ _ _ _) as [[s1 inc]| |] eqn:E; simpl in H;
    try discriminate.
  apply (collect_messages_rel
           (fun s s' => length (feats s) = size self -> variances s ->
                        length (feats s') = size self /\ variances s')
           (fun y => (y < size self)%nat)) in E.
  - destruct E as [R _].
    destruct R as [L1 V1].
    + now rewrite feats_upd_feat_length.
    + apply variances_upd_feat; [exact V | simpl; apply V].
    + apply (variances_combine root_node d inc s1 st' V1); [lia | exact H].
  - intros s; auto.
  - intros a b c Hab Hbc La Va. destruct (Hab La Va) as [Lb Vb]. now apply Hbc.
  - intros node s s' Hn _ _ Hv Ls Vs. split.
    + apply perform_message_passing_grows in Hv. destruct Hv as [Hl _]. lia.
    + now apply (IH node s s').
  - apply Forall_forall. intros y Hy.
    apply (incident_in_range self root_node y W Hr Hy).
Qed.

(** X5 at an instance.  The cherry after the pass of [forward]. *)
Lemma variances_after_forward_on_cherry : variances cherry_used.
Proof.
  apply (pass_keeps_variances cherry 2 false cherry_wf (budget cherry) 1
           cherry_fresh cherry_used).
  - unfold size; simpl; lia.
  - reflexivity.
  - exact cherry_fresh_variances.
  - reflexivity.
Defined.

Lemma product_without_pos (L : list R) exclude :
  Forall (fun c => 0 < c) L -> 0 < product_without L exclude.
Proof.
  intros F. unfold product_without, enumerate.
  assert (G : forall (l : list (nat * R)) a,
             0 < a -> Forall (fun ix => 0 < snd ix) l ->
             0 < fold_left (fun prod ix =>
                              if existsb (Nat.eqb (fst ix)) exclude then prod
                              else prod * snd ix) l a).
  { induction l as [|x l IH]; intros a Ha Hl; simpl; [exact Ha|].
    inversion Hl; subst. apply IH; [|assumption].
    destruct (existsb _ _); [exact Ha | now apply Rmult_lt_0_compat]. }
  apply G; [lra|].
  apply Forall_forall. intros [i x] Hin. apply in_combine_r in Hin. simpl.
  exact (proj1 (Forall_forall _ _) F x Hin).
Qed.

Lemma find_t_pos (children_nu : list R) n :
  Forall (fun c => 0 < c) children_nu -> (1 <= n)%nat -> 0 < find_t children_nu n.
Proof.
  intros F Hn. unfold find_t.
  assert (G : forall l a, 0 <= a -> l <> [] ->
             0 < fold_left (fun t e => t + product_without children_nu [e]) l a).
  { induction l as [|e l IH]; intros a Ha Hl; [congruence|]. simpl.
    pose proof (product_without_pos children_nu [e] F) as P.
    destruct l as [|e' l]; [simpl; lra|].
    apply IH; [lra | discriminate]. }
  apply G; [lra|]. destruct n; [lia | discriminate].
Qed.

(** X6.  On variances, nothing that the branch [n >= 2] divides by or takes the
    logarithm of is 0: not [children_nu[i]] (lines 194 and 196), not the
    sum that line 199 inverts, not [t] (lines 227 and 241). *)
Theorem merge_divisors_positive root_node incoming st :
  variances st -> incoming <> [] ->
  let children_nu := map (fun k => nu (feat st k) + 1) incoming in
  Forall (fun c => 1 <= c) children_nu
  /\ 0 < nu (feat st root_node) + sum_R (map (message_precision st) incoming)
  /\ 0 < find_t children_nu (length incoming).
Proof.
  intros V Hne children_nu.
  assert (F : Forall (fun c => 1 <= c) children_nu).
  { apply Forall_forall. intros c Hc. apply in_map_iff in Hc.
    destruct Hc as (k & <- & _). pose proof (V k). lra. }
  split; [exact F|]. split.
  - pose proof (V root_node) as Hroot.
    assert (G : 0 < sum_R (map (message_precision st) incoming)); [|lra].
    destruct incoming as [|k incoming]; [congruence|]. simpl.
    assert (P : forall k, 0 < message_precision st k).
    { intros k'. unfold message_precision, Rdiv. rewrite Rmult_1_l.
      apply Rinv_0_lt_compat. pose proof (V k'). lra. }
    assert (Q : 0 <= sum_R (map (message_precision st) incoming)).
    { clear - P. induction incoming as [|x l IH]; simpl; [lra|].
      pose proof (P x). lra. }
    pose proof (P k). lra.
  - apply find_t_pos.
    + revert F. apply Forall_impl. intros c Hc. lra.
    + destruct incoming; [congruence | simpl; lia].
Qed.

(** X6 at an instance.  The divisors on the store of two uneven messages. *)
Lemma divisors_on_uneven_store :
  Forall (fun c => 1 <= c) (map (fun k => nu (feat uneven_store k) + 1) [1; 2]%nat)
  /\ 0 < nu (feat uneven_store 0)
         + sum_R (map (message_precision uneven_store) [1; 2]%nat)
  /\ 0 < find_t (map (fun k => nu (feat uneven_store k) + 1) [1; 2]%nat) 2.
Proof.
  apply (merge_divisors_positive 0 [1; 2]%nat uneven_store).
  - intros [|[|[|[|i]]]]; simpl; lra.
  - discriminate.
Defined.

(** ** The nodes that a pass visits *)

Lemma collect_messages_covers visit prior_node include_prior :
  (forall node s s', visit node s = Ok s' ->
     (node < length (feats s))%nat -> grows s s' /\ vis s' node = true) ->
  forall incident_nodes s inc s' inc',
    Forall (fun y => (y < length (feats s))%nat) incident_nodes ->
    collect_messages visit prior_node include_prior incident_nodes s inc
      = Ok (s', inc') ->
    grows s s'
    /\ Forall (fun y => vis s' y = true
                        \/ (include_prior = false /\ y = prior_node))
              incident_nodes.
Proof.
  intros Hvisit.
  induction incident_nodes as [|node rest IH]; intros s inc s' inc' HQ H; simpl in H.
  - inversion H; subst; split; [apply grows_refl | constructor].
  - inversion HQ as [|? ? HQn HQr]; subst.
    destruct (visited (feat s node)) eqn:V; simpl in H.
    + destruct (IH _ _ _ _ HQr H) as [G A]. split; [exact G|].
      constructor; [left; apply G; exact V | exact A].
    + destruct (negb (node =? prior_node)%nat
                || ((node =? prior_node)%nat && include_prior)) eqn:B.
      * destruct (visit node s) as [s1| |] eqn:E; simpl in H; try discriminate.
        destruct (Hvisit _ _ _ E HQn) as [G1 V1].
        assert (HQr' : Forall (fun y => (y < length (feats s1))%nat) rest).
        { destruct G1 as [L1 _]. rewrite L1. exact HQr. }
        destruct (IH _ _ _ _ HQr' H) as [G A].
        split; [eapply grows_trans; eauto|].
        constructor; [left; apply G; exact V1 | exact A].
      * destruct (IH _ _ _ _ HQr H) as [G A]. split; [exact G|].
        constructor; [|exact A]. right.
        destruct (Nat.eqb_spec node prior_node) as [->|]; [|discriminate].
        simpl in B. now split.
Qed.

Lemma saturated_same_flags self p include_prior stack st st' :
  (forall i, vis st' i = vis st i) ->
  saturated self p include_prior stack st -> saturated self p include_prior stack st'.
Proof.
  intros E C x Hx Hv. rewrite E in Hv. destruct (C x Hx Hv) as [H|H]; [now left|].
  right. intros y Hy. rewrite E. now apply H.
Qed.

Lemma perform_message_passing_saturated self d include_prior p :
  wf_model self -> search self (prior_root self) = Ok p ->
  forall fuel root_node stack st st',
    (root_node < size self)%nat ->
    perform_message_passing fuel self root_node d include_prior st = Ok st' ->
    keeps_saturated self p include_prior stack st st'.
Proof.
  intros W Hp; induction fuel as [|fuel IH]; intros root_node stack st st' Hr H L;
    simpl in H; [discriminate|].
  rewrite Hp in H; simpl in H.
  fold (mark root_node st) in H.
  destruct (collect_messages _ _ _ _ _ _) as [[s1 inc]| |] eqn:E; simpl in H;
    try discriminate.
  assert (Lm : length (feats (mark root_node st)) = size self)
    by (unfold mark; now rewrite feats_upd_feat_length).
  assert (Hinc : Forall (fun y => (y < size self)%nat) (incident self root_node))
    by (apply Forall_forall; intros y Hy; eapply incident_in_range; eauto).
  pose proof E as E2.
  apply (collect_messages_rel (keeps_saturated self p include_prior (root_node :: stack))
           (fun y => (y < size self)%nat)) in E;
    [ | intros s Ls; split; auto
      | intros a b c Hab Hbc La; destruct (Hab La) as [Lb Cb];
        destruct (Hbc Lb) as [Lc Cc]; split; auto
      | intros node s s' Hn _ _ Hv; eapply IH; eauto
      | exact Hinc ].
  destruct E as [K1 _]. destruct (K1 Lm) as [L1 C1].
  apply collect_messages_covers in E2.
  - destruct E2 as [G1 A1].
    apply combine_messages_modifies in H; destruct H as [M _].
    split; [destruct M as [LM _]; congruence|]. intros C.
    apply (saturated_same_flags self p include_prior stack s1);
      [intros i; apply (vis_modifies _ _ _ i M)|].
    assert (Cm : saturated self p include_prior (root_node :: stack)
                   (mark root_node st)).
    { intros x Hx Hv. destruct (Nat.eq_dec x root_node) as [->|Hne]; [left; now left|].
      unfold vis, mark in Hv. rewrite feat_upd_feat_other in Hv by congruence.
      destruct (C x Hx Hv) as [Hin|Hup]; [left; now right|]. right.
      intros y Hy. destruct (Hup y Hy) as [V|V]; [left | now right].
      now apply vis_mark_mono. }
    specialize (C1 Cm). intros x Hx Hv.
    destruct (C1 x Hx Hv) as [[<-|Hin]|Hup]; [|now left|now right].
    right. intros y Hy. rewrite Forall_forall in A1. now apply A1.
  - intros node s s' Hv Hn. split.
    + eapply perform_message_passing_grows; exact Hv.
    + eapply perform_message_passing_marks; eauto.
  - rewrite Lm. exact Hinc.
Qed.

Lemma child_incident self x q :
  In x (children (node_at self q)) -> In x (incident self q).
Proof. intros H. unfold incident. apply in_or_app. now left. Qed.

Lemma parent_incident self x q :
  up (node_at self x) = Some q -> In q (incident self x).
Proof. intros H. unfold incident. rewrite H. apply in_or_app. right. now left. Qed.

(** X7.  The pass of [posterior_predictive_density] reaches the whole tree:
    started anywhere on a tree whose flags were reset, with the prior
    included, it returns and has visited every node. *)
Theorem pass_with_prior_visits_every_node self d start st :
  wf_model self -> wf_links self ->
  (start < size self)%nat -> length (feats st) = size self ->
  (forall i, vis st i = false) ->
  exists st',
    perform_message_passing (budget self) self start d true st = Ok st'
    /\ forall x, (x < size self)%nat -> vis st' x = true.
Proof.
  intros W Wl Hs HL Hv.
  destruct (pass_with_prior_visits self d start st W Hs HL Hv) as (st' & E & V0).
  exists st'; split; [exact E|].
  destruct (perform_message_passing_saturated self d true 0%nat W (search_prior self W)
              _ _ [] _ _ Hs E HL) as [_ C].
  assert (S : saturated self 0 true [] st').
  { apply C. intros x _ Hx. rewrite Hv in Hx. discriminate. }
  intros x. induction x as [x IH] using lt_wf_ind. intros Hx.
  destruct (up (node_at self x)) as [q|] eqn:U.
  - pose proof (wf_up _ W _ _ U) as Hq.
    assert (Vq : vis st' q = true) by (apply IH; lia).
    destruct (S q ltac:(lia) Vq) as [[]|N].
    destruct (N x (child_incident self x q (Wl x q Hx U))) as [V|[F _]];
      [exact V | discriminate].
  - now rewrite (wf_top _ W x Hx U).
Qed.

(** X7 at an instance.  The pass for the query node [A] of the cherry. *)
Lemma every_node_on_cherry :
  exists st',
    perform_message_passing (budget cherry) cherry 2 2 true cherry_fresh = Ok st'
    /\ forall x, (x < size cherry)%nat -> vis st' x = true.
Proof.
  apply (pass_with_prior_visits_every_node cherry 2 2 cherry_fresh cherry_wf
           cherry_links).
  - unfold size; simpl; lia.
  - reflexivity.
  - intros [|[|[|[|[|i]]]]]; reflexivity.
Defined.

(** X8.  The pass of [forward] reaches the whole tree but the prior root:
    started at a node other than the prior root on a tree whose flags were
    reset, with the prior left out, it returns, has visited every other
    node and has left the prior root unvisited.  The prior root has one
    child, as [__init__] builds it. *)
Theorem pass_without_prior_visits_the_rest self d start st r :
  wf_model self -> wf_links self ->
  children (node_at self 0) = [r] ->
  (start < size self)%nat -> start <> 0%nat -> length (feats st) = size self ->
  (forall i, vis st i = false) ->
  exists st',
    perform_message_passing (budget self) self start d false st = Ok st'
    /\ vis st' 0 = false
    /\ forall x, (x < size self)%nat -> x <> 0%nat -> vis st' x = true.
Proof.
  intros W Wl Hone Hs Hne HL Hv.
  destruct (perform_message_passing_budget self start d false st W Hs HL) as [st' E].
  exists st'; split; [exact E|].
  pose proof (search_prior self W) as Hp.
  split.
  { unfold vis.
    rewrite (perform_message_passing_same_features self d 0 Hp _ _ _ _ Hne E).
    apply Hv. }
  destruct (perform_message_passing_saturated self d false 0%nat W Hp
              _ _ [] _ _ Hs E HL) as [_ C].
  assert (S : saturated self 0 false [] st').
  { apply C. intros x _ Hx. rewrite Hv in Hx. discriminate. }
  assert (Vs : vis st' start = true).
  { eapply perform_message_passing_marks; [|exact E]. lia. }
  assert (Top : forall x, (x < size self)%nat -> x <> 0%nat ->
                          vis st' x = true -> vis st' r = true).
  { intros x. induction x as [x IH] using lt_wf_ind. intros Hx Hx0 Vx.
    destruct (up (node_at self x)) as [q|] eqn:U.
    - pose proof (wf_up _ W _ _ U) as Hq.
      destruct (Nat.eq_dec q 0) as [->|Hq0].
      + pose proof (Wl x 0%nat Hx U) as Hin. rewrite Hone in Hin.
        destruct Hin as [<-|[]]. exact Vx.
      + destruct (S x Hx Vx) as [[]|N].
        destruct (N q (parent_incident self x q U)) as [V|[_ F]]; [|congruence].
        apply (IH q Hq); [lia | exact Hq0 | exact V].
    - exfalso. apply Hx0. exact (wf_top _ W x Hx U). }
  assert (Vr : vis st' r = true) by (apply (Top start); assumption).
  intros x. induction x as [x IH] using lt_wf_ind. intros Hx Hx0.
  destruct (up (node_at self x)) as [q|] eqn:U.
  - pose proof (wf_up _ W _ _ U) as Hq.
    destruct (Nat.eq_dec q 0) as [->|Hq0].
    + pose proof (Wl x 0%nat Hx U) as Hin. rewrite Hone in Hin.
      destruct Hin as [<-|[]]. exact Vr.
    + assert (Vq : vis st' q = true) by (apply IH; [exact Hq | lia | exact Hq0]).
      destruct (S q ltac:(lia) Vq) as [[]|N].
      destruct (N x (child_incident self x q (Wl x q Hx U))) as [V|[_ F]];
        [exact V | congruence].
  - exfalso. apply Hx0. exact (wf_top _ W x Hx U).
Qed.

(** X8 at an instance.  The pass of [forward] on the cherry, started at [R]. *)
Lemma the_rest_on_cherry :
  exists st',
    perform_message_passing (budget cherry) cherry 1 2 false cherry_fresh = Ok st'
    /\ vis st' 0 = false
    /\ forall x, (x < size cherry)%nat -> x <> 0%nat -> vis st' x = true.
Proof.
  apply (pass_without_prior_visits_the_rest cherry 2 1 cherry_fresh 1 cherry_wf
           cherry_links).
  - reflexivity.
  - unfold size; simpl; lia.
  - lia.
  - reflexivity.
  - intros [|[|[|[|[|i]]]]]; reflexivity.
Defined.

(** ** What [initialize_messages] assigns *)

Lemma fill_dic_raises dic i rows barcodes :
  (length barcodes < length rows)%nat ->
  fill_dic dic i rows barcodes = Raise IndexError.
Proof.
  revert dic i barcodes; induction rows as [|r rows IH]; intros dic i barcodes H;
    simpl in *; [lia|].
  destruct barcodes as [|b barcodes]; [reflexivity|]. apply IH. simpl in H. lia.
Qed.

(** What [dic_mu] binds after the loop over the rows: a key among the
    barcodes used is bound to the position of its last occurrence, any
    other key as before. *)
Lemma fill_dic_get dic i rows barcodes dic' key :
  fill_dic dic i rows barcodes = Ok dic' ->
  (forall j, (j < length rows)%nat -> nth j barcodes ""%string = key ->
             (forall j', (j < j' < length rows)%nat ->
                         nth j' barcodes ""%string <> key) ->
             dict_get dic' key = Some (i + j)%nat)
  /\ ((forall j, (j < length rows)%nat -> nth j barcodes ""%string <> key) ->
      dict_get dic' key = dict_get dic key).
Proof.
  revert dic i barcodes; induction rows as [|r rows IH]; intros dic i barcodes H.
  - simpl in H. inversion H; subst. split; [intros j Hj; simpl in Hj; lia | auto].
  - simpl in H. destruct barcodes as [|b barcodes]; [discriminate|].
    destruct (IH _ _ _ H) as [IH1 IH2]. split.
    + intros j Hj Hkey Hlast. destruct j as [|j].
      * simpl in Hkey. subst b.
        rewrite IH2.
        -- simpl. rewrite String.eqb_refl. f_equal. lia.
        -- intros j' Hj'. apply (Hlast (S j')). simpl. lia.
      * replace (i + S j)%nat with (S i + j)%nat by lia.
        apply IH1; [simpl in Hj; lia | exact Hkey |].
        intros j' Hj'. apply (Hlast (S j')). simpl. lia.
    + intros Hno. rewrite IH2.
      * simpl. destruct (String.eqb_spec b key) as [->|]; [|reflexivity].
        exfalso. apply (Hno 0%nat); [simpl; lia | reflexivity].
      * intros j Hj. apply (Hno (S j)). simpl. lia.
Qed.

Lemma nth_zeros_store (evidence : list vec) d (l : list TreeNode) x :
  (x < length l)%nat ->
  nth (S (length evidence) + x) (evidence ++ zeros d :: map (fun _ => zeros d) l) []
  = zeros d.
Proof.
  intros H. rewrite app_nth2 by lia.
  replace (S (length evidence) + x - length evidence)%nat with (S x) by lia.
  simpl. rewrite (nth_indep _ [] (zeros d)) by (rewrite length_map; exact H).
  exact (map_nth (fun _ : TreeNode => zeros d) l no_node x).
Qed.

(** X9.  [initialize_messages] raises [IndexError] when there are more rows of
    evidence than barcodes, and returns otherwise. *)
Theorem initialize_messages_outcome self evidence barcodes d st :
  ((length barcodes < length evidence)%nat ->
   initialize_messages self evidence barcodes d st = Raise IndexError)
  /\ ((length evidence <= length barcodes)%nat ->
      exists st', initialize_messages self evidence barcodes d st = Ok st').
Proof.
  unfold initialize_messages. split; intros H.
  - now rewrite fill_dic_raises.
  - destruct (fill_dic_runs [] 0 evidence barcodes H) as [dic E].
    rewrite E. simpl. eauto.
Qed.

(** X10.  What [initialize_messages] leaves on a node [x]: [nu = 0], [log_z = 0],
    the [visited] flag as it was, and as [mu] the zero vector of length [d]
    when [x] bears the name of the prior root, else row [i] of the evidence
    when [barcodes[i]] is the last barcode in use that names [x], else the
    zero vector. *)
Theorem initialize_messages_assigns self evidence barcodes d st st' x :
  initialize_messages self evidence barcodes d st = Ok st' ->
  (x < size self)%nat ->
  let key := name (node_at self x) in
  nu (feat st' x) = 0 /\ log_z (feat st' x) = 0
  /\ visited (feat st' x) = visited (feat st x)
  /\ (key = prior_root self -> tensor st' (mu (feat st' x)) = zeros d)
  /\ (forall i, key <> prior_root self ->
        (i < length evidence)%nat -> nth i barcodes ""%string = key ->
        (forall i', (i < i' < length evidence)%nat ->
                    nth i' barcodes ""%string <> key) ->
        tensor st' (mu (feat st' x)) = nth i evidence [])
  /\ (key <> prior_root self ->
      (forall i, (i < length evidence)%nat -> nth i barcodes ""%string <> key) ->
      tensor st' (mu (feat st' x)) = zeros d).
Proof.
  intros H Hx key. unfold initialize_messages in H.
  destruct (fill_dic [] 0 evidence barcodes) as [dic| |] eqn:E; simpl in H;
    try discriminate.
  inversion H; subst st'; clear H.
  rewrite feat_map_seq by exact Hx. fold key.
  destruct (fill_dic_get _ _ _ _ _ key E) as [G1 G2].
  unfold tensor. cbn [tensors].
  assert (Hm : nth (length evidence)
                   (evidence ++ zeros d :: map (fun _ => zeros d) (tree self)) []
               = zeros d).
  { rewrite app_nth2 by lia. now rewrite Nat.sub_diag. }
  cbn [dict_get].
  destruct (String.eqb_spec (prior_root self) key) as [Hk|Hk].
  - cbn [nu log_z visited mu]. repeat (split; [reflexivity|]).
    split; [intros _; exact Hm|]. split; [intros i C; congruence | congruence].
  - destruct (dict_get dic key) as [r|] eqn:Er;
      cbn [nu log_z visited mu]; repeat (split; [reflexivity|]).
    + split; [congruence|]. split.
      * intros i _ Hi Hb Hlast. pose proof (G1 i Hi Hb Hlast) as G.
        injection G as ->. simpl. now apply app_nth1.
      * intros _ Hno. specialize (G2 Hno). discriminate.
    + split; [congruence|]. split.
      * intros i _ Hi Hb Hlast. pose proof (G1 i Hi Hb Hlast) as G. discriminate.
      * intros _ _. now apply nth_zeros_store.
Qed.

(** X10 at an instance.  The leaf [A] of the cherry after the initialisation. *)
Lemma assigns_on_cherry :
  nu (feat cherry_fresh 2) = 0 /\ log_z (feat cherry_fresh 2) = 0
  /\ visited (feat cherry_fresh 2)
     = visited (feat (initialize_visit cherry (blank 4)) 2)
  /\ (name (node_at cherry 2) = prior_root cherry ->
      tensor cherry_fresh (mu (feat cherry_fresh 2)) = zeros 2)
  /\ (forall i, name (node_at cherry 2) <> prior_root cherry ->
        (i < length [[0; 0]; [1; 1]])%nat ->
        nth i (barcodes cherry) ""%string = name (node_at cherry 2) ->
        (forall i', (i < i' < length [[0; 0]; [1; 1]])%nat ->
                    nth i' (barcodes cherry) ""%string <> name (node_at cherry 2)) ->
        tensor cherry_fresh (mu (feat cherry_fresh 2)) = nth i [[0; 0]; [1; 1]] [])
  /\ (name (node_at cherry 2) <> prior_root cherry ->
      (forall i, (i < length [[0; 0]; [1; 1]])%nat ->
                 nth i (barcodes cherry) ""%string <> name (node_at cherry 2)) ->
      tensor cherry_fresh (mu (feat cherry_fresh 2)) = zeros 2).
Proof.
  apply (initialize_messages_assigns cherry [[0; 0]; [1; 1]] (barcodes cherry) 2
           (initialize_visit cherry (blank 4)) cherry_fresh 2).
  - reflexivity.
  - unfold size; simpl; lia.
Defined.

(** ** [aggregate_messages_into_leaves_likelihood] *)

(** X11.  [forward] does not see the messages of earlier calls: its store and
    likelihood are the same from every store. *)
Theorem forward_forgets_earlier_messages self z d st1 st2 :
  forward_mp_lik self z d st1 = forward_mp_lik self z d st2.
Proof.
  unfold forward_mp_lik, forward_messages.
  now rewrite (initialize_twice_fresh self z (n_latent self) st1 st2).
Qed.

(** X12.  On the cherry the likelihood that [forward] computes is the exact
    log-density of the two leaves, whatever their latent codes. *)
Theorem forward_on_cherry_is_exact a1 a2 b1 b2 st :
  belief (forward_mp_lik cherry [[a1; a2]; [b1; b2]] 2 st)
  = Ok (cherry_log_marginal 2 [a1; a2] [b1; b2]).
Proof.
  unfold forward_mp_lik, forward_messages.
  rewrite (initialize_twice_fresh cherry _ _ st (blank 4)).
  run. f_equal.
  replace (INR 2) with 2 by (simpl; lra). replace (INR 1) with 1 by (simpl; lra).
  replace (0 + 1 * (0 + 1) + 1 * (0 + 1)) with 2 by lra.
  replace (2 * PI * (1 + 1 / (0 + 1 / (0 + 1) + 1 / (0 + 1)))) with (3 * PI) by (field).
  pose proof PI_RGT_0 as P.
  rewrite (ln_mult 3 PI), (ln_mult 2 PI) by lra.
  field.
Qed.

(** ** The evidence is not overwritten *)

Lemma collect_messages_count visit prior_node include_prior :
  forall incident_nodes s inc s' inc',
    collect_messages visit prior_node include_prior incident_nodes s inc
      = Ok (s', inc') ->
    (length inc' <= length inc + length incident_nodes)%nat.
Proof.
  induction incident_nodes as [|node rest IH]; intros s inc s' inc' H; simpl in H.
  - inversion H; subst. lia.
  - destruct (negb (visited (feat s node)) && _).
    + destruct (visit node s) as [s1| |]; simpl in H; try discriminate.
      apply IH in H. rewrite length_app in H. simpl in *. lia.
    + apply IH in H. simpl. lia.
Qed.

Lemma combine_messages_tensors root_node d incoming st st' :
  combine_messages root_node d incoming st = Ok st' ->
  (length incoming <= 1)%nat -> tensors st' = tensors st.
Proof.
  unfold combine_messages. intros H Hn.
  destruct (length incoming =? 0)%nat; [now inversion H|].
  destruct (length incoming =? 1)%nat; [now inversion H|].
  destruct (Nat.leb_spec 2 (length incoming)); [lia | discriminate].
Qed.

Lemma perform_message_passing_keeps_evidence self d include_prior evidence :
  wf_model self ->
  forall fuel root_node stack st st',
    (root_node < size self)%nat -> vis st root_node = false ->
    perform_message_passing fuel self root_node d include_prior st = Ok st' ->
    keeps_evidence self evidence stack st st'.
Proof.
  intros W; induction fuel as [|fuel IH];
    intros root_node stack st st' Hr Hv H L [Ja Jb] T; simpl in H; [discriminate|].
  destruct (search self (prior_root self)) as [prior_node| |]; simpl in H;
    try discriminate.
  fold (mark root_node st) in H.
  destruct (collect_messages _ _ _ _ _ _) as [[s1 inc]| |] eqn:E; simpl in H;
    try discriminate.
  assert (Lm : length (feats (mark root_node st)) = size self)
    by (unfold mark; now rewrite feats_upd_feat_length).
  assert (Hinc : Forall (fun y => (y < size self)%nat) (incident self root_node))
    by (apply Forall_forall; intros y Hy; eapply incident_in_range; eauto).
  assert (Hnot : ~ In root_node stack).
  { intros Hin. apply Ja in Hin. congruence. }
  pose proof (collect_messages_count _ _ _ _ _ _ _ _ E) as Hcount. simpl in Hcount.
  apply (collect_messages_rel (keeps_evidence self evidence (root_node :: stack))
           (fun y => (y < size self)%nat)) in E;
    [ | intros s Ls; split; auto
      | intros a b c Hab Hbc La Ja' Ta; destruct (Hab La Ja' Ta) as (Lb & Jb' & Tb);
        now apply Hbc
      | intros node s s' Hn Hvn _ Hvisit; eapply IH; eauto
      | exact Hinc ].
  destruct E as [K1 _].
  destruct (K1 Lm) as (L1 & [Ja1 Jb1] & T1).
  { split.
    - intros x [<-|Hx]; [apply vis_mark_same; lia | apply vis_mark_mono; now apply Ja].
    - intros x Hx Hj Hc. destruct (Nat.eq_dec x root_node) as [->|Hne].
      + unfold mark. rewrite feat_upd_feat_same by lia. simpl. apply Jb; auto.
      + unfold mark. rewrite feat_upd_feat_other by congruence. apply Jb; auto.
        destruct Hc as [Hc|[Hc|Hc]]; [|congruence|now right].
        left. unfold vis, mark in Hc. now rewrite feat_upd_feat_other in Hc by congruence. }
  { intros i Hi. unfold mark. rewrite tensor_upd_feat. now apply T. }
  pose proof H as Hcomb.
  apply combine_messages_modifies in H. destruct H as [(LM & O & V & TM) _].
  split; [congruence|]. split; [split|].
  - intros x Hx. unfold vis.
    destruct (Nat.eq_dec x root_node) as [->|Hne]; [contradiction|].
    rewrite (O x Hne). apply Ja1. now right.
  - intros x Hx Hj Hc. destruct (Nat.eq_dec x root_node) as [->|Hne].
    + exfalso. destruct Hc as [Hc|Hc]; [|contradiction].
      unfold vis in Hc. rewrite V in Hc.
      assert (vis s1 root_node = true) by (apply Ja1; now left).
      unfold vis in *. congruence.
    + rewrite (O x Hne). apply Jb1; auto.
      destruct Hc as [Hc|Hc]; [left | right; now right].
      unfold vis in *. now rewrite (O x Hne) in Hc.
  - intros i Hi.
    destruct (Nat.le_gt_cases (length inc) 1) as [Hn|Hn].
    + unfold tensor. rewrite (combine_messages_tensors _ _ _ _ _ Hcomb Hn).
      now apply T1.
    + rewrite TM; [now apply T1|].
      assert (length evidence <= mu (feat s1 root_node))%nat; [|lia].
      apply Jb1; [exact Hr | lia | right; now left].
Qed.

(** A value that [dic_mu] binds after the loop is the position of a barcode
    equal to the key, or was bound before. *)
Lemma fill_dic_sound dic i rows barcodes dic' key r :
  fill_dic dic i rows barcodes = Ok dic' ->
  dict_get dic' key = Some r ->
  ((i <= r < i + length rows)%nat /\ nth (r - i) barcodes ""%string = key)
  \/ dict_get dic key = Some r.
Proof.
  revert dic i barcodes; induction rows as [|row rows IH]; intros dic i barcodes H G.
  - simpl in H. inversion H; subst. now right.
  - simpl in H. destruct barcodes as [|b barcodes]; [discriminate|].
    destruct (IH _ _ _ H G) as [[Hr Hn]|G'].
    + left. split; [simpl; lia|].
      replace (r - i)%nat with (S (r - S i)) by lia. exact Hn.
    + simpl in G'. destruct (String.eqb_spec b key) as [->|].
      * injection G' as <-. left. split; [simpl; lia|]. now rewrite Nat.sub_diag.
      * now right.
Qed.

Lemma initialize_messages_clear self evidence d st st' :
  (forall x i, (x < size self)%nat -> (i < length evidence)%nat ->
               nth i (barcodes self) ""%string = name (node_at self x) ->
               (length (incident self x) <= 1)%nat) ->
  initialize_messages self evidence (barcodes self) d st = Ok st' ->
  junctions_clear self (length evidence) [] st' /\ holds_evidence evidence st'.
Proof.
  intros Hleaf H. unfold initialize_messages in H.
  destruct (fill_dic [] 0 evidence (barcodes self)) as [dic| |] eqn:E; simpl in H;
    try discriminate.
  inversion H; subst st'; clear H. split; [split|].
  - intros x [].
  - intros x Hx Hj _. rewrite feat_map_seq by exact Hx.
    cbn [dict_get].
    destruct (String.eqb _ _); [simpl; lia|].
    destruct (dict_get dic (name (node_at self x))) as [r|] eqn:G; simpl; [|lia].
    destruct (fill_dic_sound _ _ _ _ _ _ _ E G) as [[Hr Hn]|C]; [|discriminate].
    rewrite Nat.sub_0_r in Hn.
    specialize (Hleaf x r Hx ltac:(lia) Hn). lia.
  - intros i Hi. unfold tensor. simpl. now apply app_nth1.
Qed.

(** X13.  One pass after [initialize_messages] leaves the rows of the evidence as
    they are, in [forward] and in [posterior_predictive_density] alike: the
    in-place updates of [mu] fall on tensors made by [initialize_messages].
    The nodes that the barcodes in use name have one neighbour at most:
    they are leaves. *)
Theorem evidence_is_not_overwritten self evidence d query_node st :
  wf_model self ->
  (forall x i, (x < size self)%nat -> (i < length evidence)%nat ->
               nth i (barcodes self) ""%string = name (node_at self x) ->
               (length (incident self x) <= 1)%nat) ->
  (forall st', forward_messages self evidence d st = Ok st' ->
               holds_evidence evidence st')
  /\ (forall b st',
        posterior_predictive_density self query_node (Some evidence) st
        = Ok (b, st') ->
        holds_evidence evidence st').
Proof.
  intros W Hleaf. split.
  - intros st' H. unfold forward_messages in H.
    destruct (initialize_messages _ _ _ _ _) as [s0| |] eqn:E0; cbn [bind] in H;
      try discriminate.
    destruct (search self (root self)) as [r| |] eqn:Er; cbn [bind] in H; try discriminate.
    destruct (initialize_messages_clear _ _ _ _ _ Hleaf E0) as [J0 T0].
    destruct (initialize_messages_runs self evidence (n_latent self)
                (initialize_visit self st)) as (s0' & E0' & L0 & V0).
    { destruct (Nat.le_gt_cases (length evidence) (length (barcodes self))); auto.
      unfold initialize_messages in E0. rewrite (fill_dic_raises) in E0 by lia.
      discriminate. }
    rewrite E0 in E0'. injection E0' as <-.
    pose proof (search_range _ _ _ Er) as Hr.
    apply (perform_message_passing_keeps_evidence self d false evidence W
             _ _ [] _ _ Hr) in H; auto.
    + now destruct H as (_ & _ & T).
    + destruct (V0 r) as [->|]; [apply initialize_visit_unvisited | lia].
  - intros b st' H. unfold posterior_predictive_density in H.
    destruct (search self (root self)) as [r| |] eqn:Er; cbn [bind] in H; try discriminate.
    destruct (initialize_messages _ _ _ _ _) as [s0| |] eqn:E0; cbn [bind] in H;
      try discriminate.
    destruct (search self query_node) as [q| |] eqn:Eq; cbn [bind] in H; try discriminate.
    destruct (perform_message_passing _ _ _ _ _ _) as [s1| |] eqn:E1; cbn [bind] in H;
      try discriminate.
    injection H as _ <-.
    destruct (initialize_messages_clear _ _ _ _ _ Hleaf E0) as [J0 T0].
    destruct (initialize_messages_runs self evidence (n_latent self)
                (initialize_visit self st)) as (s0' & E0' & L0 & V0).
    { destruct (Nat.le_gt_cases (length evidence) (length (barcodes self))); auto.
      unfold initialize_messages in E0. rewrite (fill_dic_raises) in E0 by lia.
      discriminate. }
    rewrite E0 in E0'. injection E0' as <-.
    pose proof (search_range _ _ _ Eq) as Hq.
    apply (perform_message_passing_keeps_evidence self _ true evidence W
             _ _ [] _ _ Hq) in E1; auto.
    + now destruct E1 as (_ & _ & T).
    + destruct (V0 q) as [->|]; [apply initialize_visit_unvisited | lia].
Qed.

(** X13 at an instance.  Both passes on the cherry, the query node being [A]. *)
Lemma evidence_kept_on_cherry :
  (forall st', forward_messages cherry [[0; 0]; [1; 1]] 2 (blank 4) = Ok st' ->
               holds_evidence [[0; 0]; [1; 1]] st')
  /\ (forall b st',
        posterior_predictive_density cherry "A" (Some [[0; 0]; [1; 1]]) (blank 4)
        = Ok (b, st') ->
        holds_evidence [[0; 0]; [1; 1]] st').
Proof.
  apply (evidence_is_not_overwritten cherry [[0; 0]; [1; 1]] 2 "A" (blank 4)
           cherry_wf).
  intros x i Hx Hi. now apply cherry_leaves.
Defined.

(** ** The belief at a leaf leaves out the evidence at that leaf *)

Lemma upd_upd {A : Type} (i j : nat) (v w : A) (l : list A) :
  i <> j -> upd i v (upd j w l) = upd j w (upd i v l).
Proof.
  revert i j; induction l as [|x l IH]; intros [|i] [|j] H; simpl; auto;
    [congruence|]. f_equal. apply IH. congruence.
Qed.

Lemma set_tensor_comm i r v w st :
  i <> r -> set_tensor r w (set_tensor i v st) = set_tensor i v (set_tensor r w st).
Proof.
  intros H. unfold set_tensor. simpl. f_equal. apply upd_upd. congruence.
Qed.

Lemma merge_step_with_tensor q i n v root_node incoming st cnu cmu j :
  root_node <> q -> (root_node < n)%nat ->
  Forall (fun k => (k < n)%nat /\ k <> q) incoming -> (j < length incoming)%nat ->
  only_holder q i n st ->
  let '(st1, cnu1, cmu1) := merge_step root_node incoming (st, cnu, cmu) j in
  merge_step root_node incoming (set_tensor i v st, cnu, cmu) j
  = (set_tensor i v st1, cnu1, cmu1)
  /\ only_holder q i n st1.
Proof.
  intros Hr Hrn Hq Hj (Vq & Ln & Ho).
  assert (Hk : (nth j incoming 0%nat < n)%nat /\ nth j incoming 0%nat <> q).
  { apply (proj1 (Forall_forall _ _) Hq). now apply nth_In. }
  destruct Hk as [Hkn Hk].
  unfold merge_step. cbv zeta.
  set (k := nth j incoming 0%nat) in *.
  set (c := nu (feat st k) + 1).
  set (sta := upd_feat root_node (fun f => set_nu (nu f + 1 / nth j (upd j c cnu) 0) f) st).
  assert (Ea : upd_feat root_node
                 (fun f => set_nu (nu f + 1 / nth j (upd j c cnu) 0) f)
                 (set_tensor i v st) = set_tensor i v sta) by reflexivity.
  change (feat (set_tensor i v st) k) with (feat st k). fold c. rewrite Ea.
  change (feat (set_tensor i v sta) k) with (feat sta k).
  change (feat (set_tensor i v sta) root_node) with (feat sta root_node).
  assert (Mk : mu (feat sta k) <> i).
  { unfold sta. rewrite (feat_upd_feat_proj mu) by reflexivity. now apply Ho. }
  assert (Mr : mu (feat sta root_node) <> i).
  { unfold sta. rewrite (feat_upd_feat_proj mu) by reflexivity. now apply Ho. }
  rewrite !tensor_set_tensor_other by congruence.
  rewrite set_tensor_comm by congruence.
  split; [reflexivity|]. split; [|split].
  - unfold vis. rewrite feat_set_tensor. unfold sta.
    now rewrite (feat_upd_feat_proj visited) by reflexivity.
  - unfold set_tensor, sta. simpl. now rewrite upd_length.
  - intros y Hyn Hy. rewrite feat_set_tensor. unfold sta.
    rewrite (feat_upd_feat_proj mu) by reflexivity. now apply Ho.
Qed.

Lemma merge_loop_with_tensor q i n v root_node incoming :
  root_node <> q -> (root_node < n)%nat ->
  Forall (fun k => (k < n)%nat /\ k <> q) incoming ->
  forall l st cnu cmu,
    Forall (fun j => (j < length incoming)%nat) l ->
    only_holder q i n st ->
    exists st1 cnu1 cmu1,
      fold_left (merge_step root_node incoming) l (st, cnu, cmu) = (st1, cnu1, cmu1)
      /\ fold_left (merge_step root_node incoming) l (set_tensor i v st, cnu, cmu)
         = (set_tensor i v st1, cnu1, cmu1)
      /\ only_holder q i n st1.
Proof.
  intros Hr Hrn Hq. induction l as [|j l IH]; intros st cnu cmu F Ho.
  - simpl. exists st, cnu, cmu. auto.
  - inversion F as [|? ? Hj F']; subst. cbn [fold_left].
    pose proof (merge_step_with_tensor q i n v root_node incoming st cnu cmu j
                  Hr Hrn Hq Hj Ho) as S.
    destruct (merge_step root_node incoming (st, cnu, cmu) j) as [[st1 cnu1] cmu1].
    destruct S as [-> Ho1]. now apply IH.
Qed.

Lemma merge_messages_with_tensor q i n v root_node d incoming st :
  root_node <> q -> (root_node < n)%nat ->
  Forall (fun k => (k < n)%nat /\ k <> q) incoming -> only_holder q i n st ->
  merge_messages root_node d incoming (set_tensor i v st)
  = set_tensor i v (merge_messages root_node d incoming st)
  /\ only_holder q i n (merge_messages root_node d incoming st).
Proof.
  intros Hr Hrn Hq Ho. unfold merge_messages. cbv zeta.
  assert (F : Forall (fun j => (j < length incoming)%nat) (seq 0 (length incoming)))
    by (apply Forall_forall; intros j Hj; apply in_seq in Hj; lia).
  destruct (merge_loop_with_tensor q i n v root_node incoming Hr Hrn Hq _ st
              (repeat 0 (length incoming)) (repeat [] (length incoming)) F Ho)
    as (st1 & cnu1 & cmu1 & E0 & E1 & (V1 & L1 & O1)).
  unfold vec in *. rewrite E0, E1. clear E0 E1.
  set (st1' := upd_feat root_node (fun f => set_nu (1 / nu f) f) st1).
  change (upd_feat root_node (fun f => set_nu (1 / nu f) f) (set_tensor i v st1))
    with (set_tensor i v st1').
  change (feat (set_tensor i v st1') root_node) with (feat st1' root_node).
  assert (Mr : mu (feat st1' root_node) <> i).
  { unfold st1'. rewrite (feat_upd_feat_proj mu) by reflexivity. now apply O1. }
  rewrite tensor_set_tensor_other by congruence.
  rewrite set_tensor_comm by congruence.
  set (st2 := set_tensor (mu (feat st1' root_node)) _ st1').
  assert (EZ : Z3_loop (mu_sq_dist (set_tensor i v st2) incoming) cnu1 (length incoming)
               = Z3_loop (mu_sq_dist st2 incoming) cnu1 (length incoming)).
  { apply Z3_loop_ext. intros h j Hh Hj. unfold mu_sq_dist.
    rewrite !feat_set_tensor.
    assert (K : forall x, (x < length incoming)%nat ->
                          mu (feat st2 (nth x incoming 0%nat)) <> i).
    { intros x Hx. unfold st2. rewrite feat_set_tensor. unfold st1'.
      rewrite (feat_upd_feat_proj mu) by reflexivity.
      destruct (proj1 (Forall_forall _ _) Hq (nth x incoming 0%nat)
                  (nth_In _ _ Hx)) as [Hn Hne].
      now apply O1. }
    rewrite !tensor_set_tensor_other by (apply not_eq_sym; now apply K).
    reflexivity. }
  rewrite EZ. split; [reflexivity|]. split; [|split].
  - unfold vis. rewrite (feat_upd_feat_proj visited) by reflexivity.
    unfold st2. rewrite feat_set_tensor. unfold st1'.
    now rewrite (feat_upd_feat_proj visited) by reflexivity.
  - rewrite feats_upd_feat_length. unfold st2, st1'. simpl. now rewrite upd_length.
  - intros y Hyn Hy. rewrite (feat_upd_feat_proj mu) by reflexivity.
    unfold st2. rewrite feat_set_tensor. unfold st1'.
    rewrite (feat_upd_feat_proj mu) by reflexivity. now apply O1.
Qed.

Lemma combine_messages_with_tensor q i n v root_node d incoming st :
  root_node <> q -> (root_node < n)%nat ->
  Forall (fun k => (k < n)%nat /\ k <> q) incoming -> only_holder q i n st ->
  combine_messages root_node d incoming (set_tensor i v st)
  = with_tensor i v (combine_messages root_node d incoming st)
  /\ forall st', combine_messages root_node d incoming st = Ok st' ->
                 only_holder q i n st'.
Proof.
  intros Hr Hrn Hq Ho. unfold combine_messages.
  destruct (length incoming =? 0)%nat eqn:E0.
  - split; [reflexivity|]. intros st' H. now inversion H; subst.
  - destruct (length incoming =? 1)%nat eqn:E1.
    + split; [reflexivity|]. intros st' H. inversion H; subst st'; clear H.
      destruct Ho as (Vq & Ln & Oq). split; [|split].
      * unfold vis. rewrite (feat_upd_feat_proj visited) by reflexivity.
        rewrite (feat_upd_feat_proj visited) by reflexivity.
        now rewrite (feat_upd_feat_proj visited) by reflexivity.
      * now rewrite !feats_upd_feat_length.
      * intros y Hyn Hy. rewrite (feat_upd_feat_proj mu) by reflexivity.
        destruct (Nat.eq_dec y root_node) as [->|Hne].
        -- rewrite feat_upd_feat_same by (rewrite feats_upd_feat_length; lia).
           simpl. rewrite (feat_upd_feat_proj mu) by reflexivity.
           apply Nat.eqb_eq in E1.
           destruct (proj1 (Forall_forall _ _) Hq (nth 0 incoming 0%nat))
             as [Hn Hk]; [apply nth_In; lia|]. now apply Oq.
        -- rewrite feat_upd_feat_other by congruence.
           rewrite (feat_upd_feat_proj mu) by reflexivity. now apply Oq.
    + destruct (2 <=? length incoming)%nat.
      * destruct (merge_messages_with_tensor q i n v root_node d incoming st
                    Hr Hrn Hq Ho) as [E O]. rewrite E. split; [reflexivity|].
        intros st' H. now inversion H; subst.
      * split; [reflexivity | discriminate].
Qed.

Lemma collect_messages_with_tensor q i n v visit prior_node include_prior :
  (forall node s, node <> q -> (node < n)%nat -> only_holder q i n s ->
     visit node (set_tensor i v s) = with_tensor i v (visit node s)
     /\ forall s', visit node s = Ok s' -> only_holder q i n s') ->
  forall incident_nodes s inc,
    Forall (fun y => (y < n)%nat) incident_nodes ->
    only_holder q i n s -> Forall (fun k => (k < n)%nat /\ k <> q) inc ->
    collect_messages visit prior_node include_prior incident_nodes
      (set_tensor i v s) inc
    = match collect_messages visit prior_node include_prior incident_nodes s inc with
      | Ok (s', inc') => Ok (set_tensor i v s', inc')
      | Raise e => Raise e
      | OutOfFuel => OutOfFuel
      end
    /\ forall s' inc',
         collect_messages visit prior_node include_prior incident_nodes s inc
         = Ok (s', inc') ->
         only_holder q i n s' /\ Forall (fun k => (k < n)%nat /\ k <> q) inc'.
Proof.
  intros Hvisit.
  induction incident_nodes as [|node rest IH]; intros s inc Hin Ho Hq; simpl.
  - split; [reflexivity|]. intros s' inc' H. now inversion H; subst.
  - inversion Hin as [|? ? Hnode Hrest]; subst.
    change (feat (set_tensor i v s) node) with (feat s node).
    destruct (negb (visited (feat s node)) && _) eqn:G.
    + assert (Hn : node <> q).
      { intros ->. destruct Ho as [Vq _]. unfold vis in Vq. rewrite Vq in G.
        discriminate. }
      destruct (Hvisit node s Hn Hnode Ho) as [E O]. rewrite E.
      destruct (visit node s) as [s1| |]; simpl;
        [|split; [reflexivity | discriminate] | split; [reflexivity | discriminate]].
      apply IH; [exact Hrest | now apply O|].
      apply Forall_app. split; [exact Hq | constructor; [now split | constructor]].
    + now apply IH.
Qed.

Lemma perform_message_passing_with_tensor q i v self d include_prior :
  wf_model self ->
  forall fuel root_node st,
    root_node <> q -> (root_node < size self)%nat ->
    only_holder q i (size self) st ->
    perform_message_passing fuel self root_node d include_prior (set_tensor i v st)
    = with_tensor i v (perform_message_passing fuel self root_node d include_prior st)
    /\ forall st', perform_message_passing fuel self root_node d include_prior st
                   = Ok st' -> only_holder q i (size self) st'.
Proof.
  intros W. induction fuel as [|fuel IH]; intros root_node st Hr Hrn Ho; simpl.
  - split; [reflexivity | discriminate].
  - destruct (search self (prior_root self)) as [p| |]; simpl;
      [|split; [reflexivity | discriminate] | split; [reflexivity | discriminate]].
    change (upd_feat root_node (set_visited true) (set_tensor i v st))
      with (set_tensor i v (upd_feat root_node (set_visited true) st)).
    assert (Hm : only_holder q i (size self) (upd_feat root_node (set_visited true) st)).
    { destruct Ho as (Vq & Ln & Oq). split; [|split].
      - now apply vis_mark_mono.
      - now rewrite feats_upd_feat_length.
      - intros y Hyn Hy. rewrite (feat_upd_feat_proj mu) by reflexivity. now apply Oq. }
    assert (Hinc : Forall (fun y => (y < size self)%nat) (incident self root_node))
      by (apply Forall_forall; intros y Hy; eapply incident_in_range; eauto).
    destruct (collect_messages_with_tensor q i (size self) v
                (fun node st => perform_message_passing fuel self node d include_prior st)
                p include_prior (fun node s => IH node s)
                (incident self root_node) _ [] Hinc Hm) as [E O]; [constructor|].
    rewrite E.
    destruct (collect_messages _ _ _ _ (upd_feat root_node _ st) _)
      as [[s1 inc]| |]; simpl;
      [|split; [reflexivity | discriminate] | split; [reflexivity | discriminate]].
    destruct (O s1 inc eq_refl) as [Ho1 Hq1].
    now apply (combine_messages_with_tensor q i (size self)).
Qed.

Lemma fill_dic_upd dic j i v rows barcodes :
  fill_dic dic j (upd i v rows) barcodes = fill_dic dic j rows barcodes.
Proof.
  revert dic j i barcodes; induction rows as [|row rows IH];
    intros dic j i barcodes; [now destruct i|].
  destruct i as [|i]; simpl; destruct barcodes; auto.
Qed.

Lemma upd_app_l {A : Type} (i : nat) (v : A) (l r : list A) :
  (i < length l)%nat -> upd i v l ++ r = upd i v (l ++ r).
Proof.
  revert i; induction l as [|x l IH]; intros [|i] H; simpl in *; try lia; auto.
  f_equal. apply IH. lia.
Qed.

Lemma initialize_messages_with_tensor self evidence barcodes d st i v :
  (i < length evidence)%nat ->
  initialize_messages self (upd i v evidence) barcodes d st
  = with_tensor i v (initialize_messages self evidence barcodes d st).
Proof.
  intros Hi. unfold initialize_messages. rewrite fill_dic_upd, upd_length.
  destruct (fill_dic [] 0 evidence barcodes); simpl; auto.
  unfold set_tensor. simpl. now rewrite upd_app_l.
Qed.

Lemma initialize_messages_holders self evidence d st st' i y :
  initialize_messages self evidence (barcodes self) d st = Ok st' ->
  (i < length evidence)%nat -> (y < size self)%nat ->
  name (node_at self y) <> nth i (barcodes self) ""%string ->
  mu (feat st' y) <> i.
Proof.
  intros H Hi Hy Hname. unfold initialize_messages in H.
  destruct (fill_dic [] 0 evidence (barcodes self)) as [dic| |] eqn:E; simpl in H;
    try discriminate.
  inversion H; subst st'; clear H.
  rewrite feat_map_seq by exact Hy. cbn [dict_get].
  destruct (String.eqb _ _); [simpl; lia|].
  destruct (dict_get dic (name (node_at self y))) as [r|] eqn:G; simpl; [|lia].
  destruct (fill_dic_sound _ _ _ _ _ _ _ E G) as [[Hr Hn]|C]; [|discriminate].
  rewrite Nat.sub_0_r in Hn. congruence.
Qed.

(** X14.  The belief that [posterior_predictive_density] returns for a leaf does
    not depend on the evidence at that leaf: replacing row [i] of the
    evidence, where no node other than the query node bears the name
    [barcodes[i]], leaves the result as it is.  The query node has one
    neighbour and is not the node named [self.root]. *)
Theorem leaf_belief_ignores_own_evidence self query_node evidence st q r p i v :
  wf_model self ->
  search self (root self) = Ok r -> search self query_node = Ok q -> r <> q ->
  incident self q = [p] -> p <> q ->
  (i < length evidence)%nat ->
  (forall y, (y < size self)%nat -> y <> q ->
             name (node_at self y) <> nth i (barcodes self) ""%string) ->
  belief (posterior_predictive_density self query_node (Some (upd i v evidence)) st)
  = belief (posterior_predictive_density self query_node (Some evidence) st).
Proof.
  intros W Hr Hq Hrq Hinc Hpq Hi Hnames.
  unfold posterior_predictive_density. rewrite Hr, Hq. cbn [bind].
  rewrite initialize_messages_with_tensor by exact Hi.
  destruct (initialize_messages self evidence (barcodes self) (n_latent self)
              (initialize_visit self st)) as [st0| |] eqn:E0; cbn [with_tensor bind];
    try reflexivity.
  pose proof (search_range _ _ _ Hr) as Hrn.
  pose proof (search_range _ _ _ Hq) as Hqn.
  assert (Hpn : (p < size self)%nat).
  { apply (incident_in_range self q p W Hqn). rewrite Hinc. now left. }
  destruct (initialize_messages_runs self evidence (n_latent self)
              (initialize_visit self st)) as (s0' & E0' & L0 & V0).
  { destruct (Nat.le_gt_cases (length evidence) (length (barcodes self))); auto.
    unfold initialize_messages in E0. rewrite (fill_dic_raises) in E0 by lia.
    discriminate. }
  rewrite E0 in E0'. injection E0' as <-.
  assert (Hold : forall y, (y < size self)%nat -> y <> q -> mu (feat st0 y) <> i).
  { intros y Hy Hne. apply (initialize_messages_holders _ _ _ _ _ _ _ E0 Hi Hy).
    now apply Hnames. }
  change (feat (set_tensor i v st0) r) with (feat st0 r).
  rewrite tensor_set_tensor_other by (apply not_eq_sym; now apply Hold).
  set (d := length (tensor st0 (mu (feat st0 r)))).
  unfold budget. cbn [perform_message_passing].
  rewrite (search_prior self W). cbn [bind]. rewrite Hinc.
  change (upd_feat q (set_visited true) (set_tensor i v st0))
    with (set_tensor i v (mark q st0)).
  fold (mark q st0).
  assert (Hm : only_holder q i (size self) (mark q st0)).
  { split; [apply vis_mark_same; lia|]. split.
    - unfold mark. now rewrite feats_upd_feat_length.
    - intros y Hy Hne. unfold mark. rewrite feat_upd_feat_other by congruence.
      now apply Hold. }
  assert (Vp : visited (feat (mark q st0) p) = false).
  { unfold mark. rewrite feat_upd_feat_other by congruence.
    destruct (V0 p) as [Vp|]; [|lia]. unfold vis in Vp. rewrite Vp.
    apply initialize_visit_unvisited. }
  cbn [collect_messages].
  change (feat (set_tensor i v (mark q st0)) p) with (feat (mark q st0) p).
  rewrite Vp.
  replace (negb false && (negb (p =? 0)%nat || (p =? 0)%nat && true)) with true
    by (destruct (p =? 0)%nat; reflexivity).
  destruct (perform_message_passing_with_tensor q i v self d true W
              (length (tree self)) p (mark q st0) Hpq Hpn Hm) as [E O].
  rewrite E.
  destruct (perform_message_passing (length (tree self)) self p d true (mark q st0))
    as [s1| |]; cbn [with_tensor bind app]; try reflexivity.
  destruct (O s1 eq_refl) as (V1 & L1 & O1).
  unfold combine_messages. cbn [length Nat.eqb nth bind belief].
  change (feat (set_tensor i v s1) p) with (feat s1 p).
  change (upd_feat q (set_nu (nu (feat s1 p) + 1)) (set_tensor i v s1))
    with (set_tensor i v (upd_feat q (set_nu (nu (feat s1 p) + 1)) s1)).
  set (sa := upd_feat q (set_nu (nu (feat s1 p) + 1)) s1).
  change (feat (set_tensor i v sa) p) with (feat sa p).
  change (upd_feat q (set_mu (mu (feat sa p))) (set_tensor i v sa))
    with (set_tensor i v (upd_feat q (set_mu (mu (feat sa p))) sa)).
  set (sb := upd_feat q (set_mu (mu (feat sa p))) sa).
  change (upd_feat q (set_log_z 0) (set_tensor i v sb))
    with (set_tensor i v (upd_feat q (set_log_z 0) sb)).
  set (sc := upd_feat q (set_log_z 0) sb).
  change (feat (set_tensor i v sc) q) with (feat sc q).
  assert (Mq : mu (feat sc q) = mu (feat s1 p)).
  { unfold sc. rewrite (feat_upd_feat_proj mu) by reflexivity.
    unfold sb. rewrite feat_upd_feat_same
      by (unfold sa; rewrite feats_upd_feat_length; lia).
    simpl. unfold sa. now rewrite feat_upd_feat_other by congruence. }
  rewrite tensor_set_tensor_other; [reflexivity|].
  rewrite Mq. apply not_eq_sym. now apply O1.
Qed.

(** X14 at an instance.  The evidence at the query node [A] replaced by [(5, 5)]. *)
Lemma leaf_belief_on_cherry :
  belief (posterior_predictive_density cherry "A"
            (Some (upd 0 [5; 5] [[0; 0]; [1; 1]])) (blank 4))
  = belief (posterior_predictive_density cherry "A" (Some [[0; 0]; [1; 1]]) (blank 4)).
Proof.
  apply (leaf_belief_ignores_own_evidence cherry "A" [[0; 0]; [1; 1]] (blank 4)
           2 1 1 0 [5; 5] cherry_wf).
  - reflexivity.
  - reflexivity.
  - lia.
  - reflexivity.
  - lia.
  - simpl; lia.
  - intros [|[|[|[|y]]]] Hy Hne; simpl; try discriminate; try lia.
    unfold size in Hy; simpl in Hy; lia.
Defined.

End TreeVAEFacts.

Module DEMixinFacts.

Import DEMixin.

(** ** Boolean masks *)

Lemma mask_index_ones (a : list Z) : mask_index a (ones (length a)) = Ok a.
Proof.
  unfold mask_index, ones. rewrite repeat_length, Nat.eqb_refl. f_equal.
  induction a as [|x a IH]; simpl; [reflexivity | now rewrite IH].
Qed.

Lemma count_true_ones n : count_true (ones n) = n.
Proof.
  unfold count_true, ones. induction n as [|n IH]; simpl; [reflexivity | now rewrite IH].
Qed.

(** ** Splitting into chunks *)

Lemma take_sections_length {A : Type} (sizes : list nat) (l : list A) :
  length (take_sections sizes l) = length sizes.
Proof.
  revert l; induction sizes as [|s sizes IH]; intros l; simpl; auto.
Qed.

Lemma take_sections_concat {A : Type} (sizes : list nat) (l : list A) :
  (length l <= list_sum sizes)%nat -> concat (take_sections sizes l) = l.
Proof.
  revert l; induction sizes as [|s sizes IH]; intros l H; simpl in *.
  - destruct l; [reflexivity | simpl in H; lia].
  - rewrite IH.
    + apply firstn_skipn.
    + rewrite length_skipn. lia.
Qed.

Lemma list_sum_repeat x n : list_sum (repeat x n) = (n * x)%nat.
Proof. induction n as [|n IH]; simpl; [reflexivity | now rewrite IH]. Qed.

Lemma array_split_spec {A : Type} (ary : list A) (sections : Z) :
  (0 < sections)%Z ->
  exists chunks, array_split ary sections = Ok chunks
    /\ length chunks = Z.to_nat sections
    /\ concat chunks = ary.
Proof.
  intros H. unfold array_split.
  destruct (Z.leb_spec sections 0) as [H0|_]; [lia|].
  set (n := Z.to_nat sections).
  assert (Hn : (n <> 0)%nat) by (unfold n; lia).
  pose proof (Nat.mod_upper_bound (length ary) n Hn) as Hm.
  pose proof (Nat.div_mod (length ary) n Hn) as Hd.
  eexists; split; [reflexivity|]. split.
  - rewrite take_sections_length, length_app, !repeat_length. lia.
  - apply take_sections_concat.
    rewrite list_sum_app, !list_sum_repeat. nia.
Qed.

Lemma slice_to_all {A : Type} (stop : option Z) (l : list A) :
  (stop = None \/ exists m, stop = Some m /\ (Z.of_nat (length l) <= m)%Z) ->
  slice_to stop l = l.
Proof.
  intros [->|(m & -> & H)]; simpl; [reflexivity|].
  destruct (Z.leb_spec 0 m); [|lia].
  apply firstn_all2. lia.
Qed.

Lemma ceil_div_spec (a b : Z) :
  (0 < b)%Z ->
  exists c, ceil_div a b = Ok c /\ ((c - 1) * b < a <= c * b)%Z.
Proof.
  intros H. unfold ceil_div. destruct (Z.eqb_spec b 0); [lia|].
  eexists; split; [reflexivity|].
  pose proof (Z.div_mod (- a) b ltac:(lia)) as D.
  pose proof (Z.mod_pos_bound (- a) b H) as M. nia.
Qed.

(** ** The calls of a computation *)

Lemma calls_mbind {A B : Type} (m : M A) (k : A -> M B) g e :
  In e (calls (mbind m k g)) ->
  In e (calls (m g))
  \/ exists a g1 t1, m g = (Ok a, g1, t1) /\ In e (calls (k a g1)).
Proof.
  unfold mbind, calls. destruct (m g) as [[[a|x|] g1] t1]; simpl; auto.
  destruct (k a g1) as [[r g2] t2] eqn:E; simpl. intros H.
  apply in_app_or in H. destruct H as [H|H]; [now left|].
  right. exists a, g1, t1. rewrite E. now split.
Qed.

Lemma calls_lift {A : Type} (r : result A) g : calls (lift r g) = [].
Proof. reflexivity. Qed.

Lemma filter_cells_calls env indices g e :
  In e (calls (filter_cells env indices g)) -> is_inference e = false.
Proof.
  unfold filter_cells. intros H.
  apply calls_mbind in H. destruct H as [[<-|[]]|(a & g1 & t1 & E & H)]; [reflexivity|].
  destruct (_ || _); [destruct H|].
  apply calls_mbind in H. destruct H as [H|(b & g2 & t2 & E2 & H)].
  - apply calls_mbind in H.
    destruct H as [[<-|[]]|(c & g3 & t3 & E3 & H)]; [reflexivity|].
    destruct (fit_predict env _) as [labels|x|]; [few_calls H | | few_calls H].
    destruct x; few_calls H.
  - destruct H.
Qed.

Lemma cell_chunks_calls env indices_ k max_chunks g e :
  In e (calls (cell_chunks env indices_ k max_chunks g)) -> is_inference e = false.
Proof.
  unfold cell_chunks. intros H.
  apply calls_mbind in H. destruct H as [H|(a & g1 & t1 & E & H)].
  { destruct k; destruct H. }
  apply calls_mbind in H. destruct H as [[]|(b & g2 & t2 & E2 & H)].
  apply calls_mbind in H. destruct H as [[<-|[]]|(c & g3 & t3 & E3 & H)]; [reflexivity|].
  apply calls_mbind in H. destruct H as [H|(d & g4 & t4 & E4 & H)].
  { destruct (shuffle env 0%Z indices_); simpl in H. destruct H as [<-|[]]. reflexivity. }
  apply calls_mbind in H. destruct H as [[]|(d' & g5 & t5 & E5 & [])].
Qed.

Lemma inference_loops_calls env n chunks g e :
  In e (calls (inference_loops env n chunks g)) ->
  exists chunk, In chunk chunks /\ e = InferenceLoop chunk n.
Proof.
  revert g; induction chunks as [|c chunks IH]; intros g H; simpl in H; [destruct H|].
  apply calls_mbind in H. destruct H as [H|(a & g1 & t1 & E & H)].
  - destruct (inference_loop env c n g); simpl in H. destruct H as [<-|[]].
    exists c; split; [now left | reflexivity].
  - apply calls_mbind in H. destruct H as [H|(b & g2 & t2 & E2 & [])].
    destruct (IH _ H) as (chunk & Hin & ->).
    exists chunk; split; [now right | reflexivity].
Qed.

(** ** The claims on the estimator *)

(** C10.  When the effective index set is empty after the optional batch
    restriction, the result is the empty array of shape [(0, n_vars)]; no
    collaborator is called, the random generator is not touched and nothing
    is raised. *)
Theorem empty_population_returns_empty env indices n_samples n_samples_overall
    filter_cells_flag transform_batch n_cells_per_chunk max_chunks g :
  effective_indices env indices transform_batch = Ok [] ->
  get_population_expression env indices n_samples n_samples_overall
    filter_cells_flag transform_batch n_cells_per_chunk max_chunks g
  = (Ok {| rows := []; n_cols := n_vars env |}, g, []).
Proof.
  intros H. unfold get_population_expression, mbind, lift. now rewrite H.
Qed.

(** C10 on the toy collaborators: no cell of [1; 2] is in batch 5. *)
Lemma empty_population_on_toy :
  get_population_expression toy [1; 2]%Z 25 None true (Some 5%Z) (Some 500%Z) None 7%Z
  = (Ok {| rows := []; n_cols := 3 |}, 7%Z, []).
Proof.
  apply (empty_population_returns_empty toy [1; 2]%Z 25 None true (Some 5%Z)
           (Some 500%Z) None 7%Z).
  reflexivity.
Defined.

(** C4, as stated, fails: with [n_samples = 200] the inference loop is asked
    for 100 samples per cell. *)
Lemma two_hundred_samples_capped :
  In (InferenceLoop [3; 2; 1]%Z 100)
     (calls (get_population_expression toy [1; 2; 3]%Z 200 None false None
               (Some 500%Z) None 0%Z))
  /\ ~ (forall chunk n,
          In (InferenceLoop chunk n)
             (calls (get_population_expression toy [1; 2; 3]%Z 200 None false None
                       (Some 500%Z) None 0%Z)) ->
          n = 200%Z).
Proof.
  assert (H : In (InferenceLoop [3; 2; 1]%Z 100)
     (calls (get_population_expression toy [1; 2; 3]%Z 200 None false None
               (Some 500%Z) None 0%Z))).
  { vm_compute. right; right; now left. }
  split; [exact H|]. intros C. specialize (C _ _ H). discriminate.
Qed.

(** C4, amended.  With [n_samples_overall] unset, every call of the
    inference loop asks for [min(n_samples, 100)] samples per cell. *)
Theorem samples_per_cell_capped env indices n_samples filter_cells_flag
    transform_batch n_cells_per_chunk max_chunks g chunk n :
  In (InferenceLoop chunk n)
     (calls (get_population_expression env indices n_samples None
               filter_cells_flag transform_batch n_cells_per_chunk max_chunks g)) ->
  n = Z.min n_samples 100.
Proof.
  unfold get_population_expression. intros H.
  apply calls_mbind in H. destruct H as [[]|(ix & g1 & t1 & E1 & H)].
  destruct (length ix =? 0)%nat; [destruct H|].
  apply calls_mbind in H. destruct H as [H|(ix' & g2 & t2 & E2 & H)].
  { destruct filter_cells_flag; [|destruct H].
    apply filter_cells_calls in H. discriminate. }
  apply calls_mbind in H. destruct H as [H|(chunks & g3 & t3 & E3 & H)].
  { apply cell_chunks_calls in H. discriminate. }
  apply calls_mbind in H. destruct H as [[]|(ns & g4 & t4 & E4 & H)].
  apply calls_mbind in H. destruct H as [H|(res & g5 & t5 & E5 & H)].
  - apply inference_loops_calls in H. destruct H as (c & _ & H).
    inversion H; subst.
    unfold lift in E4. inversion E4 as [[E4' Hg Ht]]. clear E4.
    unfold samples_per_cell in E4'. destruct chunks; [discriminate|].
    simpl in E4'. inversion E4'. reflexivity.
  - apply calls_mbind in H. destruct H as [[]|(res' & g6 & t6 & E6 & H)].
    apply calls_mbind in H. destruct H as [H|(idx & g7 & t7 & E7 & [])].
    destruct (choice env g6 _ _); simpl in H. destruct H as [H|[]]. discriminate.
Qed.

(** The amended C4 on the toy collaborators, [n_samples = 200]. *)
Lemma samples_per_cell_on_toy : 100%Z = Z.min 200 100.
Proof.
  apply (samples_per_cell_capped toy [1; 2; 3]%Z 200 false None (Some 500%Z) None
           0%Z [3; 2; 1]%Z 100).
  vm_compute. right; right; now left.
Defined.

(** C5.  For a non-empty [indices_] of [N] cells and a chunk bound [k > 0],
    the shuffled indices are split into exactly [ceil(N / k)] chunks, whose
    concatenation is the shuffled array, each index as often as there;
    [cell_chunks] returns these chunks up to [max_chunks], that is all of
    them when [max_chunks] is unset or not below their number. *)
Theorem chunks_partition_shuffled env indices_ k max_chunks g :
  indices_ <> [] -> (0 < k)%Z ->
  let N := Z.of_nat (length indices_) in
  let shuffled := fst (shuffle env 0%Z indices_) in
  exists chunks,
    outcome (cell_chunks env indices_ (Some k) max_chunks g)
    = Ok (slice_to max_chunks chunks)
    /\ ((Z.of_nat (length chunks) - 1) * k < N <= Z.of_nat (length chunks) * k)%Z
    /\ concat chunks = shuffled
    /\ (forall x, count_occ Z.eq_dec (concat chunks) x
                  = count_occ Z.eq_dec shuffled x)
    /\ ((max_chunks = None
         \/ exists m, max_chunks = Some m /\ (Z.of_nat (length chunks) <= m)%Z) ->
        slice_to max_chunks chunks = chunks).
Proof.
  intros Hne Hk N shuffled.
  destruct (ceil_div_spec N k Hk) as (c & Ec & Hc).
  assert (HN : (0 < N)%Z) by (unfold N; destruct indices_; simpl; [congruence | lia]).
  assert (Hc0 : (0 < c)%Z) by nia.
  destruct (array_split_spec shuffled c Hc0) as (chunks & Es & Ls & Cs).
  exists chunks. split; [|split; [|split; [|split]]].
  - unfold cell_chunks, outcome, mbind, ret, lift, emit. fold N. rewrite Ec.
    unfold shuffled in Es. destruct (shuffle env 0%Z indices_) as [l g'].
    simpl in Es. simpl. now rewrite Es.
  - rewrite Ls. rewrite Z2Nat.id by lia. exact Hc.
  - exact Cs.
  - intros x. now rewrite Cs.
  - apply slice_to_all.
Qed.

(** C5 on the toy collaborators: five cells, chunks of at most two. *)
Lemma chunks_partition_on_toy :
  exists chunks,
    outcome (cell_chunks toy [1; 2; 3; 4; 5]%Z (Some 2%Z) None 0%Z)
    = Ok (slice_to None chunks)
    /\ ((Z.of_nat (length chunks) - 1) * 2 < 5 <= Z.of_nat (length chunks) * 2)%Z
    /\ concat chunks = [5; 4; 3; 2; 1]%Z
    /\ (forall x, count_occ Z.eq_dec (concat chunks) x
                  = count_occ Z.eq_dec [5; 4; 3; 2; 1]%Z x)
    /\ ((@None Z = None
         \/ exists m, @None Z = Some m /\ (Z.of_nat (length chunks) <= m)%Z) ->
        slice_to None chunks = chunks).
Proof.
  apply (chunks_partition_shuffled toy [1; 2; 3; 4; 5]%Z 2 None 0%Z).
  - discriminate.
  - lia.
Defined.

(** ** Importance weights *)

Lemma sum_R_exp_pos l : l <> [] -> 0 < sum_R (map exp l).
Proof.
  destruct l as [|x l]; [congruence|]. intros _. simpl.
  assert (H : 0 <= sum_R (map exp l)).
  { induction l as [|y l IH]; simpl; [lra|]. pose proof (exp_pos y). lra. }
  pose proof (exp_pos x). lra.
Qed.

Lemma sum_R_exp_shift c l :
  sum_R (map exp (map (fun w => w - c) l)) = sum_R (map exp l) * exp (- c).
Proof.
  induction l as [|x l IH]; simpl; [ring|].
  rewrite IH. unfold Rminus. rewrite exp_plus. ring.
Qed.

(** C6.  For a non-empty vector of log-importance-weights, the exponentials
    of [log_probs = importance_weight - logsumexp(importance_weight)] sum
    to 1. *)
Theorem probs_sum_to_one (importance_weight : list R) :
  importance_weight <> [] -> sum_R (probs importance_weight) = 1.
Proof.
  intros H. unfold probs, log_probs, logsumexp.
  rewrite sum_R_exp_shift. pose proof (sum_R_exp_pos _ H) as P.
  rewrite exp_Ropp, exp_ln by exact P. field. lra.
Qed.

(** C6 on two equal weights. *)
Lemma probs_sum_to_one_example : sum_R (probs [0; 0]) = 1.
Proof. apply (probs_sum_to_one [0; 0]). discriminate. Defined.

(** C7.  When the fit is reached (the latent means have the shape the
    function checks) and it raises [ValueError], or its labels keep at most
    one cell, [filter_cells] returns its [indices] and raises nothing. *)
Theorem filter_cells_falls_back env indices g :
  let qz_m := get_latent_representation env indices in
  ndim qz_m = 2%nat -> shape0 qz_m = length indices ->
  (fit_predict env qz_m = Raise ValueError
   \/ exists labels, fit_predict env qz_m = Ok labels
                     /\ (count_true (map (Z.eqb 1) labels) <= 1)%nat) ->
  outcome (filter_cells env indices g) = Ok indices.
Proof.
  intros qz_m Hd Hs Hfit.
  unfold filter_cells, outcome, mbind, emit, ret, lift, raise. fold qz_m.
  rewrite Hd, Hs, !Nat.eqb_refl. simpl.
  destruct Hfit as [E|(labels & E & Hc)]; rewrite E; simpl.
  - destruct (_ <=? 1)%nat; now rewrite mask_index_ones.
  - apply Nat.leb_le in Hc. rewrite Hc. now rewrite mask_index_ones.
Qed.

(** C7 on the toy collaborators, whose fit always raises [ValueError]. *)
Lemma filter_cells_falls_back_on_toy :
  outcome (filter_cells toy [1; 2; 3]%Z 0%Z) = Ok [1; 2; 3]%Z.
Proof.
  apply (filter_cells_falls_back toy [1; 2; 3]%Z 0%Z); [reflexivity | reflexivity|].
  left; reflexivity.
Defined.

Lemma toy_choice_draws : choice_draws toy.
Proof.
  intros g n size Hn Hs. exists (repeat 0%nat (Z.to_nat size)), g.
  split; [reflexivity|]. split; [apply repeat_length|].
  apply Forall_forall. intros i Hi. apply repeat_spec in Hi. lia.
Qed.

Lemma toy_inference_shape : inference_shape toy.
Proof. intros chunk n g. split; [reflexivity | discriminate]. Qed.

(** ** The cells that [filter_cells] keeps *)

Lemma mask_index_labels (indices labels : list Z) :
  length labels = length indices ->
  mask_index indices (map (Z.eqb 1) labels) = Ok (inliers indices labels)
  /\ length (inliers indices labels) = count_true (map (Z.eqb 1) labels).
Proof.
  intros L. unfold mask_index, inliers, count_true.
  rewrite length_map, L, Nat.eqb_refl. split.
  - f_equal. clear L. revert labels.
    induction indices as [|x indices IH]; intros [|y labels];
      cbn [map combine filter fst snd]; auto.
    destruct (1 =? y)%Z; cbn [map fst]; now rewrite IH.
  - rewrite length_map. revert labels L.
    induction indices as [|x indices IH]; intros [|y labels] L;
      cbn [map combine filter fst snd length] in *; try discriminate; auto.
    destruct (1 =? y)%Z; cbn [length]; rewrite IH; auto.
Qed.

(** X15.  When the fit returns one label per cell, [filter_cells] returns the
    cells labelled 1, in the order of [indices], if there are two of them
    at least; it never returns fewer than two cells unless it returns
    [indices] itself; and every cell it returns is one of [indices]. *)
Theorem filter_cells_keeps_inliers env indices g labels :
  let qz_m := get_latent_representation env indices in
  ndim qz_m = 2%nat -> shape0 qz_m = length indices ->
  fit_predict env qz_m = Ok labels -> length labels = length indices ->
  exists kept,
    outcome (filter_cells env indices g) = Ok kept
    /\ ((2 <= count_true (map (Z.eqb 1) labels))%nat ->
        kept = inliers indices labels)
    /\ (kept = indices \/ (2 <= length kept)%nat)
    /\ (forall x, In x kept -> In x indices).
Proof.
  intros qz_m Hd Hs Hfit HL.
  destruct (mask_index_labels indices labels HL) as [Em Ec].
  assert (Hsub : forall x, In x (inliers indices labels) -> In x indices).
  { intros x Hx. unfold inliers in Hx. apply in_map_iff in Hx.
    destruct Hx as ([a b] & <- & Hx). apply filter_In in Hx.
    destruct Hx as [Hx _]. now apply in_combine_l in Hx. }
  unfold filter_cells, outcome, mbind, emit, ret, lift, raise. fold qz_m.
  rewrite Hd, Hs, !Nat.eqb_refl, Hfit. simpl.
  destruct (Nat.leb_spec (count_true (map (Z.eqb 1) labels)) 1) as [Hc|Hc].
  - rewrite mask_index_ones. exists indices. simpl.
    split; [reflexivity|]. split; [lia|]. split; [now left | auto].
  - rewrite Em. exists (inliers indices labels). simpl.
    split; [reflexivity|]. split; [reflexivity|]. split; [right; lia | exact Hsub].
Qed.

(** X15 at an instance.  Three cells, the first labelled an outlier. *)
Lemma inliers_on_outlier_toy :
  exists kept,
    outcome (filter_cells outlier_toy [7; 8; 9]%Z 0%Z) = Ok kept
    /\ ((2 <= count_true (map (Z.eqb 1) [-1; 1; 1]%Z))%nat ->
        kept = inliers [7; 8; 9]%Z [-1; 1; 1]%Z)
    /\ (kept = [7; 8; 9]%Z \/ (2 <= length kept)%nat)
    /\ (forall x, In x kept -> In x [7; 8; 9]%Z).
Proof.
  apply (filter_cells_keeps_inliers outlier_toy [7; 8; 9]%Z 0%Z [-1; 1; 1]%Z);
    reflexivity.
Defined.

(** X16.  When the latent means do not have one row per index, [filter_cells]
    raises [ValueError] right after [get_latent_representation]: the fit is
    not attempted and no warning is logged. *)
Theorem filter_cells_shape_mismatch env indices g :
  let qz_m := get_latent_representation env indices in
  (ndim qz_m <> 2%nat \/ shape0 qz_m <> length indices) ->
  filter_cells env indices g = (Raise ValueError, g, [LatentRepresentation indices]).
Proof.
  intros qz_m H. unfold filter_cells, mbind, emit, raise. fold qz_m.
  assert (E : negb (ndim qz_m =? 2)%nat || negb (shape0 qz_m =? length indices)%nat
              = true).
  { destruct H as [H|H]; apply Nat.eqb_neq in H; rewrite H; simpl; auto.
    apply orb_true_r. }
  now rewrite E.
Qed.

(** X16 at an instance.  Latent means of one dimension. *)
Lemma shape_mismatch_on_flat_toy :
  filter_cells flat_toy [7; 8; 9]%Z 0%Z
  = (Raise ValueError, 0%Z, [LatentRepresentation [7; 8; 9]%Z]).
Proof.
  apply (filter_cells_shape_mismatch flat_toy [7; 8; 9]%Z 0%Z).
  left. simpl. lia.
Defined.

(** ** The size of the chunks *)

Lemma take_sections_sizes {A : Type} (sizes : list nat) (l : list A) :
  (list_sum sizes <= length l)%nat ->
  map (@length A) (take_sections sizes l) = sizes.
Proof.
  revert l; induction sizes as [|s sizes IH]; intros l H; simpl in *; auto.
  rewrite IH by (rewrite length_skipn; lia).
  rewrite length_firstn. f_equal. lia.
Qed.

Lemma array_split_sizes {A : Type} (ary : list A) (sections : Z) chunks :
  array_split ary sections = Ok chunks ->
  let n := Z.to_nat sections in
  Forall (fun c : list A => (length ary / n <= length c <= S (length ary / n))%nat
                            /\ ((length ary mod n)%nat = 0%nat ->
                                length c = (length ary / n)%nat))
         chunks.
Proof.
  unfold array_split. destruct (Z.leb_spec sections 0) as [H0|H0]; [discriminate|].
  intros E; inversion E; subst chunks; clear E.
  set (n := Z.to_nat sections).
  assert (Hn : (n <> 0)%nat) by (unfold n; lia).
  pose proof (Nat.mod_upper_bound (length ary) n Hn) as Hm.
  pose proof (Nat.div_mod (length ary) n Hn) as Hd.
  set (sizes := repeat (S (length ary / n)) (length ary mod n)
                ++ repeat (length ary / n)%nat (n - length ary mod n)).
  assert (Hs : map (@length A) (take_sections sizes ary) = sizes).
  { apply take_sections_sizes. unfold sizes.
    rewrite list_sum_app, !list_sum_repeat. nia. }
  apply Forall_forall. intros c Hc.
  assert (Hin : In (length c) sizes) by (rewrite <- Hs; now apply in_map).
  unfold sizes in Hin. apply in_app_or in Hin.
  destruct Hin as [Hin|Hin]; apply repeat_spec in Hin.
  - split; [lia|]. intros Hz.
    assert (Hin' : In (length c) sizes) by (rewrite <- Hs; now apply in_map).
    unfold sizes in Hin'. rewrite Hz in Hin'. simpl in Hin'.
    now apply repeat_spec in Hin'.
  - split; [lia | intros _; exact Hin].
Qed.

Lemma Forall_take {A : Type} (P : A -> Prop) n (l : list A) :
  Forall P l -> Forall P (firstn n l).
Proof.
  intros H; revert n; induction H as [|x l Hx H IH]; intros [|n]; simpl; auto.
Qed.

Lemma Forall_slice_to {A : Type} (P : A -> Prop) stop (l : list A) :
  Forall P l -> Forall P (slice_to stop l).
Proof.
  intros H. destruct stop as [m|]; simpl; [|exact H].
  destruct (0 <=? m)%Z; now apply Forall_take.
Qed.

(** The steps of [cell_chunks] on a non-empty array and a positive bound. *)
Lemma cell_chunks_split env indices_ k max_chunks g :
  indices_ <> [] -> (0 < k)%Z ->
  let N := Z.of_nat (length indices_) in
  let shuffled := fst (shuffle env 0%Z indices_) in
  exists c all_chunks,
    ceil_div N k = Ok c /\ (0 < c)%Z /\ ((c - 1) * k < N <= c * k)%Z
    /\ array_split shuffled c = Ok all_chunks
    /\ length all_chunks = Z.to_nat c
    /\ concat all_chunks = shuffled
    /\ cell_chunks env indices_ (Some k) max_chunks g
       = (Ok (slice_to max_chunks all_chunks), snd (shuffle env 0%Z indices_),
          [Seed 0; Shuffle indices_]).
Proof.
  intros Hne Hk N shuffled.
  destruct (ceil_div_spec N k Hk) as (c & Ec & Hc).
  assert (HN : (0 < N)%Z) by (unfold N; destruct indices_; simpl; [congruence | lia]).
  assert (Hc0 : (0 < c)%Z) by nia.
  destruct (array_split_spec shuffled c Hc0) as (chunks & Es & Ls & Cs).
  exists c, chunks. repeat (split; [assumption|]).
  unfold cell_chunks, mbind, ret, lift, emit. fold N. rewrite Ec.
  unfold shuffled in Es. destruct (shuffle env 0%Z indices_) as [l g'].
  simpl in Es. simpl. now rewrite Es.
Qed.

Lemma chunk_sizes env indices_ k c all_chunks :
  indices_ <> [] -> (0 < k)%Z -> (0 < c)%Z ->
  ((c - 1) * k < Z.of_nat (length indices_) <= c * k)%Z ->
  length (fst (shuffle env 0%Z indices_)) = length indices_ ->
  array_split (fst (shuffle env 0%Z indices_)) c = Ok all_chunks ->
  Forall (fun chunk : list Z => (1 <= Z.of_nat (length chunk) <= k)%Z) all_chunks.
Proof.
  intros Hne Hk Hc0 Hc Hsh Es.
  pose proof (array_split_sizes _ _ _ Es) as Hz. rewrite Hsh in Hz.
  cbv zeta in Hz. revert Hz. apply Forall_impl. intros chunk [Hb Hr].
  set (n := Z.to_nat c) in *.
  assert (Hn : (n <> 0)%nat) by (unfold n; lia).
  pose proof (Nat.mod_upper_bound (length indices_) n Hn) as Hm.
  pose proof (Nat.div_mod (length indices_) n Hn) as Hd.
  assert (En : Z.of_nat n = c) by (unfold n; lia).
  assert (Hq : (1 <= length indices_ / n)%nat).
  { apply Nat.div_le_lower_bound; [exact Hn|]. nia. }
  split; [lia|].
  destruct (Nat.eq_dec (length indices_ mod n) 0) as [Hz|Hz].
  + rewrite (Hr Hz). nia.
  + nia.
Qed.

(** X17.  Every chunk handed to the inference loop holds at least one cell and at
    most [n_cells_per_chunk] cells, whatever [max_chunks] is; the shuffle is
    taken to keep the number of indices, as [np.random.shuffle] does. *)
Theorem chunks_within_bound env indices_ k max_chunks g :
  indices_ <> [] -> (0 < k)%Z ->
  length (fst (shuffle env 0%Z indices_)) = length indices_ ->
  exists chunks,
    outcome (cell_chunks env indices_ (Some k) max_chunks g) = Ok chunks
    /\ Forall (fun chunk => (1 <= Z.of_nat (length chunk) <= k)%Z) chunks.
Proof.
  intros Hne Hk Hsh.
  destruct (cell_chunks_split env indices_ k max_chunks g Hne Hk)
    as (c & all & Ec & Hc0 & Hc & Es & Ls & Cs & E).
  exists (slice_to max_chunks all). split; [now rewrite E|].
  apply Forall_slice_to. now apply (chunk_sizes env indices_ k c).
Qed.

(** X17 at an instance.  Five cells in chunks of two at most. *)
Lemma chunks_within_bound_on_toy :
  exists chunks,
    outcome (cell_chunks toy [1; 2; 3; 4; 5]%Z (Some 2%Z) None 0%Z) = Ok chunks
    /\ Forall (fun chunk => (1 <= Z.of_nat (length chunk) <= 2)%Z) chunks.
Proof.
  apply (chunks_within_bound toy [1; 2; 3; 4; 5]%Z 2 None 0%Z).
  - discriminate.
  - lia.
  - reflexivity.
Defined.

Lemma cell_chunks_nonempty env ix k max_chunks g :
  ix <> [] -> (0 < k)%Z ->
  length (fst (shuffle env 0%Z ix)) = length ix ->
  (max_chunks = None \/ exists m, max_chunks = Some m /\ (1 <= m)%Z) ->
  exists chunks g' t,
    cell_chunks env ix (Some k) max_chunks g = (Ok chunks, g', t)
    /\ chunks <> [] /\ concat chunks <> []
    /\ (max_chunks = None -> length (concat chunks) = length ix).
Proof.
  intros Hne Hk Hsh Hm.
  destruct (cell_chunks_split env ix k max_chunks g Hne Hk)
    as (c & all & Ec & Hc0 & Hc & Es & Ls & Cs & E).
  pose proof (chunk_sizes env ix k c all Hne Hk Hc0 Hc Hsh Es) as F.
  assert (Hall0 : all <> []) by (destruct all; [simpl in Ls; lia | discriminate]).
  assert (Hch : slice_to max_chunks all <> []).
  { destruct Hm as [->|(m & -> & Hm)]; simpl; [exact Hall0|].
    destruct (Z.leb_spec 0 m); [|lia].
    destruct all; [congruence|]. destruct (Z.to_nat m) eqn:Em; [lia|]. discriminate. }
  eexists _, _, _. split; [exact E|]. split; [exact Hch|]. split.
  - apply (Forall_slice_to _ max_chunks) in F.
    destruct (slice_to max_chunks all) as [|ch chunks]; [congruence|].
    inversion F as [|? ? Hl _]; subst.
    destruct ch; [simpl in Hl; lia | discriminate].
  - intros ->. simpl. rewrite Cs. exact Hsh.
Qed.

(** ** The steps of [get_population_expression] *)

Lemma get_population_expression_steps env indices n_samples n_samples_overall flag
    transform_batch n_cells_per_chunk max_chunks g
    ix ix' g1 t1 chunks g2 t2 ns ms g3 t3 res idx g4 :
  effective_indices env indices transform_batch = Ok ix -> ix <> [] ->
  filter_step env flag ix g = (Ok ix', g1, t1) ->
  cell_chunks env ix' n_cells_per_chunk max_chunks g1 = (Ok chunks, g2, t2) ->
  samples_per_cell n_samples n_samples_overall chunks = Ok ns ->
  inference_loops env (fst ns) chunks g2 = (Ok ms, g3, t3) ->
  concatenate ms = Ok res ->
  choice env g3 (length (rows res)) (snd ns) = (Ok idx, g4) ->
  get_population_expression env indices n_samples n_samples_overall flag
    transform_batch n_cells_per_chunk max_chunks g
  = (Ok {| rows := map (fun i => nth i (rows res) []) idx; n_cols := n_cols res |},
     g4, t1 ++ t2 ++ t3 ++ [Choice (length (rows res)) (snd ns)]).
Proof.
  intros E0 Hne E1 E2 E3 E4 E5 E6.
  unfold get_population_expression, mbind at 1, lift at 1. rewrite E0.
  destruct ix as [|x ix]; [congruence|]. cbn [length Nat.eqb].
  unfold filter_step in E1.
  unfold mbind at 1. rewrite E1.
  unfold mbind at 1. rewrite E2.
  unfold mbind at 1, lift at 1. rewrite E3.
  unfold mbind at 1. rewrite E4.
  unfold mbind at 1, lift at 1. rewrite E5.
  unfold mbind at 1. rewrite E6. unfold ret. simpl.
  rewrite ?app_nil_r. repeat f_equal.
Qed.

Lemma filter_step_rng env flag ix g :
  snd (fst (filter_step env flag ix g)) = g.
Proof.
  unfold filter_step. destruct flag; [|reflexivity].
  unfold filter_cells, mbind, emit, raise, ret, lift. simpl.
  destruct (_ || _); [reflexivity|].
  destruct (fit_predict env _) as [labels|e|]; simpl; try reflexivity.
  destruct e; reflexivity.
Qed.

Lemma filter_step_no_inference env flag ix g :
  filter is_inference (calls (filter_step env flag ix g)) = [].
Proof.
  unfold filter_step. destruct flag; [|reflexivity].
  unfold filter_cells, calls, mbind, emit, raise, ret, lift. simpl.
  destruct (_ || _); [reflexivity|].
  destruct (fit_predict env _) as [labels|e|]; simpl; try reflexivity.
  destruct e; reflexivity.
Qed.

Lemma cell_chunks_no_inference env ix k max_chunks g :
  filter is_inference (calls (cell_chunks env ix k max_chunks g)) = [].
Proof.
  unfold cell_chunks, calls, mbind, emit, raise, ret, lift.
  destruct k as [k|]; [|reflexivity]. simpl.
  destruct (ceil_div _ _); simpl; try reflexivity.
  destruct (shuffle env 0%Z ix) as [l g']. simpl.
  now destruct (array_split _ _).
Qed.

Lemma inference_loops_run env n chunks :
  forall g, exists ms g',
    inference_loops env n chunks g
    = (Ok ms, g', map (fun chunk => InferenceLoop chunk n) chunks)
    /\ length ms = length chunks
    /\ Forall (fun m => exists chunk g0,
                 In chunk chunks /\ m = fst (inference_loop env chunk n g0)) ms.
Proof.
  induction chunks as [|c chunks IH]; intros g.
  - exists [], g. repeat split; constructor.
  - simpl. unfold mbind at 1.
    destruct (inference_loop env c n g) as [h g1] eqn:E.
    destruct (IH g1) as (ms & g' & E' & L & F).
    exists (h :: ms), g'. unfold mbind at 1. rewrite E'. unfold ret. simpl.
    rewrite app_nil_r. split; [reflexivity|]. split; [now rewrite L|].
    constructor.
    + exists c, g. split; [now left | now rewrite E].
    + revert F. apply Forall_impl. intros m (chunk & g0 & Hin & ->).
      exists chunk, g0. split; [now right | reflexivity].
Qed.

Lemma concatenate_same_cols (ms : list matrix) (c : nat) :
  ms <> [] -> Forall (fun m => n_cols m = c) ms ->
  concatenate ms = Ok {| rows := concat (map rows ms); n_cols := c |}.
Proof.
  intros Hne F. destruct ms as [|m ms]; [congruence|].
  unfold concatenate.
  assert (Hc : n_cols m = c) by now inversion F.
  assert (E : forallb (fun m' => (n_cols m' =? n_cols m)%nat) (m :: ms) = true).
  { apply forallb_forall. intros m' Hin. apply Nat.eqb_eq.
    rewrite Hc. exact (proj1 (Forall_forall _ _) F m' Hin). }
  rewrite E. now rewrite Hc.
Qed.

Lemma filter_app_nil {A : Type} (f : A -> bool) (l1 l2 : list A) :
  filter f l1 = [] -> filter f (l1 ++ l2) = filter f l2.
Proof. intros H. now rewrite filter_app, H. Qed.

Lemma triple_eta {A B C : Type} (x : A * B * C) : x = (fst (fst x), snd (fst x), snd x).
Proof. now destruct x as [[a b] c]. Qed.

(** X18.  The number of rows of the result.  Take collaborators that behave as
    numpy and the inference loop do: the shuffle keeps the number of
    indices, the inference loop returns a non-empty array with one column
    per gene, and [np.random.choice] returns [size] positions.  With cells
    left after the batch restriction and the filter, a positive
    [n_cells_per_chunk] and at least one chunk allowed, the result has
    [n_vars] columns and exactly [n_samples_overall] rows when that is
    given, and otherwise [n_samples] rows per cell used: the cap of 100
    samples per cell does not shorten the result. *)
Theorem population_expression_rows env indices n_samples n_samples_overall flag
    transform_batch k max_chunks g ix ix' :
  choice_draws env -> inference_shape env ->
  effective_indices env indices transform_batch = Ok ix -> ix <> [] ->
  outcome (filter_step env flag ix g) = Ok ix' -> ix' <> [] ->
  (0 < k)%Z -> length (fst (shuffle env 0%Z ix')) = length ix' ->
  (max_chunks = None \/ exists m, max_chunks = Some m /\ (1 <= m)%Z) ->
  (0 <= match n_samples_overall with Some o => o | None => n_samples end)%Z ->
  exists res chunks,
    outcome (get_population_expression env indices n_samples n_samples_overall flag
               transform_batch (Some k) max_chunks g) = Ok res
    /\ outcome (cell_chunks env ix' (Some k) max_chunks g) = Ok chunks
    /\ n_cols res = n_vars env
    /\ Z.of_nat (length (rows res))
       = match n_samples_overall with
         | Some o => o
         | None => (n_samples * Z.of_nat (length (concat chunks)))%Z
         end
    /\ (max_chunks = None -> length (concat chunks) = length ix')
    /\ Forall (fun row => exists chunk n g0,
                 In chunk chunks
                 /\ In row (rows (fst (inference_loop env chunk n g0))))
              (rows res).
Proof.
  intros Hchoice Hinf E0 Hne E1 Hne' Hk Hsh Hm Hpos.
  assert (E1' : filter_step env flag ix g
                = (Ok ix', g, snd (filter_step env flag ix g))).
  { rewrite (triple_eta (filter_step env flag ix g)) at 1.
    unfold outcome in E1. now rewrite E1, filter_step_rng. }
  destruct (cell_chunks_nonempty env ix' k max_chunks g Hne' Hk Hsh Hm)
    as (chunks & g2 & t2 & E2 & Hch & Hcat & Hlen).
  assert (Hused : (0 < Z.of_nat (length (concat chunks)))%Z).
  { destruct (concat chunks); [congruence | simpl; lia]. }
  assert (E3 : exists ns,
             samples_per_cell n_samples n_samples_overall chunks = Ok ns
             /\ snd ns = match n_samples_overall with
                         | Some o => o
                         | None => (n_samples * Z.of_nat (length (concat chunks)))%Z
                         end).
  { unfold samples_per_cell. destruct chunks as [|c chunks]; [congruence|].
    destruct n_samples_overall as [o|].
    - destruct (ceil_div_spec o _ Hused) as (q & Eq & _).
      rewrite Eq. simpl. eexists; split; reflexivity.
    - simpl. eexists; split; reflexivity. }
  destruct E3 as (ns & E3 & Hns).
  destruct (inference_loops_run env (fst ns) chunks g2) as (ms & g3 & E4 & Lms & Fms).
  assert (Hms : ms <> []).
  { destruct ms; [|discriminate]. destruct chunks; [congruence | discriminate]. }
  assert (Fcols : Forall (fun m => n_cols m = n_vars env) ms).
  { revert Fms. apply Forall_impl. intros m (chunk & g0 & _ & ->). apply Hinf. }
  pose proof (concatenate_same_cols ms (n_vars env) Hms Fcols) as E5.
  set (res := {| rows := concat (map rows ms); n_cols := n_vars env |}) in *.
  assert (Hrows : (0 < length (rows res))%nat).
  { unfold res; simpl. destruct ms as [|m ms]; [congruence|].
    inversion Fms as [|? ? (chunk & g0 & _ & Em) _]; subst.
    destruct (Hinf chunk (fst ns) g0) as [_ Hr]. simpl.
    destruct (rows (fst (inference_loop env chunk (fst ns) g0))); [congruence|].
    simpl. lia. }
  assert (Hsize : (0 <= snd ns)%Z).
  { rewrite Hns. destruct n_samples_overall; [exact Hpos | nia]. }
  destruct (Hchoice g3 (length (rows res)) (snd ns) Hrows Hsize)
    as (idx & g4 & E6 & Lidx & Fidx).
  eexists; exists chunks.
  rewrite (get_population_expression_steps _ _ _ _ _ _ _ _ _ _ _ _ _ _ _ _ _ _ _ _ _ _ _
             E0 Hne E1' E2 E3 E4 E5 E6).
  unfold outcome at 1. simpl. split; [reflexivity|].
  split; [unfold outcome; now rewrite E2|]. split; [reflexivity|].
  split; [cbn [rows]; rewrite length_map, Lidx, <- Hns; lia|].
  split; [exact Hlen|].
  cbn [rows]. apply Forall_forall. intros row Hrow.
  apply in_map_iff in Hrow. destruct Hrow as (j & <- & Hj).
  pose proof (proj1 (Forall_forall _ _) Fidx j Hj) as Hlt.
  pose proof (nth_In (rows res) [] Hlt) as Hin. unfold res in Hin at 2. simpl in Hin.
  apply in_concat in Hin. destruct Hin as (rs & Hrs & Hin).
  apply in_map_iff in Hrs. destruct Hrs as (m & <- & Hm').
  destruct (proj1 (Forall_forall _ _) Fms m Hm') as (chunk & g0 & Hc & ->).
  exists chunk, (fst ns), g0. now split.
Qed.

(** X18 at an instance.  Three cells and [n_samples = 200]: 600 rows. *)
Lemma rows_on_toy :
  exists res chunks,
    outcome (get_population_expression toy [1; 2; 3]%Z 200 None true None
               (Some 2%Z) None 0%Z) = Ok res
    /\ outcome (cell_chunks toy [1; 2; 3]%Z (Some 2%Z) None 0%Z) = Ok chunks
    /\ n_cols res = n_vars toy
    /\ Z.of_nat (length (rows res)) = (200 * Z.of_nat (length (concat chunks)))%Z
    /\ (@None Z = None -> length (concat chunks) = length [1; 2; 3]%Z)
    /\ Forall (fun row => exists chunk n g0,
                 In chunk chunks
                 /\ In row (rows (fst (inference_loop toy chunk n g0))))
              (rows res).
Proof.
  apply (population_expression_rows toy [1; 2; 3]%Z 200 None true None 2 None 0%Z
           [1; 2; 3]%Z [1; 2; 3]%Z toy_choice_draws toy_inference_shape).
  - reflexivity.
  - discriminate.
  - reflexivity.
  - discriminate.
  - lia.
  - reflexivity.
  - now left.
  - lia.
Defined.

(** X19.  The inference loop is called once per chunk, in the order of the chunks
    and each time for the same number of samples, whether or not the later
    steps succeed. *)
Theorem inference_once_per_chunk env indices n_samples n_samples_overall flag
    transform_batch n_cells_per_chunk max_chunks g ix ix' chunks ns :
  effective_indices env indices transform_batch = Ok ix -> ix <> [] ->
  outcome (filter_step env flag ix g) = Ok ix' ->
  outcome (cell_chunks env ix' n_cells_per_chunk max_chunks g) = Ok chunks ->
  samples_per_cell n_samples n_samples_overall chunks = Ok ns ->
  filter is_inference
    (calls (get_population_expression env indices n_samples n_samples_overall flag
              transform_batch n_cells_per_chunk max_chunks g))
  = map (fun chunk => InferenceLoop chunk (fst ns)) chunks.
Proof.
  intros E0 Hne E1 E2 E3.
  pose proof (filter_step_no_inference env flag ix g) as N1.
  pose proof (cell_chunks_no_inference env ix' n_cells_per_chunk max_chunks g) as N2.
  unfold get_population_expression, mbind at 1, lift at 1. rewrite E0.
  destruct ix as [|x ix]; [congruence|]. cbn [length Nat.eqb].
  fold (filter_step env flag (x :: ix)).
  unfold mbind at 1.
  rewrite (triple_eta (filter_step env flag (x :: ix) g)).
  unfold outcome in E1. rewrite E1, filter_step_rng.
  unfold calls in *. cbn [snd].
  set (t1 := snd (filter_step env flag (x :: ix) g)) in *.
  unfold mbind at 1.
  rewrite (triple_eta (cell_chunks env ix' n_cells_per_chunk max_chunks g)).
  unfold outcome in E2. rewrite E2.
  set (g2 := snd (fst (cell_chunks env ix' n_cells_per_chunk max_chunks g))).
  set (t2 := snd (cell_chunks env ix' n_cells_per_chunk max_chunks g)) in *.
  unfold mbind at 1, lift at 1. rewrite E3.
  destruct (inference_loops_run env (fst ns) chunks g2) as (ms & g3 & E4 & _ & _).
  unfold mbind at 1. rewrite E4.
  unfold mbind at 1, lift at 1.
  assert (Hid : filter is_inference (map (fun chunk => InferenceLoop chunk (fst ns)) chunks)
                = map (fun chunk => InferenceLoop chunk (fst ns)) chunks).
  { induction chunks as [|c cs IH]; simpl; [reflexivity|]. f_equal.
    apply (forallb_filter_id is_inference). apply forallb_forall.
    intros e He. apply in_map_iff in He. now destruct He as (? & <- & _). }
  destruct (concatenate ms) as [res| |]; cbn [snd fst];
    rewrite ?app_nil_l, ?app_nil_r.
  - unfold mbind at 1.
    destruct (choice env g3 (length (rows res)) (snd ns)) as [[idx| |] g4];
      unfold ret; cbn [snd fst]; rewrite ?app_nil_r;
      rewrite !filter_app, N1, N2; simpl; rewrite ?app_nil_r; exact Hid.
  - rewrite !filter_app, N1, N2. simpl. rewrite ?app_nil_r. exact Hid.
  - rewrite !filter_app, N1, N2. simpl. rewrite ?app_nil_r. exact Hid.
Qed.

(** X19 at an instance.  Three cells in chunks of two at most. *)
Lemma once_per_chunk_on_toy :
  filter is_inference
    (calls (get_population_expression toy [1; 2; 3]%Z 25 None true None
              (Some 2%Z) None 0%Z))
  = map (fun chunk => InferenceLoop chunk (fst (25, 75)%Z)) [[3; 2]; [1]]%Z.
Proof.
  apply (inference_once_per_chunk toy [1; 2; 3]%Z 25 None true None (Some 2%Z) None
           0%Z [1; 2; 3]%Z [1; 2; 3]%Z [[3; 2]; [1]]%Z (25, 75)%Z).
  - reflexivity.
  - discriminate.
  - reflexivity.
  - reflexivity.
  - reflexivity.
Defined.

(** X20.  With [max_chunks = 0] and a non-empty population the call raises
    [ValueError] and never reaches the inference loop. *)
Theorem no_chunk_allowed env indices n_samples n_samples_overall flag
    transform_batch k g ix ix' :
  effective_indices env indices transform_batch = Ok ix -> ix <> [] ->
  outcome (filter_step env flag ix g) = Ok ix' -> (0 < k)%Z ->
  let run := get_population_expression env indices n_samples n_samples_overall flag
               transform_batch (Some k) (Some 0%Z) g in
  outcome run = Raise ValueError /\ filter is_inference (calls run) = [].
Proof.
  intros E0 Hne E1 Hk run.
  pose proof (filter_step_no_inference env flag ix g) as N1.
  pose proof (cell_chunks_no_inference env ix' (Some k) (Some 0%Z) g) as N2.
  assert (H : exists g2,
             cell_chunks env ix' (Some k) (Some 0%Z) g
             = (Ok [], g2, snd (cell_chunks env ix' (Some k) (Some 0%Z) g))
             \/ cell_chunks env ix' (Some k) (Some 0%Z) g
                = (Raise ValueError, g2, snd (cell_chunks env ix' (Some k) (Some 0%Z) g))).
  { unfold cell_chunks, mbind, ret, lift, emit. simpl.
    destruct (ceil_div_spec (Z.of_nat (length ix')) k Hk) as (c & Ec & Hc).
    rewrite Ec. simpl. destruct (shuffle env 0%Z ix') as [l g']. simpl.
    unfold array_split. destruct (c <=? 0)%Z; simpl; eauto. }
  assert (R : exists g2,
             run = (Raise ValueError, g2,
                    snd (filter_step env flag ix g)
                    ++ snd (cell_chunks env ix' (Some k) (Some 0%Z) g))).
  { unfold run, get_population_expression, mbind at 1, lift at 1. rewrite E0.
    destruct ix as [|x ix]; [congruence|]. cbn [length Nat.eqb].
    fold (filter_step env flag (x :: ix)).
    unfold mbind at 1.
    rewrite (triple_eta (filter_step env flag (x :: ix) g)).
    unfold outcome in E1. rewrite E1, filter_step_rng.
    destruct H as (g2 & [E2|E2]); exists g2; unfold mbind at 1; rewrite E2.
    - unfold mbind at 1, lift at 1. simpl. now rewrite app_nil_r.
    - reflexivity. }
  destruct R as (g2 & R). rewrite R. unfold outcome, calls in *. simpl.
  split; [reflexivity|]. now rewrite filter_app, N1, N2.
Qed.

(** X20 at an instance.  Three cells, [max_chunks = 0]. *)
Lemma no_chunk_allowed_on_toy :
  outcome (get_population_expression toy [1; 2; 3]%Z 25 None true None
             (Some 2%Z) (Some 0%Z) 0%Z) = Raise ValueError
  /\ filter is_inference
       (calls (get_population_expression toy [1; 2; 3]%Z 25 None true None
                 (Some 2%Z) (Some 0%Z) 0%Z)) = [].
Proof.
  apply (no_chunk_allowed toy [1; 2; 3]%Z 25 None true None 2 0%Z
           [1; 2; 3]%Z [1; 2; 3]%Z).
  - reflexivity.
  - discriminate.
  - reflexivity.
  - lia.
Defined.

(** ** The normalised weights *)

Lemma sum_R_exp_ge l x : In x l -> exp x <= sum_R (map exp l).
Proof.
  induction l as [|y l IH]; intros H; [destruct H|].
  simpl. destruct H as [->|H].
  - assert (0 <= sum_R (map exp l)).
    { clear. induction l as [|z l IH]; simpl; [lra|]. pose proof (exp_pos z). lra. }
    lra.
  - specialize (IH H). pose proof (exp_pos y). lra.
Qed.

(** X21.  Every normalised weight [ws = log_probs.exp()] is positive and at
    most 1, and every entry of [log_probs] is at most 0. *)
Theorem probs_in_unit_interval (importance_weight : list R) :
  Forall (fun p => 0 < p <= 1) (probs importance_weight)
  /\ Forall (fun lp => lp <= 0) (log_probs importance_weight).
Proof.
  assert (H : forall w, In w importance_weight ->
                        w - logsumexp importance_weight <= 0).
  { intros w Hw. unfold logsumexp.
    assert (Hne : importance_weight <> []) by (intros ->; destruct Hw).
    pose proof (sum_R_exp_pos _ Hne) as P.
    pose proof (sum_R_exp_ge _ _ Hw) as G.
    assert (w <= ln (sum_R (map exp importance_weight))); [|lra].
    rewrite <- (ln_exp w). destruct G as [G|G].
    - left. apply ln_increasing; [apply exp_pos | exact G].
    - right. now rewrite G. }
  split; apply Forall_forall.
  - intros p Hp. unfold probs, log_probs in Hp. rewrite map_map in Hp.
    apply in_map_iff in Hp. destruct Hp as (w & <- & Hw).
    split; [apply exp_pos|]. specialize (H w Hw).
    rewrite <- exp_0. destruct H as [H|H].
    + left. now apply exp_increasing.
    + right. now rewrite H.
  - intros lp Hlp. unfold log_probs in Hlp.
    apply in_map_iff in Hlp. destruct Hlp as (w & <- & Hw). now apply H.
Qed.

Lemma logsumexp_shift c l :
  l <> [] -> logsumexp (map (fun w => w + c) l) = logsumexp l + c.
Proof.
  intros H. unfold logsumexp.
  assert (E : sum_R (map exp (map (fun w => w + c) l)) = sum_R (map exp l) * exp c).
  { clear. induction l as [|x l IH]; simpl; [ring|]. rewrite IH, exp_plus. ring. }
  rewrite E, ln_mult, ln_exp; [reflexivity | now apply sum_R_exp_pos | apply exp_pos].
Qed.

Lemma log_probs_shift c l :
  log_probs (map (fun w => w + c) l) = log_probs l.
Proof.
  destruct l as [|x l]; [reflexivity|].
  unfold log_probs. rewrite logsumexp_shift by discriminate.
  rewrite map_map. apply map_ext. intros w. ring.
Qed.

Lemma importance_weight_shift c log_pz log_px_zs log_px log_qz :
  log_px <> [] -> Forall (fun row => row <> []) log_px_zs ->
  importance_weight (map (fun p => p + c) log_pz) log_px_zs log_px log_qz
  = map (fun w => w + c) (importance_weight log_pz log_px_zs log_px log_qz).
Proof.
  intros Hpx Hrows. unfold importance_weight.
  revert log_pz log_qz Hrows.
  induction log_px_zs as [|row rows IH]; intros log_pz log_qz Hrows.
  - destruct log_pz; reflexivity.
  - destruct log_pz as [|pz log_pz]; [reflexivity|].
    destruct log_qz as [|qz log_qz]; [reflexivity|].
    inversion Hrows as [|? ? Hrow Hrest]; subst.
    cbn [map combine map2 fst snd]. f_equal; [|now apply IH].
    rewrite <- logsumexp_shift.
    + f_equal. clear. revert log_px.
      induction row as [|a row IH]; intros [|b log_px]; simpl; auto.
      f_equal; [ring | apply IH].
    + destruct row; [congruence|]. destruct log_px; [congruence | discriminate].
Qed.

(** X22.  The normalised weights do not change when a constant is added to every
    [log_pz]: the prior density need only be known up to a factor.  Every
    sample has at least one cell ([log_px] and the rows of [log_px_zs] are
    not empty). *)
Theorem probs_ignore_prior_scale c log_pz log_px_zs log_px log_qz :
  log_px <> [] -> Forall (fun row => row <> []) log_px_zs ->
  probs (importance_weight (map (fun p => p + c) log_pz) log_px_zs log_px log_qz)
  = probs (importance_weight log_pz log_px_zs log_px log_qz).
Proof.
  intros Hpx Hrows. unfold probs.
  now rewrite importance_weight_shift, log_probs_shift.
Qed.

(** X22 at an instance.  Two samples, one cell, [log_pz] shifted by 1. *)
Lemma prior_scale_example :
  probs (importance_weight (map (fun p => p + 1) [0; 2]) [[0]; [1]] [0] [[0]; [0]])
  = probs (importance_weight [0; 2] [[0]; [1]] [0] [[0]; [0]]).
Proof.
  apply (probs_ignore_prior_scale 1 [0; 2] [[0]; [1]] [0] [[0]; [0]]).
  - discriminate.
  - repeat constructor; discriminate.
Defined.

End DEMixinFacts.
